(** * Convenient Discussions: page code mutation, edit failure
      classification, autocomplete channels and visits packing

    A shallow embedding of [src/js/Page.js], [src/js/Autocomplete.js] and
    [src/js/options.js].  JavaScript strings are sequences of code units;
    the embedding uses [list ascii], i.e. code units below 256.  Regular
    expressions of the source are transcribed as values of [RegExp.regex]
    and run by a backtracking matcher that follows the ECMAScript
    semantics of the constructs the source uses. *)

From Stdlib Require Import ZArith Ascii String List Bool Lia.
From stdpp Require Import base option list gmap strings.

Open Scope Z_scope.
Open Scope nat_scope.
Open Scope list_scope.

(** Strings are sequences of code units below 256.  Code units from 256
    on are outside the embedding: among them are the line terminators
    U+2028 and U+2029, further white space and further pairs of small
    and capital letters.  Every statement about strings below is a
    statement about strings of code units below 256. *)
Abbreviation jsstring := (list ascii).

(** String literals of the source. *)
Definition js (s : string) : jsstring := list_ascii_of_string s.

(* ===================================================================== *)
(** ** JavaScript string primitives                                       *)
(* ===================================================================== *)

Module JsString.

Definition code (a : ascii) : nat := nat_of_ascii a.

(** WhiteSpace and LineTerminator code units below 256: TAB, LF, VT, FF,
    CR, SPACE and NBSP. *)
Definition isWhiteSpace (a : ascii) : bool :=
  let n := code a in
  (n =? 9) || (n =? 10) || (n =? 11) || (n =? 12) || (n =? 13)
  || (n =? 32) || (n =? 160).

(** LineTerminator code units below 256: LF and CR. *)
Definition isLineTerminator (a : ascii) : bool :=
  let n := code a in (n =? 10) || (n =? 13).

Definition isDigit (a : ascii) : bool :=
  let n := code a in (48 <=? n) && (n <=? 57).

Definition eqb (a b : ascii) : bool := Ascii.eqb a b.

Fixpoint string_eqb (s t : jsstring) : bool :=
  match s, t with
  | [], [] => true
  | a :: s', b :: t' => eqb a b && string_eqb s' t'
  | _, _ => false
  end.

(** [String.prototype.trimStart]. *)
Fixpoint trimStart (s : jsstring) : jsstring :=
  match s with
  | [] => []
  | a :: s' => if isWhiteSpace a then trimStart s' else s
  end.

Definition trimEnd (s : jsstring) : jsstring := rev (trimStart (rev s)).

(** [String.prototype.trim]. *)
Definition trim (s : jsstring) : jsstring := trimEnd (trimStart s).

(** [s.startsWith(p)]. *)
Fixpoint startsWith (s p : jsstring) {struct p} : bool :=
  match p, s with
  | [], _ => true
  | b :: p', a :: s' => eqb a b && startsWith s' p'
  | _ :: _, [] => false
  end.

(** [s.includes(p)]. *)
Fixpoint includes (s p : jsstring) : bool :=
  startsWith s p ||
  match s with
  | [] => false
  | _ :: s' => includes s' p
  end.

(** Relative index of [slice]: negative counts from the end, everything
    is clamped to [0, length]. *)
Definition clampIndex (len : nat) (i : Z) : nat :=
  if (i <? 0)%Z then Z.to_nat (Z.max 0 (Z.of_nat len + i))
  else Nat.min len (Z.to_nat i).

(** [s.slice(b)]. *)
Definition sliceFrom (s : jsstring) (b : Z) : jsstring :=
  drop (clampIndex (length s) b) s.

(** [s.slice(b, e)]. *)
Definition slice (s : jsstring) (b e : Z) : jsstring :=
  let from := clampIndex (length s) b in
  let to := clampIndex (length s) e in
  take (to - from) (drop from s).

(** [s.split(sep)] for a one-character separator. *)
Fixpoint split (sep : ascii) (s : jsstring) : list jsstring :=
  match s with
  | [] => [[]]
  | a :: s' =>
      if eqb a sep then [] :: split sep s'
      else match split sep s' with
           | [] => [[a]]
           | w :: ws => (a :: w) :: ws
           end
  end.

(** [arr.join(sep)]. *)
Fixpoint join (sep : jsstring) (arr : list jsstring) : jsstring :=
  match arr with
  | [] => []
  | [w] => w
  | w :: ws => w ++ sep ++ join sep ws
  end.

(** Canonicalize of the [i] flag (no [u] flag) on code units below 256:
    [toUpperCase] where the result is a single code unit of the same
    range class. *)
Definition canonicalize (a : ascii) : ascii :=
  let n := code a in
  if ((97 <=? n) && (n <=? 122))
     || ((224 <=? n) && (n <=? 254) && negb (n =? 247))
  then ascii_of_nat (n - 32) else a.

End JsString.

(* ===================================================================== *)
(** ** Regular expressions                                                *)
(* ===================================================================== *)

Module RegExp.
Import JsString.

(** The constructs the patterns of the source use.  No pattern of the
    source has a group inside a repetition, so the reset of such groups
    at each turn of a repetition is not modelled. *)
Inductive regex : Type :=
| Empty
| Char (p : ascii → bool)            (* a literal, a class or [.] *)
| Cat (r1 r2 : regex)
| Star (greedy : bool) (r : regex)   (* [r*] and [r*?] *)
| InputStart                         (* [^] without the [m] flag *)
| LineStart                          (* [^] under the [m] flag *)
| LineEnd                            (* [$] under the [m] flag *)
| Capture (n : nat) (r : regex)      (* the n-th parenthesis *)
| BackRef (n : nat).                 (* [\n] *)

(** Position in the subject: the code units before it (nearest first)
    and those after it. *)
Record cursor := Cursor { before : jsstring; after : jsstring }.

Definition index (x : cursor) : nat := length (before x).

Definition captures := list (nat * jsstring).

Fixpoint group (n : nat) (c : captures) : option jsstring :=
  match c with
  | [] => None
  | (m, w) :: c' => if n =? m then Some w else group n c'
  end.

Definition outcome := option (cursor * captures).
Definition cont := cursor → captures → outcome.

(** The code units consumed between [x] and a later cursor [y]. *)
Definition between (x y : cursor) : jsstring :=
  rev (take (index y - index x) (before y)).

Fixpoint advance (n : nat) (x : cursor) : cursor :=
  match n, after x with
  | S n', a :: rest => advance n' (Cursor (a :: before x) rest)
  | _, _ => x
  end.

(** RepeatMatcher, greedy: try one more iteration first; an iteration
    that consumes nothing is rejected. *)
Fixpoint repeat_greedy (body : cursor → captures → cont → outcome)
    (fuel : nat) (x : cursor) (c : captures) (k : cont) : outcome :=
  match fuel with
  | 0 => k x c
  | S fuel' =>
      match body x c (fun y c' =>
               if index x <? index y
               then repeat_greedy body fuel' y c' k else None) with
      | Some res => Some res
      | None => k x c
      end
  end.

(** RepeatMatcher, lazy: try the continuation first. *)
Fixpoint repeat_lazy (body : cursor → captures → cont → outcome)
    (fuel : nat) (x : cursor) (c : captures) (k : cont) : outcome :=
  match fuel with
  | 0 => k x c
  | S fuel' =>
      match k x c with
      | Some res => Some res
      | None =>
          body x c (fun y c' =>
            if index x <? index y
            then repeat_lazy body fuel' y c' k else None)
      end
  end.

Fixpoint matcher (r : regex) (x : cursor) (c : captures) (k : cont)
    {struct r} : outcome :=
  match r with
  | Empty => k x c
  | Char p =>
      match after x with
      | a :: rest => if p a then k (Cursor (a :: before x) rest) c else None
      | [] => None
      end
  | Cat r1 r2 => matcher r1 x c (fun y c' => matcher r2 y c' k)
  | Star true r1 =>
      repeat_greedy (matcher r1) (S (length (after x))) x c k
  | Star false r1 =>
      repeat_lazy (matcher r1) (S (length (after x))) x c k
  | InputStart =>
      match before x with
      | [] => k x c
      | _ :: _ => None
      end
  | LineStart =>
      match before x with
      | [] => k x c
      | a :: _ => if isLineTerminator a then k x c else None
      end
  | LineEnd =>
      match after x with
      | [] => k x c
      | a :: _ => if isLineTerminator a then k x c else None
      end
  | Capture n r1 =>
      matcher r1 x c (fun y c' => k y ((n, between x y) :: c'))
  | BackRef n =>
      match group n c with
      | None => k x c
      | Some w =>
          if startsWith (after x) w then k (advance (length w) x) c
          else None
      end
  end.

(** A successful match: where it starts, where it ends, its groups. *)
Record rmatch := RMatch {
  mindex : nat;
  mend : nat;
  mgroups : captures
}.

(** The continuation of a whole pattern. *)
Definition accept : cont := fun y c => Some (y, c).

(** Try the pattern at the cursor, then at every later position. *)
Fixpoint scan (r : regex) (bef aft : jsstring) : option rmatch :=
  match matcher r (Cursor bef aft) [] accept with
  | Some (y, c) => Some (RMatch (length bef) (index y) c)
  | None =>
      match aft with
      | [] => None
      | a :: aft' => scan r (a :: bef) aft'
      end
  end.

(** [regexp.exec(s)] of a regexp with the [g] flag whose [lastIndex] is
    [lastIndex]; the new [lastIndex] is [mend] of the match, or 0 when
    there is none. *)
Definition exec (r : regex) (s : jsstring) (lastIndex : nat)
    : option rmatch :=
  if length s <? lastIndex then None
  else scan r (rev (take lastIndex s)) (drop lastIndex s).

(** [regexp.test(s)] of a regexp without the [g] flag. *)
Definition test (r : regex) (s : jsstring) : bool :=
  match scan r [] s with Some _ => true | None => false end.

(** [s.search(regexp)]. *)
Definition search (r : regex) (s : jsstring) : Z :=
  match scan r [] s with
  | Some m => Z.of_nat (mindex m)
  | None => (-1)%Z
  end.

(** [while ((match = regexp.exec(s))) acc = body(acc, match)], started
    with the given [lastIndex].  [None] stands for a loop that never
    ends (a pattern matching the empty string keeps [lastIndex] where it
    is). *)
Fixpoint exec_loop {A : Type} (r : regex) (s : jsstring) (fuel : nat)
    (lastIndex : nat) (body : A → rmatch → A) (acc : A) : option A :=
  match fuel with
  | 0 => None
  | S fuel' =>
      match exec r s lastIndex with
      | None => Some acc
      | Some m => exec_loop r s fuel' (mend m) body (body acc m)
      end
  end.

(** Building blocks for transcribing patterns. *)
Definition lit (a : ascii) : regex := Char (eqb a).
Definition literal (s : jsstring) : regex :=
  fold_right (fun a r => Cat (lit a) r) Empty s.
(** A literal under the [i] flag. *)
Definition literal_i (s : jsstring) : regex :=
  fold_right
    (fun a r => Cat (Char (fun b => eqb (canonicalize b) (canonicalize a))) r)
    Empty s.
Definition plus (r : regex) : regex := Cat r (Star true r).
Definition dot : regex := Char (fun a => negb (isLineTerminator a)).
Definition anychar : regex := Char (fun _ => true).
Definition oneOf (s : jsstring) : regex :=
  Char (fun a => existsb (eqb a) s).
Definition noneOf (s : jsstring) : regex :=
  Char (fun a => negb (existsb (eqb a) s)).
Fixpoint cat (rs : list regex) : regex :=
  match rs with
  | [] => Empty
  | [r] => r
  | r :: rs' => Cat r (cat rs')
  end.

End RegExp.

(* ===================================================================== *)
(** ** Results of operations that can throw or loop                       *)
(* ===================================================================== *)

Inductive result (E A : Type) : Type :=
| Returns (a : A)
| Throws (e : E)
| Diverges.
Arguments Returns {E A} a.
Arguments Throws {E A} e.
Arguments Diverges {E A}.

(** A promise that has settled. *)
Inductive settled (A : Type) : Type :=
| Resolved (a : A)
| Rejected.
Arguments Resolved {A} a.
Arguments Rejected {A}.

(* ===================================================================== *)
(** ** Page.js                                                            *)
(* ===================================================================== *)

Module Page.
Import JsString RegExp.

Definition LF : ascii := ascii_of_nat 10.
Definition TAB : ascii := ascii_of_nat 9.
Definition SP : ascii := ascii_of_nat 32.

(** Modelled from the spec: [hideHtmlComments] of wikitext.js, which is
    not among the sources.  Every [<!-- ... -->] span is replaced by a
    placeholder of the same length (spaces here); an unterminated
    [<!--] hides the rest of the string; the code outside comment spans
    is left as it is. *)
Fixpoint hideFrom (inside : bool) (pending : nat) (s : jsstring)
    : jsstring :=
  match s with
  | [] => []
  | a :: s' =>
      match pending with
      | S n => SP :: hideFrom inside n s'
      | 0 =>
          if inside then
            if startsWith s (js "-->") then SP :: hideFrom false 2 s'
            else SP :: hideFrom true 0 s'
          else
            if startsWith s (js "<!--") then SP :: hideFrom true 3 s'
            else a :: hideFrom false 0 s'
      end
  end.

Definition hideHtmlComments_spec (code : jsstring) : jsstring :=
  hideFrom false 0 code.

(** The [sectionHeadingRegexp] of [analyzeNewTopicPlacement], flags
    [gm]: at a line start, [==], one code unit other than [=], a lazy
    run of [.], [==], a run of spaces and tabs, any number of
    [<!--], lazy run of any code units, [-->], run of spaces and tabs,
    and a line feed. *)
Definition sectionHeadingRegexp : regex :=
  cat [ LineStart; literal (js "=="); noneOf (js "=");
        Star false dot; literal (js "==");
        Star true (oneOf [SP; TAB]);
        Star true (cat [ literal (js "<!--"); Star false anychar;
                         literal (js "-->"); Star true (oneOf [SP; TAB]) ]);
        lit LF ].

(** The pattern of [modifyCode], flag [m]: at a line start, group 1 a
    greedy run of one or more [=], a lazy run of [.], and a back
    reference to group 1. *)
Definition firstSectionRegexp : regex :=
  cat [ LineStart; Capture 1 (plus (lit "="%char)); Star false dot;
        BackRef 1 ].

Record modification := Modification {
  newPageCode : jsstring;
  codeBeforeInsertion : jsstring;
  commentCode : jsstring
}.

Record Page := MkPage {
  name : jsstring;
  namespace : Z;
  code : option jsstring;
  areNewTopicsOnTop : option bool;
  firstSectionStartIndex : option nat
}.

Inductive error :=
| CdError_codeUndefined     (* "Can't analyze ...: Page#code is undefined." *)
| TypeError_nullIndex.      (* reading [index] of [null] *)

Section WithCollaborators.
(** [hideHtmlComments] and [findFirstTimestamp] of wikitext.js,
    [parseTimestamp] of timestamp.js (its [date], as a time value)
    and the site's [cd.config.areNewTopicsOnTop], which answers
    [true], [false] or [undefined] when it is present. *)
Variable hideHtmlComments : jsstring → jsstring.
Variable findFirstTimestamp : jsstring → option jsstring.
Variable parseTimestamp : jsstring → option Z.
Variable configAreNewTopicsOnTop :
  option (jsstring → jsstring → option bool).

(** [modifyCode(pageCode, { commentForm })], with the comment form's
    [commentTextToCode('submit').commentCode] and [isNewTopicOnTop]
    passed in. *)
Definition modifyCode (pageCode commentCode : jsstring)
    (isNewTopicOnTop : bool) : modification :=
  if isNewTopicOnTop then
    let adjustedPageCode := hideHtmlComments pageCode in
    let firstSectionStartIndex := search firstSectionRegexp adjustedPageCode in
    let codeBeforeInsertion := slice pageCode 0 firstSectionStartIndex in
    let codeAfterInsertion := sliceFrom pageCode firstSectionStartIndex in
    Modification
      (codeBeforeInsertion ++ commentCode ++ [LF] ++ codeAfterInsertion)
      codeBeforeInsertion commentCode
  else
    let codeBeforeInsertion := trimStart (pageCode ++ [LF]) in
    Modification (codeBeforeInsertion ++ commentCode)
      codeBeforeInsertion commentCode.

(** [const { date } = timestamp && parseTimestamp(timestamp) || {}] *)
Definition firstDate (code : jsstring) (m : rmatch) : option Z :=
  match findFirstTimestamp (sliceFrom code (Z.of_nat (mindex m))) with
  | Some (a :: t) => parseTimestamp (a :: t)
  | _ => None
  end.

(** One turn of the loop over the section headings: the state is
    [(previousDate, difference)]. *)
Definition tallyStep (code : jsstring) (st : option Z * Z) (m : rmatch)
    : option Z * Z :=
  let '(previousDate, difference) := st in
  match firstDate code m with
  | Some date =>
      (Some date,
       match previousDate with
       | Some previous =>
           (difference + (if (date >? previous)%Z then -1 else 1))%Z
       | None => difference
       end)
  | None => (previousDate, difference)
  end.

(** [if (cd.config.areNewTopicsOnTop) areNewTopicsOnTop =
    cd.config.areNewTopicsOnTop(this.name, this.code)] *)
Definition siteOverride (p : Page) (code : jsstring) : option bool :=
  match configAreNewTopicsOnTop with
  | Some f => f (name p) code
  | None => None
  end.

Definition analyzeNewTopicPlacement (p : Page) : result error Page :=
  match code p with
  | None => Throws CdError_codeUndefined
  | Some code =>
      let override := siteOverride p code in
      let adjustedCode := hideHtmlComments code in
      let first : result error (option nat) :=
        match override with
        | Some false => Returns None
        | _ =>
            match exec sectionHeadingRegexp adjustedCode 0 with
            | Some sectionHeadingMatch =>
                Returns (Some (mindex sectionHeadingMatch))
            | None => Throws TypeError_nullIndex
            end
        end in
      match first with
      | Throws e => Throws e
      | Diverges => Diverges
      | Returns firstSectionStartIndex =>
          match override with
          | Some b =>
              Returns (MkPage (name p) (namespace p) (Some code)
                         (Some b) firstSectionStartIndex)
          | None =>
              match exec_loop sectionHeadingRegexp adjustedCode
                      (S (length adjustedCode)) 0
                      (tallyStep code) (None, 0%Z) with
              | None => Diverges
              | Some (_, difference) =>
                  let onTop :=
                    if (difference =? 0)%Z
                    then (Z.rem (namespace p) 2 =? 0)%Z
                    else (difference >? 0)%Z in
                  Returns (MkPage (name p) (namespace p) (Some code)
                             (Some onTop) firstSectionStartIndex)
              end
          end
      end
  end.

End WithCollaborators.

(** *** The failure branch of [edit] *)

(** [apiData.error]: its [code] and [info], the [matches] of its
    [spamblacklist] member and the [description] of its [abusefilter]
    member ([None] when the member itself is missing). *)
Record apiError := ApiError {
  errorCode : jsstring;
  errorInfo : option jsstring;
  spamblacklistMatches : option (list jsstring);
  abusefilterDescription : option (option jsstring)
}.

(** The payload of the API: its [error] member, and the rest of it. *)
Record apiData := ApiData {
  apiDataError : option apiError;
  apiDataRest : jsstring
}.

(** What [postWithEditToken(...).catch(handleApiReject)] threw. *)
Inductive caught :=
| CdError (type : jsstring) (data : option apiData)
| NotCdError.

Inductive logPayload :=
| LogCodeAndData (code : jsstring) (data : apiData)   (* [[code, apiData]] *)
| LogData (data : option apiData).                    (* [apiData] *)

(** [details] of the error [edit] throws. *)
Record details := Details {
  detailsCode : option jsstring;
  message : option jsstring;
  isRawMessage : bool;
  logMessage : logPayload
}.

(** What leaves [edit] when the request failed. *)
Inductive failure :=
| Rethrown
| ApiFailure (d : details)
| TypeError_undefinedMember
| CollaboratorRejected.

(** The labels of the [switch (code)]. *)
Inductive editCase :=
| Spamblacklist | Titleblacklist | AbusefilterWarning
| AbusefilterDisallowed | Editconflict | Blocked | Missingtitle
| DefaultCase.

Definition recognizedCodes : list (jsstring * editCase) :=
  [ (js "spamblacklist", Spamblacklist);
    (js "titleblacklist", Titleblacklist);
    (js "abusefilter-warning", AbusefilterWarning);
    (js "abusefilter-disallowed", AbusefilterDisallowed);
    (js "editconflict", Editconflict);
    (js "blocked", Blocked);
    (js "missingtitle", Missingtitle) ].

Fixpoint switchOn (code : jsstring) (cases : list (jsstring * editCase))
    : editCase :=
  match cases with
  | [] => DefaultCase
  | (label, c) :: cases' =>
      if bool_decide (code = label) then c else switchOn code cases'
  end.

Section EditFailure.
(** [cd.s(name, ...params)], [mw.message(code, description).plain()],
    and the awaited collaborators [cd.g.api.loadMessagesIfMissing],
    [parseCode] (its [html]) and [unknownApiErrorText]. *)
Variable cd_s : jsstring → list (option jsstring) → jsstring.
Variable mwMessagePlain : jsstring → option jsstring → jsstring.
Variable loadMessagesIfMissing : jsstring → settled unit.
Variable parseCode : jsstring → settled (option jsstring).
Variable unknownApiErrorText :
  jsstring → option jsstring → settled jsstring.

(** The body of the [switch]: the message and [isRawMessage], or what
    is thrown instead. *)
Definition describe (error : apiError) : (jsstring * bool) + failure :=
  let code := errorCode error in
  match switchOn code recognizedCodes with
  | Spamblacklist =>
      match spamblacklistMatches error with
      | None => inr TypeError_undefinedMember
      | Some matches =>
          inl (cd_s (js "error-spamblacklist") [matches !! 0], false)
      end
  | Titleblacklist => inl (cd_s (js "error-titleblacklist") [], false)
  | AbusefilterWarning | AbusefilterDisallowed =>
      match loadMessagesIfMissing code with
      | Rejected => inr CollaboratorRejected
      | Resolved _ =>
          match abusefilterDescription error with
          | None => inr TypeError_undefinedMember
          | Some filterDescription =>
              let description := mwMessagePlain code filterDescription in
              match parseCode description with
              | Rejected => inr CollaboratorRejected
              | Resolved (Some (a :: html)) => inl (a :: html, true)
              | Resolved _ =>
                  inl (cd_s (js "error-abusefilter") [filterDescription],
                       false)
              end
          end
      end
  | Editconflict => inl (cd_s (js "error-editconflict") [], false)
  | Blocked => inl (cd_s (js "error-blocked") [], false)
  | Missingtitle => inl (cd_s (js "error-pagedeleted") [], false)
  | DefaultCase =>
      match unknownApiErrorText code (errorInfo error) with
      | Rejected => inr CollaboratorRejected
      | Resolved text =>
          inl (cd_s (js "error-pagenotedited") [] ++ js " " ++ text, false)
      end
  end.

(** The [catch (e)] block of [edit]. *)
Definition editCatch (e : caught) : failure :=
  match e with
  | NotCdError => Rethrown
  | CdError type data =>
      if bool_decide (type = js "network") then Rethrown
      else
        match data with
        | Some (ApiData (Some error) rest) =>
            match describe error with
            | inl (msg, raw) =>
                ApiFailure
                  (Details (Some (errorCode error)) (Some msg) raw
                     (LogCodeAndData (errorCode error)
                        (ApiData (Some error) rest)))
            | inr thrown => thrown
            end
        | _ => ApiFailure (Details None None false (LogData data))
        end
  end.

End EditFailure.

End Page.

(* ===================================================================== *)
(** ** Autocomplete.js                                                    *)
(* ===================================================================== *)

Module Autocomplete.
Import JsString RegExp.

(** [Array.prototype.sort(compare)]: a stable sort, as ECMAScript 2019
    requires; [sortInsert] puts an element in front of an already sorted
    tail, behind the elements that must precede it. *)
Fixpoint sortInsert {A : Type} (compare : A → A → Z) (x : A) (l : list A)
    : list A :=
  match l with
  | [] => [x]
  | y :: l' =>
      if (compare x y >? 0)%Z then y :: sortInsert compare x l'
      else x :: y :: l'
  end.

Fixpoint sort {A : Type} (compare : A → A → Z) (l : list A) : list A :=
  match l with
  | [] => []
  | x :: l' => sortInsert compare x (sort compare l')
  end.

(** [new RegExp(mw.util.escapeRegExp(text), 'i')] *)
Definition containsRegexp (text : jsstring) : regex := literal_i text.

(** [new RegExp('^' + mw.util.escapeRegExp(text), 'i')] *)
Definition startsWithRegexp (text : jsstring) : regex :=
  Cat InputStart (literal_i text).

Definition compareStartsWith (text item1 item2 : jsstring) : Z :=
  let item1StartsWith := test (startsWithRegexp text) item1 in
  let item2StartsWith := test (startsWithRegexp text) item2 in
  if item1StartsWith && negb item2StartsWith then (-1)%Z
  else if item2StartsWith && negb item1StartsWith then 1%Z
  else 0%Z.

(** [Autocomplete.search(text, list)] *)
Definition search (text : jsstring) (items : list jsstring)
    : list jsstring :=
  sort (compareStartsWith text)
    (filter (fun item => test (containsRegexp text) item = true) items).

(** An array of names that can have holes: [None] is an empty slot. *)
Abbreviation names := (list (option jsstring)).

(** [values[9] = v]: the array grows to ten slots when it is shorter. *)
Definition setTenth (values : names) (v : jsstring) : names :=
  if length values <? 10
  then values ++ replicate (9 - length values) None ++ [Some v]
  else <[9 := Some v]> values.

(** The state kept on [this.mentions], [this.wikilinks] and
    [this.templates]: [snapshot] is [undefined] until the first query;
    [byText] holds the own properties of the memo object. *)
Record channel := Channel {
  snapshot : option jsstring;
  cache : list jsstring;
  byText : gmap jsstring names
}.

(** Names every object inherits from [Object.prototype]: reading them
    from [byText] gives a truthy member although nothing was stored. *)
Definition objectPrototypeNames : list jsstring :=
  map js [ "constructor"; "hasOwnProperty"; "isPrototypeOf";
           "propertyIsEnumerable"; "toLocaleString"; "toString";
           "valueOf"; "__proto__"; "__defineGetter__";
           "__defineSetter__"; "__lookupGetter__"; "__lookupSetter__" ]%string.

Inductive member :=
| Own (values : names)
| Inherited
| Missing.

(** [this.mentions.byText[text]] *)
Definition readByText (ch : channel) (text : jsstring) : member :=
  match byText ch !! text with
  | Some values => Own values
  | None =>
      if bool_decide (text ∈ objectPrototypeNames) then Inherited
      else Missing
  end.

(** An entry of the menu. *)
Record suggestion := Suggestion {
  key : jsstring;
  value : jsstring;
  endOffset : nat
}.

(** What one call of [values(text, callback)] did before it returned or
    reached its [await]: the arguments of its [callback] calls, the text
    handed to the remote lookup if one was started, and whether
    [byText[text]] read an inherited member (then [prepareValues] is
    run on that member, which is outside this model, and the lookup is
    not started). *)
Record reaction := Reaction {
  delivered : list (list suggestion);
  request : option jsstring;
  inheritedMember : bool
}.

Inductive kind := Mentions | Wikilinks | Templates.

(** The opening marker inside the text that makes a channel answer
    with nothing: [text.includes('[[')], and [text.includes('{{')] for
    templates. *)
Definition marker (k : kind) : jsstring :=
  match k with Templates => js "{{" | _ => js "[[" end.

Definition countSpaces (text : jsstring) : nat :=
  length (filter (fun a => a = " "%char) text).

Definition hasOneOf (chars text : jsstring) : bool :=
  test (oneOf chars) text.

Section WithCollaborators.
(** [removeDuplicates] of util.js; [mw.config]'s name of namespace 2;
    the test of the regexp the wikilinks transform builds from the
    names of namespaces 6 and 14; the test of
    [cd.g.COLON_NAMESPACES_PREFIX_REGEXP]; [cd.g.CURRENT_USER_NAME];
    the default user names the mentions channel was created with. *)
Variable removeDuplicates : names → names.
Variable userNamespace : jsstring.
Variable colonNamespacesRegexp : jsstring → bool.
Variable colonNamespacesPrefixRegexp : jsstring → bool.
Variable currentUserName : jsstring.
Variable defaultUserNames : list jsstring.

Definition transform (k : kind) (name : jsstring) : jsstring :=
  let name := trim name in
  match k with
  | Mentions =>
      js "@[[" ++ userNamespace ++ js ":" ++ name ++ js "|" ++ name
        ++ js "]]"
  | Wikilinks =>
      let name := if colonNamespacesRegexp name then js ":" ++ name
                  else name in
      js "[[" ++ name ++ js "]]"
  | Templates => js "{{" ++ name ++ js "}}"
  end.

Definition getEndOffset (k : kind) : nat :=
  match k with Templates => 2 | _ => 0 end.

(** [prepareValues(arr, config)]; [filter(defined)] of util.js drops
    the slots that are [undefined]. *)
Definition prepareValues (k : kind) (arr : names) : list suggestion :=
  map (fun item => Suggestion item (transform k item) (getEndOffset k))
    (omap id (removeDuplicates arr)).

(** [removeSelf] of the mentions configuration. *)
Definition removeSelf (arr : list jsstring) : list jsstring :=
  filter (fun name => name ≠ currentUserName) arr.

(** [config.default] of the mentions configuration. *)
Definition mentionsDefault : list jsstring := removeSelf defaultUserNames.

(** [text.startsWith(snapshot)]: an [undefined] argument is converted
    to the string "undefined". *)
Definition startsWithSnapshot (text : jsstring) (ch : channel) : bool :=
  startsWith text
    (match snapshot ch with Some s => s | None => js "undefined" end).

Definition nonEmpty (text : jsstring) : bool :=
  match text with [] => false | _ :: _ => true end.

Definition isLikelyName (k : kind) (text : jsstring) : bool :=
  match k with
  | Mentions =>
      nonEmpty text && (length text <=? 85)
      && negb (hasOneOf (js "#<>[]|{}/@:") text)
      && (countSpaces text <=? 4)
  | Wikilinks =>
      nonEmpty text && (length text <=? 255)
      && negb (hasOneOf (js "#<>[]|{}") text)
      && (negb (test (Cat InputStart (lit ":"%char)) text)
          || colonNamespacesPrefixRegexp text)
      && (countSpaces text <=? 9)
  | Templates =>
      nonEmpty text && (length text <=? 255)
      && negb (hasOneOf (js "#<>[]|{}") text)
      && (countSpaces text <=? 9)
  end.

Definition silent : reaction := Reaction [] None false.

(** The part of [values] shared by the three channels, after the
    snapshot has been set: the early exit on an opening marker, the
    memo, the local pass and the decision to start a lookup. *)
Definition respond (k : kind) (ch : channel) (text : jsstring)
    : reaction :=
  if includes text (marker k) then Reaction [[]] None false
  else
    match readByText ch text with
    | Own values => Reaction [prepareValues k values] None false
    | Inherited => Reaction [] None true
    | Missing =>
        let likely := isLikelyName k text in
        match k with
        | Mentions =>
            let matches := search text mentionsDefault in
            let values :=
              if likely then
                setTenth
                  (Some <$> search text
                     (matches ++
                        if length matches =? 0 then cache ch else []))
                  (trim text)
              else Some <$> matches in
            Reaction [prepareValues k values]
              (if likely && (length matches =? 0)
               then Some text else None) false
        | _ =>
            let values :=
              if likely
              then setTenth (Some <$> search text (cache ch)) (trim text)
              else [] in
            Reaction [prepareValues k values]
              (if likely then Some text else None) false
        end
    end.

(** [values(text, callback)] up to its [await] or return. *)
Definition values (k : kind) (ch : channel) (text : jsstring)
    : channel * reaction :=
  match k with
  | Mentions =>
      if nonEmpty text && bool_decide (snapshot ch = Some text)
      then (ch, silent)
      else
        let ch1 :=
          if startsWithSnapshot text ch then ch
          else Channel (snapshot ch) [] (byText ch) in
        let ch2 := Channel (Some text) (cache ch1) (byText ch1) in
        (ch2, respond k ch2 text)
  | Wikilinks =>
      let text := if colonNamespacesPrefixRegexp text
                  then sliceFrom text 1 else text in
      let ch1 :=
        if startsWithSnapshot text ch then ch
        else Channel (snapshot ch) [] (byText ch) in
      let ch2 := Channel (Some text) (cache ch1) (byText ch1) in
      (ch2, respond k ch2 text)
  | Templates =>
      let ch1 :=
        if startsWithSnapshot text ch then ch
        else Channel (snapshot ch) [] (byText ch) in
      let ch2 := Channel (Some text) (cache ch1) (byText ch1) in
      (ch2, respond k ch2 text)
  end.

(** The rest of [values] after its [await]: the remote lookup started
    for [text] has settled.  The result is the new state and the
    arguments of the [callback] calls made. *)
Definition resume (k : kind) (ch : channel) (text : jsstring)
    (answer : settled (list jsstring))
    : channel * list (list suggestion) :=
  match answer with
  | Rejected => (ch, [])
  | Resolved values =>
      let values :=
        match k with Mentions => removeSelf values | _ => values end in
      let ch1 := Channel (snapshot ch) values (byText ch) in
      let values := setTenth (Some <$> values) (trim text) in
      let ch2 :=
        Channel (snapshot ch1) (cache ch1) (<[text := values]> (byText ch1)) in
      if bool_decide (snapshot ch2 = Some text)
      then (ch2, [prepareValues k values])
      else (ch2, [])
  end.

(** A channel in the browser: its state, the lookups in flight, every
    call made to the remote collaborator so far, and every callback
    call so far with the text it answers and whether it came from
    the lookup. *)
Record world := World {
  chan : channel;
  pending : list jsstring;
  lookups : list jsstring;
  shown : list (bool * jsstring * list suggestion)
}.

Inductive event :=
| Query (text : jsstring)
| Settle (text : jsstring) (answer : settled (list jsstring)).

Fixpoint removeFirst (text : jsstring) (l : list jsstring)
    : list jsstring :=
  match l with
  | [] => []
  | t :: l' => if bool_decide (t = text) then l' else t :: removeFirst text l'
  end.

Definition step (k : kind) (w : world) (e : event) : world :=
  match e with
  | Query text =>
      let '(ch, r) := values k (chan w) text in
      World ch
        (pending w ++ match request r with Some t => [t] | None => [] end)
        (lookups w ++ match request r with Some t => [t] | None => [] end)
        (shown w ++ map (fun d => (false, text, d)) (delivered r))
  | Settle text answer =>
      if bool_decide (text ∈ pending w) then
        let '(ch, ds) := resume k (chan w) text answer in
        World ch (removeFirst text (pending w)) (lookups w)
          (shown w ++ map (fun d => (true, text, d)) ds)
      else w
  end.

Definition run (k : kind) (w : world) (es : list event) : world :=
  fold_left (step k) es w.

(** The channel as [getMentionsConfig], [getWikilinksConfig] and
    [getTemplatesConfig] create it. *)
Definition newChannel : channel := Channel None [] ∅.
Definition newWorld : world := World newChannel [] [] [].

End WithCollaborators.

End Autocomplete.

(* ===================================================================== *)
(** ** options.js                                                         *)
(* ===================================================================== *)

Module Options.
Import JsString RegExp.

(** The visits object: page identifiers to lists of visit times. *)
Abbreviation visitsObject := (gmap jsstring (list jsstring)).

(** The pattern of [unpackVisits], flags [gm]: at a line start, group 1
    a run of one or more digits, a comma, a run of spaces, group 2 a run
    of one or more [.], at a line end. *)
Definition visitsRegexp : regex :=
  cat [ LineStart; Capture 1 (plus (Char isDigit)); lit ","%char;
        Star true (lit " "%char); Capture 2 (plus dot); LineEnd ].

(** [match[n]] *)
Definition matched (n : nat) (m : rmatch) : jsstring :=
  default [] (group n (mgroups m)).

(** [unpackVisits(visitsString)]; [None] stands for a loop that does
    not end. *)
Definition unpackVisits (visitsString : jsstring) : option visitsObject :=
  exec_loop visitsRegexp visitsString (S (length visitsString)) 0
    (fun (visits : visitsObject) m =>
       <[matched 1 m := split ","%char (matched 2 m)]> visits)
    ∅.

Section WithObjectKeys.
(** [Object.keys]: the own keys of the object, in the order the
    engine enumerates them. *)
Variable Object_keys : visitsObject → list jsstring.


End WithObjectKeys.

End Options.

(* ===================================================================== *)
(** ** What a successful match consumed                                   *)
(* ===================================================================== *)

Module RegExpSemantics.
Import JsString RegExp.

Definition atLineStart (x : cursor) : Prop :=
  match before x with
  | [] => True
  | a :: _ => isLineTerminator a = true
  end.

Definition atLineEnd (x : cursor) : Prop :=
  match after x with
  | [] => True
  | a :: _ => isLineTerminator a = true
  end.

(** [matches r x c y c']: the pattern [r] can take the matcher from
    cursor [x] with groups [c] to cursor [y] with groups [c']. *)
Inductive matches : regex → cursor → captures → cursor → captures → Prop :=
| MEmpty x c : matches Empty x c x c
| MChar p a bef aft c :
    p a = true →
    matches (Char p) (Cursor bef (a :: aft)) c (Cursor (a :: bef) aft) c
| MCat r1 r2 x c y c' z c'' :
    matches r1 x c y c' → matches r2 y c' z c'' →
    matches (Cat r1 r2) x c z c''
| MStarStop g r x c : matches (Star g r) x c x c
| MStarMore g r x c y c' z c'' :
    matches r x c y c' → index x < index y →
    matches (Star g r) y c' z c'' →
    matches (Star g r) x c z c''
| MInputStart x c : before x = [] → matches InputStart x c x c
| MLineStart x c : atLineStart x → matches LineStart x c x c
| MLineEnd x c : atLineEnd x → matches LineEnd x c x c
| MCapture n r x c y c' :
    matches r x c y c' →
    matches (Capture n r) x c y ((n, between x y) :: c')
| MBackRefUnset n x c :
    group n c = None → matches (BackRef n) x c x c
| MBackRef n w x c :
    group n c = Some w → startsWith (after x) w = true →
    matches (BackRef n) x c (advance (length w) x) c.

(** The subject is the consumed part, reversed back, followed by the
    rest. *)
Definition subject (x : cursor) : jsstring := rev (before x) ++ after x.

(** Patterns every match of which consumes at least one code unit. *)
Fixpoint consumes (r : regex) : bool :=
  match r with
  | Char _ => true
  | Cat r1 r2 => consumes r1 || consumes r2
  | Capture _ r1 => consumes r1
  | _ => false
  end.

(** Every match the loop [while ((match = regexp.exec(s)))] sees, in
    order; [None] when the loop does not end within [fuel] turns. *)
Fixpoint execAll (r : regex) (s : jsstring) (fuel : nat) (lastIndex : nat)
    : option (list rmatch) :=
  match fuel with
  | 0 => None
  | S fuel' =>
      match exec r s lastIndex with
      | None => Some []
      | Some m => cons m <$> execAll r s fuel' (mend m)
      end
  end.

(** The pattern matches with the cursor at [x]. *)
Definition matchesAt (r : regex) (x : cursor) : bool :=
  match matcher r x [] accept with Some _ => true | None => false end.

End RegExpSemantics.

(* ===================================================================== *)
(** ** Reference notions for Page.js                                      *)
(* ===================================================================== *)

Module PageSpec.
Import JsString RegExp RegExpSemantics Page.

(** Whether new topics go on top, given the namespace and a tally. *)
Definition placement (namespace tally : Z) : bool :=
  if (tally =? 0)%Z then Z.even namespace else (0 <? tally)%Z.

(** The tally over a sequence of dates, each compared with the one
    before it: one down when the later date is newer, one up
    otherwise. *)
Fixpoint tally (dates : list Z) : Z :=
  match dates with
  | previous :: rest =>
      match rest with
      | date :: _ =>
          ((if (date >? previous)%Z then -1 else 1) + tally rest)%Z
      | [] => 0%Z
      end
  | [] => 0%Z
  end.

(** The tally in the words of the specification: over consecutive
    sections, one up when the upper section is newer, one down when it
    is older, nothing when one of the two has no date. *)
Definition pairScore (upper lower : option Z) : Z :=
  match upper, lower with
  | Some u, Some l =>
      if (u >? l)%Z then 1%Z else if (u <? l)%Z then (-1)%Z else 0%Z
  | _, _ => 0%Z
  end.

Fixpoint sectionTally (dates : list (option Z)) : Z :=
  match dates with
  | upper :: rest =>
      match rest with
      | lower :: _ => (pairScore upper lower + sectionTally rest)%Z
      | [] => 0%Z
      end
  | [] => 0%Z
  end.

(** The placement in the words of the specification, for a page whose
    code is [code]: the headings are the matches of
    [sectionHeadingRegexp] in the comment-hidden code. *)
Definition specifiedPlacement (hideHtmlComments : jsstring → jsstring)
    (findFirstTimestamp : jsstring → option jsstring)
    (parseTimestamp : jsstring → option Z)
    (namespace : Z) (code : jsstring) : option bool :=
  let adjustedCode := hideHtmlComments code in
  headings ← execAll sectionHeadingRegexp adjustedCode
               (S (length adjustedCode)) 0;
  Some (placement namespace
          (sectionTally
             (map (firstDate findFirstTimestamp parseTimestamp code)
                headings))).

(** The new page code in the words of the specification for top
    placement: split at the first match of [sectionHeadingRegexp] in
    the comment-hidden code. *)
Definition specifiedTopCode (hideHtmlComments : jsstring → jsstring)
    (pageCode commentCode : jsstring) : option jsstring :=
  m ← exec sectionHeadingRegexp (hideHtmlComments pageCode) 0;
  Some (take (mindex m) pageCode ++ commentCode ++ [LF]
          ++ drop (mindex m) pageCode).

(** The new page code in the words of the specification for bottom
    placement: leading whitespace removed, exactly one trailing
    newline, then the comment. *)
Fixpoint dropLeadingNewlines (s : jsstring) : jsstring :=
  match s with
  | a :: s' => if eqb a LF then dropLeadingNewlines s' else s
  | [] => []
  end.

Definition dropTrailingNewlines (s : jsstring) : jsstring :=
  rev (dropLeadingNewlines (rev s)).

Definition specifiedBottomCode (pageCode commentCode : jsstring)
    : jsstring :=
  dropTrailingNewlines (trimStart pageCode) ++ [LF] ++ commentCode.

(** The cursor of a subject at an index. *)
Definition cursorAt (s : jsstring) (i : nat) : cursor :=
  Cursor (rev (take i s)) (drop i s).

(** Whether the rest of the line holds the code unit [a]. *)
Fixpoint sameLineHas (a : ascii) (s : jsstring) : bool :=
  match s with
  | [] => false
  | b :: s' =>
      if isLineTerminator b then false else eqb b a || sameLineHas a s'
  end.

(** A line that starts with [=] and has another [=] further on. *)
Definition startsHeadingLike (x : cursor) : bool :=
  match before x with
  | [] => true
  | a :: _ => isLineTerminator a
  end
  && match after x with
     | a :: rest => eqb a "="%char && sameLineHas "="%char rest
     | [] => false
     end.

End PageSpec.

(** Stand-ins for the timestamp collaborators, for running the code on
    sample pages: a timestamp is written [@] followed by a word, and it
    parses when the word is a decimal number. *)
Module Sample.
Import JsString.

Fixpoint word (s : jsstring) : jsstring :=
  match s with
  | [] => []
  | a :: s' => if isWhiteSpace a then [] else a :: word s'
  end.

Fixpoint findFirstTimestamp (s : jsstring) : option jsstring :=
  match s with
  | [] => None
  | a :: s' => if eqb a "@"%char then Some (word s') else findFirstTimestamp s'
  end.

Fixpoint number (acc : Z) (s : jsstring) : option Z :=
  match s with
  | [] => Some acc
  | a :: s' =>
      if isDigit a then number (10 * acc + Z.of_nat (code a - 48))%Z s'
      else None
  end.

Definition parseTimestamp (t : jsstring) : option Z := number 0 t.

Definition lines (ls : list string) : jsstring :=
  concat (map (fun l => js l ++ [Page.LF]) ls).

End Sample.

(* ===================================================================== *)
(** ** Reference notions for Autocomplete.js                              *)
(* ===================================================================== *)

Module AutocompleteSpec.
Import JsString Autocomplete.

(** [item] starts with [text], letter case aside. *)
Fixpoint isPrefixCI (text item : jsstring) {struct text} : bool :=
  match text, item with
  | [], _ => true
  | b :: text', a :: item' =>
      eqb (canonicalize a) (canonicalize b) && isPrefixCI text' item'
  | _ :: _, [] => false
  end.

(** [item] contains [text], letter case aside. *)
Fixpoint isInfixCI (text item : jsstring) {struct item} : bool :=
  isPrefixCI text item ||
  match item with
  | [] => false
  | _ :: item' => isInfixCI text item'
  end.





(** The text a channel works with: the wikilinks channel drops the
    leading colon of a colon namespace prefix. *)
Definition normalize (colonNamespacesPrefixRegexp : jsstring → bool)
    (k : kind) (text : jsstring) : jsstring :=
  match k with
  | Wikilinks =>
      if colonNamespacesPrefixRegexp text then sliceFrom text 1 else text
  | _ => text
  end.

(** How many times the remote collaborator was called with [text]. *)
Definition calls (text : jsstring) (lookups : list jsstring) : nat :=
  length (filter (λ t, t = text) lookups).

(** The duplicate guard of the mentions channel. *)
Definition suppressed (k : kind) (ch : channel) (text : jsstring) : bool :=
  match k with
  | Mentions => bool_decide (snapshot ch = Some text)
  | _ => false
  end.

(** What a lookup's result becomes in the cache: the mentions channel
    takes the current user out. *)
Definition stored (currentUserName : jsstring) (k : kind)
    (values : list jsstring) : list jsstring :=
  match k with
  | Mentions => removeSelf currentUserName values
  | _ => values
  end.

End AutocompleteSpec.

(* ===================================================================== *)
(** ** Reference notions for options.js                                   *)
(* ===================================================================== *)

Module OptionsSpec.
Import JsString Options.

(** A non-empty string of decimal digits. *)
Definition isKey (key : jsstring) : bool :=
  match key with [] => false | _ :: _ => forallb isDigit key end.










Abbreviation entry := (jsstring * list jsstring)%type.





End OptionsSpec.

(* ===================================================================== *)
(** ** Page.js: [getCode]                                                 *)
(* ===================================================================== *)

Module PageLoad.
Import JsString Page.

(** The parts of the answer of the revisions query that [getCode]
    reads: [resp.query.pages[0]] with its [missing] and [invalid] marks
    and its [revisions], [resp.query.redirects[0].to] and
    [resp.curtimestamp]. *)
Record revision := Revision {
  content : jsstring;
  revid : nat
}.

Record pageEntry := PageEntry {
  pageid : nat;
  missing : bool;
  invalid : bool;
  revisions : option (list revision)
}.

Record redirect := Redirect { to : option jsstring }.

Record apiQuery := ApiQuery {
  pages : option (list pageEntry);
  redirects : option (list redirect)
}.

Record response := Response {
  query : option apiQuery;
  curtimestamp : option jsstring
}.

(** The codes of the errors [getCode] throws; [RequestRejected] stands
    for whatever the awaited request, with its
    [catch(handleApiReject)], rejected with. *)
Inductive loadError :=
| NoData
| Missing
| Invalid
| RequestRejected.

(** The properties [getCode] assigns beside [code]. *)
Record revisionData := RevisionData {
  pageId : nat;
  revisionId : nat;
  redirectTarget : option jsstring;
  realName : jsstring;
  queryTimestamp : option jsstring
}.

Inductive getCodeOutcome :=
| ReturnedEmptyCode               (* [return { code: '' }], nothing assigned *)
| Assigned (p : Page) (data : revisionData)
| Failed (e : loadError).

(** [a || b] on strings: the empty string is falsy. *)
Definition orElse (a : option jsstring) (b : jsstring) : jsstring :=
  match a with
  | Some (c :: s) => c :: s
  | _ => b
  end.

(** [getCode()], given [mw.config.get('wgArticleId')] and what the
    awaited request, with its [catch(handleApiReject)], settled to. *)
Definition getCode (wgArticleId : nat) (request : settled response)
    (this : Page) : getCodeOutcome :=
  if wgArticleId =? 0 then ReturnedEmptyCode
  else
    match request with
    | Rejected => Failed RequestRejected
    | Resolved resp =>
        let page :=
          q ← query resp; ps ← pages q; ps !! 0 in
        let revision :=
          pg ← page; rs ← revisions pg; rs !! 0 in
        match query resp, page with
        | Some q, Some pg =>
            if missing pg then Failed Missing
            else if invalid pg then Failed Invalid
            else
              match revision with
              | None => Failed NoData
              | Some rev =>
                  let redirectTarget :=
                    rds ← redirects q; rd ← rds !! 0; to rd in
                  Assigned
                    (MkPage (name this) (namespace this)
                       (Some (content rev ++ [LF]))
                       (areNewTopicsOnTop this)
                       (firstSectionStartIndex this))
                    (RevisionData (pageid pg) (revid rev) redirectTarget
                       (orElse redirectTarget (name this))
                       (curtimestamp resp))
              end
        | _, _ => Failed NoData
        end
    end.

(** The page instance after the call: only a successful call assigns
    to it. *)
Definition pageAfter (this : Page) (o : getCodeOutcome) : Page :=
  match o with
  | Assigned p _ => p
  | _ => this
  end.

End PageLoad.

(* ===================================================================== *)
(** ** Reference notions for the loops and the placement                  *)
(* ===================================================================== *)

Module LoopSpec.
Import JsString RegExp RegExpSemantics.

(** The matches [ms] found from [lastIndex] on are the leftmost ones,
    one after the other: each starts at the first position from the end
    of the one before where the pattern matches, and nothing matches
    from the end of the last one on. *)
Fixpoint leftmostFrom (r : regex) (s : jsstring) (lastIndex : nat)
    (ms : list rmatch) : Prop :=
  match ms with
  | [] =>
      ∀ j, lastIndex ≤ j ≤ length s →
           matchesAt r (PageSpec.cursorAt s j) = false
  | m :: ms' =>
      lastIndex ≤ mindex m ∧ mindex m < mend m ∧ mend m ≤ length s
      ∧ matchesAt r (PageSpec.cursorAt s (mindex m)) = true
      ∧ (∀ j, lastIndex ≤ j < mindex m →
              matchesAt r (PageSpec.cursorAt s j) = false)
      ∧ leftmostFrom r s (mend m) ms'
  end.

(** Each date compared with the one before it. *)
Fixpoint chain (rel : Z → Z → bool) (dates : list Z) : bool :=
  match dates with
  | previous :: rest =>
      match rest with
      | date :: _ => rel previous date && chain rel rest
      | [] => true
      end
  | [] => true
  end.

(** [areNewTopicsOnTop] of what [analyzeNewTopicPlacement] returned. *)
Definition placed (r : result Page.error Page.Page) : option bool :=
  match r with
  | Returns p => Page.areNewTopicsOnTop p
  | _ => None
  end.

End LoopSpec.

(* ===================================================================== *)
(** ** Autocomplete.js: [removeSelf] as written, and the tags             *)
(* ===================================================================== *)

Module AutocompleteLoop.
Import JsString Autocomplete.

(** [removeSelf] of the mentions configuration as the source writes
    it: while the array includes the current user's name, the first
    occurrence is spliced out.  [None] stands for a loop that has not
    ended within [fuel] turns. *)
Fixpoint removeSelfLoop (currentUserName : jsstring) (fuel : nat)
    (arr : list jsstring) : option (list jsstring) :=
  match fuel with
  | 0 => None
  | S fuel' =>
      if bool_decide (currentUserName ∈ arr)
      then removeSelfLoop currentUserName fuel'
             (removeFirst currentUserName arr)
      else Some arr
  end.

(** The text of the last query among the events, as the channel
    normalizes it. *)
Definition lastQuery (colonNamespacesPrefixRegexp : jsstring → bool)
    (k : kind) (es : list event) : option jsstring :=
  fold_left
    (λ acc e,
       match e with
       | Query text =>
           Some (AutocompleteSpec.normalize colonNamespacesPrefixRegexp k text)
       | Settle _ _ => acc
       end)
    es None.

(** The memo of a channel holds nothing but what resolved lookups for
    the same text brought, with the trimmed text in the tenth slot. *)
Definition fromLookups (currentUserName : jsstring) (k : kind)
    (es : list event) (memo : gmap jsstring names) : Prop :=
  map_Forall
    (λ text saved,
       ∃ found,
         Settle text (Resolved found) ∈ es
         ∧ saved
           = setTenth (Some <$> AutocompleteSpec.stored currentUserName k found)
               (trim text))
    memo.

End AutocompleteLoop.

(** The order of strings and the default order of [sort]. *)
Module JsCompare.
Import JsString.

(** [s < t] on strings: the order of the code units. *)
Fixpoint ltb (s t : jsstring) : bool :=
  match s, t with
  | [], [] => false
  | [], _ :: _ => true
  | _ :: _, [] => false
  | a :: s', b :: t' =>
      (code a <? code b) || ((code a =? code b) && ltb s' t')
  end.

(** SortCompare of [sort()] called without a comparison function, on
    elements that [toString] converts to strings. *)
Definition sortCompare {A : Type} (toString : A → jsstring) (x y : A) : Z :=
  if ltb (toString x) (toString y) then (-1)%Z
  else if ltb (toString y) (toString x) then 1%Z
  else 0%Z.

(** No element is above a later one. *)
Definition ascending {A : Type} (toString : A → jsstring) (l : list A)
    : Prop :=
  ∀ i j x y, i < j → l !! i = Some x → l !! j = Some y →
             ltb (toString y) (toString x) = false.

End JsCompare.

Module Tags.
Import JsString RegExp Autocomplete JsCompare.

(** An element of [config.default]: a string, or an array of a string
    to display and a string to insert. *)
Inductive item :=
| Tag (name : jsstring)
| Pair (display insert : jsstring).

Definition tag (s : string) : item := Tag (js s).
Definition pair (display insert : string) : item :=
  Pair (js display) (js insert).

(** The quotation mark, for the literals that hold one. *)
Definition quote : jsstring := [ascii_of_nat 34].

(** [config.default] as the literal lists it. *)
Definition listed : list item :=
  [ tag "abbr"; tag "b"; tag "bdi"; tag "bdo"; tag "blockquote";
    pair "br" "<br>"; tag "caption"; tag "cite"; tag "code";
    pair "codenowiki" "<code><nowiki>+</nowiki></code>";
    tag "data"; tag "dd"; tag "del"; tag "dfn"; tag "div"; tag "dl";
    tag "dt"; tag "em"; tag "h1"; tag "h2"; tag "h3"; tag "h4"; tag "h5";
    tag "h6"; pair "hr" "<hr>"; tag "i"; tag "ins"; tag "kbd"; tag "li";
    tag "link"; tag "mark"; tag "meta"; tag "ol"; tag "p"; tag "pre";
    tag "q"; tag "rp"; tag "rt"; tag "rtc"; tag "ruby"; tag "s";
    tag "samp"; tag "small"; tag "span"; tag "strong"; tag "sub";
    tag "sup"; tag "table"; tag "td"; tag "th"; tag "time"; tag "tr";
    tag "u"; tag "ul"; tag "var"; pair "wbr" "<wbr>";
    tag "gallery"; tag "includeonly"; tag "noinclude"; tag "nowiki";
    tag "onlyinclude"; tag "categorytree"; tag "charinsert"; tag "chem";
    tag "ce"; tag "graph"; tag "hiero"; tag "imagemap"; tag "indicator";
    tag "inputbox"; tag "mapframe"; tag "maplink"; tag "math";
    tag "math chem"; tag "poem"; tag "ref";
    pair "references" "<references />"; tag "score"; tag "section";
    tag "syntaxhighlight";
    Pair (js "syntaxhighlight lang=" ++ quote ++ quote)
      (js "<syntaxhighlight lang=" ++ quote ++ js "+" ++ quote
         ++ js "></syntaxhighlight>");
    tag "templatedata";
    Pair (js "templatestyles")
      (js "<templatestyles src=" ++ quote ++ js "+" ++ quote ++ js " />");
    tag "timeline" ].

(** ToString of an element: an array gives its elements joined with a
    comma. *)
Definition toString (i : item) : jsstring :=
  match i with
  | Tag name => name
  | Pair display insert => display ++ js "," ++ insert
  end.

(** [config.default] after [config.default.sort()]. *)
Definition default : list item := sort (sortCompare toString) listed.

(** [tag.includes(' ')]: on a string, whether it holds a space; on an
    array, whether one of its elements is the string of one space. *)
Definition includesSpace (i : item) : bool :=
  match i with
  | Tag name => includes name (js " ")
  | Pair display insert =>
      bool_decide (display = js " ") || bool_decide (insert = js " ")
  end.

Definition withSpace : list item :=
  filter (λ i, includesSpace i = true) default.

(** [s.replace(/\+/, '')] *)
Definition removePlus (s : jsstring) : jsstring :=
  match scan (lit "+"%char) [] s with
  | Some m => take (mindex m) s ++ drop (mend m) s
  | None => s
  end.

(** [s.indexOf(a)] for a one-character string [a]. *)
Fixpoint indexOf (a : ascii) (s : jsstring) : Z :=
  match s with
  | [] => (-1)%Z
  | b :: s' =>
      if eqb b a then 0%Z
      else let i := indexOf a s' in
           if (i <? 0)%Z then (-1)%Z else (i + 1)%Z
  end.

Definition transform (i : item) : jsstring :=
  match i with
  | Pair _ insert => removePlus insert
  | Tag name => js "<" ++ name ++ js "></" ++ name ++ js ">"
  end.

Definition getEndOffset (i : item) : Z :=
  match i with
  | Pair _ insert =>
      if includes insert (js "+")
      then (Z.of_nat (length insert) - 1 - indexOf "+"%char insert)%Z
      else 0%Z
  | Tag name => (Z.of_nat (length name) + 3)%Z
  end.

(** An entry of the menu of tags. *)
Record entry := Entry {
  key : jsstring;
  value : jsstring;
  endOffset : Z
}.

(** The pattern [^[a-z]+$] under the [i] flag: a code unit is in the
    class when its canonical form is that of one of [a] to [z]; the
    [$] that ends the pattern lets the match end only at the end of
    the input. *)
Definition letter (a : ascii) : bool :=
  let n := code (canonicalize a) in (65 <=? n) && (n <=? 90).

(** A letter of the basic Latin alphabet. *)
Definition asciiLetter (a : ascii) : bool :=
  let n := code a in
  ((65 <=? n) && (n <=? 90)) || ((97 <=? n) && (n <=? 122)).

Definition acceptAtEnd : cont :=
  λ y c, match after y with [] => Some (y, c) | _ :: _ => None end.

Fixpoint lettersFrom (bef aft : jsstring) : bool :=
  match matcher (Cat InputStart (plus (Char letter))) (Cursor bef aft) []
          acceptAtEnd with
  | Some _ => true
  | None =>
      match aft with
      | [] => false
      | a :: aft' => lettersFrom (a :: bef) aft'
      end
  end.

(** [/^[a-z]+$/i.test(text)] *)
Definition lettersOnly (text : jsstring) : bool := lettersFrom [] text.

Section WithCollaborators.
(** [removeDuplicates] of util.js on an array of such elements. *)
Variable removeDuplicates : list item → list item.

(** [prepareValues(arr, this.tags)]; every element is defined. *)
Definition prepareValues (arr : list item) : list entry :=
  map (λ i, Entry (match i with Pair display _ => display | Tag name => name end)
              (transform i) (getEndOffset i))
    (removeDuplicates arr).

(** [values(text, callback)] of the tags: the arguments of the calls
    of [callback]. *)
Definition values (text : jsstring) : list (list entry) :=
  let regexp := startsWithRegexp text in
  if negb (lettersOnly text)
     && negb (existsb (λ tag, test regexp (toString tag)) withSpace)
  then [[]]
  else
    let matches :=
      filter (λ tag, test regexp (toString tag) = true) default in
    [prepareValues matches].

End WithCollaborators.

End Tags.

(* ===================================================================== *)
(** ** options.js: [cleanUpVisits]                                        *)
(* ===================================================================== *)

Module OptionsCleanUp.
Import JsString Autocomplete Options JsCompare.

(** [visit >= boundary] on visits that are strings, as [unpackVisits]
    gives them: with [boundary] undefined the comparison is false; two
    strings compare by their code units. *)
Definition atLeast (boundary : option jsstring) (visit : jsstring) : bool :=
  match boundary with
  | Some b => negb (ltb visit b)
  | None => false
  end.

(** What is left under a key: the visits not below the boundary, and
    no key for an empty array. *)
Definition keptOf (boundary : option jsstring)
    (o : option (list jsstring)) : option (list jsstring) :=
  match filter (λ visit, atLeast boundary visit = true) (default [] o) with
  | [] => None
  | v :: kept => Some (v :: kept)
  end.

Section WithObjectKeys.
(** [Object.keys]: the own keys of the object, in the order the
    engine enumerates them. *)
Variable Object_keys : visitsObject → list jsstring.

(** [Object.keys(visits).reduce((acc, key) => acc.concat(visits[key]),
    [])] *)
Definition allTimestamps (visits : visitsObject) : list jsstring :=
  fold_left (λ acc key, acc ++ default [] (visits !! key))
    (Object_keys visits) [].

(** [timestamps[Math.floor(timestamps.length / 10)]] of the sorted
    timestamps. *)
Definition boundary (visits : visitsObject) : option jsstring :=
  let timestamps := sort (sortCompare id) (allTimestamps visits) in
  timestamps !! (length timestamps / 10).

(** One turn of the [forEach]: the visits of the key are filtered, and
    the key is deleted when none is left. *)
Definition cleanKey (boundary : option jsstring) (visits : visitsObject)
    (key : jsstring) : visitsObject :=
  let kept :=
    filter (λ visit, atLeast boundary visit = true)
      (default [] (visits !! key)) in
  let visits := <[key := kept]> visits in
  if length kept =? 0 then delete key visits else visits.

(** [cleanUpVisits(originalVisits)]; the copy made by [Object.assign]
    is the value itself here. *)
Definition cleanUpVisits (originalVisits : visitsObject) : visitsObject :=
  let visits := originalVisits in
  fold_left (cleanKey (boundary visits)) (Object_keys visits) visits.

End WithObjectKeys.

End OptionsCleanUp.

(** A visits object with two pages and the order of its keys, for
    running [cleanUpVisits]. *)
Module CleanUpSample.
Import JsString Options.

Definition visits : visitsObject :=
  <[js "7" := [js "1600000300"; js "1600000100"]]>
    (<[js "12" := [js "1600000200"]]> ∅).

Definition keys (_ : visitsObject) : list jsstring := [js "7"; js "12"].

End CleanUpSample.

(* ===================================================================== *)
(** ** options.js: the watched sections                                   *)
(* ===================================================================== *)

Module WatchedSections.
Import JsString RegExp Options.

(** The watched sections object: page identifiers to lists of section
    names. *)
Abbreviation watchedObject := (gmap jsstring (list jsstring)).

(** The end of the pattern of [unpackWatchedSections]: group 1 a run of
    one or more digits, and a space. *)
Definition pageIdPart : regex :=
  Cat (Capture 1 (plus (Char isDigit))) (lit " "%char).

(** The pattern of [unpackWatchedSections], without flags, tried with
    the cursor at [x]: a group that is not captured with two
    alternatives, the start of the input or a line feed and a space,
    then [pageIdPart].  The alternatives are tried in their order, each
    followed by the rest of the pattern. *)
Definition separatorAt (x : cursor) : outcome :=
  match matcher (Cat InputStart pageIdPart) x [] accept with
  | Some res => Some res
  | None => matcher (Cat (literal [Page.LF; " "%char]) pageIdPart) x [] accept
  end.

(** The loop of [split] with this pattern as the separator: [piece]
    holds the code units from the end of the last separator to the
    cursor.  A separator that ends where the piece starts is passed
    over; else the piece and group 1 are pushed.  [None] stands for a
    loop that has not ended within [fuel] turns. *)
Fixpoint splitLoop (fuel : nat) (piece : jsstring) (x : cursor)
    : option (list jsstring) :=
  match fuel with
  | 0 => None
  | S fuel' =>
      match after x with
      | [] => Some [piece]
      | a :: rest =>
          let next := Cursor (a :: before x) rest in
          match separatorAt x with
          | None => splitLoop fuel' (piece ++ [a]) next
          | Some (y, c) =>
              if index y =? index x - length piece
              then splitLoop fuel' (piece ++ [a]) next
              else
                cons piece <$>
                  (cons (default [] (group 1 c)) <$> splitLoop fuel' [] y)
          end
      end
  end.

(** [s.split(separator)]: on the empty string the result is empty when
    the separator matches it and holds the empty string when not. *)
Definition splitBySeparator (s : jsstring) : option (list jsstring) :=
  match s with
  | [] =>
      match separatorAt (Cursor [] []) with
      | Some _ => Some []
      | None => Some [[]]
      end
  | _ :: _ => splitLoop (S (length s)) [] (Cursor [] s)
  end.

(** The [for] loop of [unpackWatchedSections]: the elements are by
    turns a page identifier and the section names of that page. *)
Fixpoint assignPages (pages : list jsstring) (isPageId : bool)
    (pageId : option jsstring) (watchedSections : watchedObject)
    : watchedObject :=
  match pages with
  | [] => watchedSections
  | page :: pages' =>
      if isPageId
      then assignPages pages' false (Some page) watchedSections
      else assignPages pages' true pageId
             (<[default (js "undefined") pageId := split Page.LF page]>
                watchedSections)
  end.

(** [unpackWatchedSections(watchedSectionsString)] *)
Definition unpackWatchedSections (watchedSectionsString : jsstring)
    : option watchedObject :=
  pages ← splitBySeparator watchedSectionsString;
  Some (assignPages (drop 1 pages) true None ∅).

Section WithObjectKeys.
Variable Object_keys : watchedObject → list jsstring.

(** [packWatchedSections(watchedSections)] *)
Definition packWatchedSections (watchedSections : watchedObject)
    : jsstring :=
  trim
    (concat
       (map (λ key,
               js " " ++ key ++ js " "
                 ++ join [Page.LF] (default [] (watchedSections !! key))
                 ++ [Page.LF])
          (filter
             (λ pageId,
                length (default [] (watchedSections !! pageId)) ≠ 0)
             (Object_keys watchedSections)))).

End WithObjectKeys.

(** What [getWatchedSections] is given beside the watched sections:
    the section watched or unwatched when the page was last
    reloaded. *)
Record keptData := KeptData {
  justWatchedSection : option jsstring;
  justUnwatchedSection : option jsstring
}.

(** A string that is not undefined and not empty. *)
Definition truthy (s : option jsstring) : option jsstring :=
  match s with
  | Some (a :: s') => Some (a :: s')
  | _ => None
  end.

(** The section names of the page after the kept data has been
    applied: [push] when the just watched section is not included,
    then [splice] at the [indexOf] the just unwatched section when it is
    included. *)
Definition applyKeptData (kept : keptData) (sections : list jsstring)
    : list jsstring :=
  let sections :=
    match truthy (justWatchedSection kept) with
    | Some section =>
        if bool_decide (section ∈ sections) then sections
        else sections ++ [section]
    | None => sections
    end in
  match truthy (justUnwatchedSection kept) with
  | Some section =>
      if bool_decide (section ∈ sections)
      then Autocomplete.removeFirst section sections
      else sections
  | None => sections
  end.

(** [getWatchedSections(reuse, keptData)] once the watched sections
    have been obtained: the new [cd.g.watchedSections] and
    [cd.g.thisPageWatchedSections].  [articleId] is the key of
    [wgArticleId], [None] when that is 0. *)
Definition getWatchedSections (articleId : option jsstring)
    (kept : keptData) (watchedSections : watchedObject)
    : watchedObject * option (list jsstring) :=
  match articleId with
  | Some articleId =>
      let thisPageWatchedSections :=
        applyKeptData kept (default [] (watchedSections !! articleId)) in
      (<[articleId := thisPageWatchedSections]> watchedSections,
       Some thisPageWatchedSections)
  | None => (watchedSections, None)
  end.

End WatchedSections.

(** Reference notions for the watched sections. *)
Module WatchedSpec.
Import JsString Options WatchedSections.

(** A section name that is not empty, holds no line feed, does not
    start with a space and does not end with whitespace. *)
Definition isSection (s : jsstring) : bool :=
  forallb (λ a, negb (eqb a Page.LF)) s
  && match s with a :: _ => negb (eqb a " "%char) | [] => false end
  && match last s with Some a => negb (isWhiteSpace a) | None => false end.

Definition packableSections (watchedSections : watchedObject) : Prop :=
  map_Forall
    (λ key arr,
       OptionsSpec.isKey key = true
       ∧ Forall (λ s, isSection s = true) arr)
    watchedSections.

(** The text of an entry after its page identifier, and the text of
    the entries after the first one. *)
Definition block (arr : list jsstring) : jsstring := join [Page.LF] arr.

Definition laterEntries (es : list OptionsSpec.entry) : jsstring :=
  concat (map (λ e : OptionsSpec.entry,
                 Page.LF :: " "%char :: e.1 ++ " "%char :: block e.2) es).

(** The elements [split] gives for entries from the second on. *)
Definition laterPages (es : list OptionsSpec.entry) : list jsstring :=
  concat (map (λ e : OptionsSpec.entry, [e.1; block e.2]) es).

(** No line feed of the text is followed by a space or by the end of
    the text. *)
Fixpoint separatorFree (w : jsstring) : bool :=
  match w with
  | [] => true
  | a :: w' =>
      negb (eqb a Page.LF
            && match w' with b :: _ => eqb b " "%char | [] => true end)
      && separatorFree w'
  end.

(** An entry that [packWatchedSections] writes and the loop reads
    back. *)
Definition goodEntry (e : OptionsSpec.entry) : Prop :=
  OptionsSpec.isKey e.1 = true ∧ e.2 ≠ []
  ∧ Forall (λ s, isSection s = true) e.2.

(** The packed text of one or more entries. *)
Definition packedEntries (e : OptionsSpec.entry)
    (es : list OptionsSpec.entry) : jsstring :=
  e.1 ++ " "%char :: block e.2 ++ laterEntries es.

End WatchedSpec.

(* ===================================================================== *)
(** ** Autocomplete.js: the caret after an insertion                      *)
(* ===================================================================== *)

Module Caret.
Import JsString.

(** The listener of [tribute-replaced]: given the value of the input,
    the end of its range and the [endOffset] of the item inserted, the
    value it sets and the index it moves the caret to. *)
Definition onReplaced (value : jsstring) (cursorIndex endOffset : Z)
    : jsstring * Z :=
  (slice value 0 (cursorIndex - 1) ++ sliceFrom value cursorIndex,
   (cursorIndex - 1 - endOffset)%Z).

End Caret.

(* ===================================================================== *)
(** ** options.js: [setSettings]                                          *)
(* ===================================================================== *)

Module Settings.
Import JsString.

Section WithValues.
(** The values of the settings, [Object.keys] and
    [cd.localSettingNames]. *)
Context {V : Type}.
Variable Object_keys : gmap jsstring V → list jsstring.
Variable localSettingNames : list jsstring.

(** One turn of the [forEach]: the setting goes to the local or to the
    global settings. *)
Definition assignSetting (settings : gmap jsstring V)
    (parts : gmap jsstring V * gmap jsstring V) (key : jsstring)
    : gmap jsstring V * gmap jsstring V :=
  match settings !! key with
  | Some v =>
      if bool_decide (key ∈ localSettingNames)
      then (<[key := v]> parts.1, parts.2)
      else (parts.1, <[key := v]> parts.2)
  | None => parts
  end.

(** [localSettings] and [globalSettings] after the [forEach]. *)
Definition splitSettings (settings : gmap jsstring V)
    : gmap jsstring V * gmap jsstring V :=
  fold_left (assignSetting settings) (Object_keys settings) (∅, ∅).

(** The options written to. *)
Inductive optionName :=
| LocalSettingsOption     (* [cd.g.LOCAL_SETTINGS_OPTION_FULL_NAME] *)
| SettingsOption.         (* [cd.g.SETTINGS_OPTION_FULL_NAME] *)

(** A call of [setLocalOption] or [setGlobalOption], with the settings
    that are written as JSON. *)
Inductive call :=
| SetLocalOption (name : optionName) (settings : gmap jsstring V)
| SetGlobalOption (name : optionName) (settings : gmap jsstring V).

Inductive ending :=
| Returned
| Rethrown
| TypeError_undefinedError.   (* reading [code] of an undefined [error] *)

(** [setSettings(settings)]: [settings] is [None] when the argument is
    not given, [saved] is [None] when both requests were fulfilled and
    else what the first rejected one threw.  The result is the calls
    made and how the function ended. *)
Definition setSettings (cdSettings : gmap jsstring V)
    (settings : option (gmap jsstring V)) (saved : option Page.caught)
    : list call * ending :=
  let settings := default cdSettings settings in
  let '(localSettings, globalSettings) := splitSettings settings in
  let requests :=
    [ SetLocalOption LocalSettingsOption localSettings;
      SetGlobalOption SettingsOption globalSettings ] in
  match saved with
  | None => (requests, Returned)
  | Some (Page.CdError _ (Some (Page.ApiData (Some error) _))) =>
      if bool_decide (Page.errorCode error = js "badvalue")
      then (requests ++ [SetLocalOption SettingsOption globalSettings],
            Returned)
      else (requests, Rethrown)
  | Some (Page.CdError _ (Some (Page.ApiData None _))) =>
      (requests, TypeError_undefinedError)
  | Some _ => (requests, Rethrown)
  end.

End WithValues.

End Settings.


(* ===================================================================== *)
(** ** Facts about strings and the matcher                                *)
(* ===================================================================== *)

Module RegExpFacts.
Import JsString RegExp RegExpSemantics.

Lemma eqb_eq a b : eqb a b = true ↔ a = b.
Proof. unfold eqb. apply Ascii.eqb_eq. Qed.

Lemma eqb_refl a : eqb a a = true.
Proof. by apply eqb_eq. Qed.

Lemma startsWith_app s p : startsWith s p = true ↔ ∃ rest, s = p ++ rest.
Proof.
  revert s. induction p as [|b p IH]; intros s; simpl.
  - split; [intros _; by exists s | done].
  - destruct s as [|a s].
    + split; [done | intros [rest H]; discriminate].
    + rewrite andb_true_iff, eqb_eq, IH. split.
      * intros [-> [rest ->]]. by exists rest.
      * intros [rest H]. injection H as -> ->. split; [done | by exists rest].
Qed.

Lemma advance_app w rest bef :
  advance (length w) (Cursor bef (w ++ rest)) = Cursor (rev w ++ bef) rest.
Proof.
  revert bef. induction w as [|a w IH]; intros bef; simpl.
  - by destruct rest.
  - rewrite IH. by rewrite <- app_assoc.
Qed.

(** The matcher only succeeds along a derivation of [matches]. *)
Lemma repeat_greedy_sound r fuel :
  (∀ x c k res, matcher r x c k = Some res →
     ∃ y c', matches r x c y c' ∧ k y c' = Some res) →
  ∀ x c k res, repeat_greedy (matcher r) fuel x c k = Some res →
    ∃ y c', matches (Star true r) x c y c' ∧ k y c' = Some res.
Proof.
  intros Hbody. induction fuel as [|fuel IH]; intros x c k res; simpl.
  - intros H. exists x, c. split; [constructor | done].
  - destruct (matcher r x c _) as [res'|] eqn:Hm.
    + intros [= ->]. apply Hbody in Hm as (y & c' & Hy & Hk).
      destruct (index x <? index y) eqn:Hlt; [|done].
      apply Nat.ltb_lt in Hlt.
      apply IH in Hk as (z & c'' & Hz & Hk).
      exists z, c''. split; [|done]. by eapply MStarMore.
    + intros H. exists x, c. split; [constructor | done].
Qed.

Lemma repeat_lazy_sound r fuel :
  (∀ x c k res, matcher r x c k = Some res →
     ∃ y c', matches r x c y c' ∧ k y c' = Some res) →
  ∀ x c k res, repeat_lazy (matcher r) fuel x c k = Some res →
    ∃ y c', matches (Star false r) x c y c' ∧ k y c' = Some res.
Proof.
  intros Hbody. induction fuel as [|fuel IH]; intros x c k res; simpl.
  - intros H. exists x, c. split; [constructor | done].
  - destruct (k x c) as [res'|] eqn:Hk0.
    + intros [= ->]. exists x, c. split; [constructor | done].
    + intros Hm. apply Hbody in Hm as (y & c' & Hy & Hk).
      destruct (index x <? index y) eqn:Hlt; [|done].
      apply Nat.ltb_lt in Hlt.
      apply IH in Hk as (z & c'' & Hz & Hk).
      exists z, c''. split; [|done]. by eapply MStarMore.
Qed.

Lemma matcher_sound r :
  ∀ x c k res, matcher r x c k = Some res →
    ∃ y c', matches r x c y c' ∧ k y c' = Some res.
Proof.
  induction r as [|p|r1 IH1 r2 IH2|g r IH| | | |n r IH|n];
    intros x c k res; [simpl..| |simpl|simpl|simpl|simpl|simpl].
  - intros H. exists x, c. split; [constructor | done].
  - destruct x as [bef [|a aft]]; simpl; [done|].
    destruct (p a) eqn:Hp; [|done].
    intros H. eexists _, c. split; [by constructor | done].
  - intros H. apply IH1 in H as (y & c' & Hy & H).
    apply IH2 in H as (z & c'' & Hz & H).
    exists z, c''. split; [by econstructor | done].
  - destruct g; intros H.
    + by eapply (repeat_greedy_sound r _ IH).
    + by eapply (repeat_lazy_sound r _ IH).
  - destruct (before x) eqn:Hb; [|done].
    intros H. exists x, c. split; [by constructor | done].
  - intros H. exists x, c. split; [|by destruct (before x) as [|a ?];
      [|destruct (isLineTerminator a)]].
    constructor. unfold atLineStart.
    destruct (before x) as [|a ?]; [done|].
    by destruct (isLineTerminator a).
  - intros H. exists x, c. split; [|by destruct (after x) as [|a ?];
      [|destruct (isLineTerminator a)]].
    constructor. unfold atLineEnd.
    destruct (after x) as [|a ?]; [done|].
    by destruct (isLineTerminator a).
  - intros H. apply IH in H as (y & c' & Hy & H).
    exists y, ((n, between x y) :: c'). split; [by constructor | done].
  - destruct (group n c) as [w|] eqn:Hg.
    + destruct (startsWith (after x) w) eqn:Hs; [|done].
      intros H. eexists _, c. split; [by eapply MBackRef | done].
    + intros H. exists x, c. split; [by constructor | done].
Qed.

(** A match moves the cursor forward over the subject. *)
Lemma matches_consumed r x c y c' :
  matches r x c y c' →
  ∃ w, after x = w ++ after y ∧ before y = rev w ++ before x.
Proof.
  induction 1 as [x c|p a bef aft c Hp|r1 r2 x c y c' z c'' _ IH1 _ IH2
                 |g r x c|g r x c y c' z c'' _ IH1 Hlt _ IH2
                 |x c Hb|x c Hb|x c He|n r x c y c' _ IH|n x c Hg
                 |n w x c Hg Hs];
    try (by exists []).
  - by exists [a].
  - destruct IH1 as (w1 & Ha1 & Hb1), IH2 as (w2 & Ha2 & Hb2).
    exists (w1 ++ w2). rewrite Ha1, Ha2, Hb2, Hb1, rev_app_distr.
    by rewrite !app_assoc.
  - destruct IH1 as (w1 & Ha1 & Hb1), IH2 as (w2 & Ha2 & Hb2).
    exists (w1 ++ w2). rewrite Ha1, Ha2, Hb2, Hb1, rev_app_distr.
    by rewrite !app_assoc.
  - done.
  - apply startsWith_app in Hs as [rest Hrest].
    destruct x as [bef aft]; simpl in *. subst aft.
    exists w. by rewrite advance_app.
Qed.

Lemma matches_index_le r x c y c' :
  matches r x c y c' → index x ≤ index y.
Proof.
  intros H. apply matches_consumed in H as (w & _ & Hb).
  unfold index. rewrite Hb, length_app. lia.
Qed.

Lemma consumes_progress r x c y c' :
  consumes r = true → matches r x c y c' → index x < index y.
Proof.
  intros Hc H. induction H; simpl in Hc; try done.
  - unfold index; simpl; lia.
  - apply orb_true_iff in Hc as [Hc|Hc].
    + apply matches_index_le in H0. specialize (IHmatches1 Hc). lia.
    + apply matches_index_le in H. specialize (IHmatches2 Hc). lia.
  - auto.
Qed.

Lemma matches_subject r x c y c' :
  matches r x c y c' → subject y = subject x.
Proof.
  intros H. apply matches_consumed in H as (w & Ha & Hb).
  unfold subject. rewrite Hb, Ha, rev_app_distr, rev_involutive.
  by rewrite <- app_assoc.
Qed.

Lemma index_le_subject x : index x ≤ length (subject x).
Proof. unfold index, subject. rewrite length_app, length_rev. lia. Qed.

(** [scan] returns the first position at which the pattern matches. *)
Lemma scan_Some r bef aft m :
  scan r bef aft = Some m →
  ∃ skipped rest y,
    aft = skipped ++ rest ∧
    mindex m = length bef + length skipped ∧
    matcher r (Cursor (rev skipped ++ bef) rest) [] accept
      = Some (y, mgroups m) ∧
    mend m = index y ∧
    ∀ s1 a s2, skipped = s1 ++ a :: s2 →
      matchesAt r (Cursor (rev s1 ++ bef) (a :: s2 ++ rest)) = false.
Proof.
  revert bef. induction aft as [|a aft IH]; intros bef; simpl.
  - destruct (matcher r (Cursor bef []) [] accept)
      as [[y c]|] eqn:Hm; [|done].
    intros [= <-]. exists [], [], y. simpl.
    split_and!; [done|lia|done|done|].
    intros [|??] ???; discriminate.
  - destruct (matcher r (Cursor bef (a :: aft)) [] accept)
      as [[y c]|] eqn:Hm.
    + intros [= <-]. exists [], (a :: aft), y. simpl.
      split_and!; [done|lia|done|done|].
      intros [|??] ???; discriminate.
    + intros H. apply IH in H as (skipped & rest & y & -> & Hi & Hy & He & Hmin).
      exists (a :: skipped), rest, y. simpl in *.
      rewrite <- app_assoc. simpl. split_and!; [done|lia|done|done|].
      intros [|b s1] a' s2 Heq; simpl in Heq; injection Heq as -> Heq.
      * subst skipped. unfold matchesAt. simpl. by rewrite Hm.
      * subst skipped. specialize (Hmin s1 a' s2 eq_refl).
        simpl. by rewrite <- app_assoc.
Qed.

Lemma scan_None r bef aft :
  scan r bef aft = None →
  ∀ s1 s2, aft = s1 ++ s2 → matchesAt r (Cursor (rev s1 ++ bef) s2) = false.
Proof.
  revert bef. induction aft as [|a aft IH]; intros bef; simpl.
  - destruct (matcher r (Cursor bef []) [] accept) as [[y c]|] eqn:Hm;
      [done|].
    intros _ s1 s2 Heq. symmetry in Heq.
    apply app_eq_nil in Heq as [-> ->]. unfold matchesAt. simpl. by rewrite Hm.
  - destruct (matcher r (Cursor bef (a :: aft)) [] accept)
      as [[y c]|] eqn:Hm; [done|].
    intros H [|b s1] s2 Heq; simpl in Heq.
    + subst s2. unfold matchesAt. simpl. by rewrite Hm.
    + injection Heq as <- ->. simpl. rewrite <- app_assoc. by apply IH.
Qed.

Lemma scan_bounds r bef aft m :
  scan r bef aft = Some m →
  length bef ≤ mindex m ∧ mindex m ≤ mend m
  ∧ mend m ≤ length bef + length aft
  ∧ (consumes r = true → mindex m < mend m).
Proof.
  intros H. apply scan_Some in H
    as (skipped & rest & y & -> & Hi & Hy & He & _).
  apply matcher_sound in Hy as (y' & c' & Hy & [= <- _]%(inj Some)).
  pose proof (matches_index_le _ _ _ _ _ Hy) as Hle.
  pose proof (matches_subject _ _ _ _ _ Hy) as Hs.
  pose proof (index_le_subject y') as Hb. rewrite Hs in Hb.
  unfold subject, index in *. simpl in *.
  rewrite !length_app, ?length_rev, ?length_app in *.
  rewrite ?length_rev in *.
  repeat split; try lia.
  intros Hc. pose proof (consumes_progress _ _ _ _ _ Hc Hy) as Hlt.
  unfold index in Hlt; simpl in Hlt. rewrite length_app, length_rev in Hlt.
  lia.
Qed.

Lemma exec_bounds r s i m :
  exec r s i = Some m →
  i ≤ mindex m ∧ mindex m ≤ mend m ∧ mend m ≤ length s
  ∧ (consumes r = true → mindex m < mend m).
Proof.
  unfold exec. destruct (length s <? i) eqn:Hlt; [done|].
  apply Nat.ltb_ge in Hlt. intros H.
  apply scan_bounds in H as (H1 & H2 & H3 & H4).
  rewrite length_rev, length_take, length_drop in *.
  split_and!; try lia. intros Hc. specialize (H4 Hc). lia.
Qed.

Lemma exec_loop_execAll {A} r s fuel i (body : A → rmatch → A) acc :
  exec_loop r s fuel i body acc
  = (λ ms, fold_left body ms acc) <$> execAll r s fuel i.
Proof.
  revert i acc. induction fuel as [|fuel IH]; intros i acc; simpl; [done|].
  destruct (exec r s i) as [m|]; [|done].
  rewrite IH. by destruct (execAll r s fuel (mend m)).
Qed.

(** The loop over the matches of a consuming pattern ends. *)
Lemma execAll_total r s fuel i :
  consumes r = true → i ≤ length s → length s < fuel + i →
  is_Some (execAll r s fuel i).
Proof.
  intros Hc. revert i. induction fuel as [|fuel IH]; intros i Hi Hf; simpl.
  - lia.
  - destruct (exec r s i) as [m|] eqn:He; [|done].
    apply exec_bounds in He as (H1 & H2 & H3 & H4). specialize (H4 Hc).
    destruct (IH (mend m)) as [ms Hms]; [lia..|]. rewrite Hms. done.
Qed.

End RegExpFacts.

(* ===================================================================== *)
(** ** Page.js: the code mutator                                          *)
(* ===================================================================== *)

Module PageFacts.
Import JsString RegExp RegExpSemantics RegExpFacts Page PageSpec.

Lemma trimStart_app_LF s :
  trimStart (s ++ [LF])
  = if forallb isWhiteSpace s then [] else trimStart s ++ [LF].
Proof.
  induction s as [|a s IH]; simpl; [done|].
  destruct (isWhiteSpace a); simpl; [apply IH | done].
Qed.

Lemma clampIndex_nat len i : clampIndex len (Z.of_nat i) = Nat.min len i.
Proof.
  unfold clampIndex. destruct (Z.of_nat i <? 0)%Z eqn:H.
  - apply Z.ltb_lt in H. lia.
  - by rewrite Nat2Z.id.
Qed.

Lemma slice_to_nat s i : slice s 0 (Z.of_nat i) = take i s.
Proof.
  unfold slice. rewrite clampIndex_nat. unfold clampIndex. simpl.
  rewrite Nat.min_0_r, Nat.sub_0_r. unfold drop.
  destruct (Nat.min_spec (length s) i) as [[H ->]|[H ->]]; [|done].
  rewrite !take_ge; [done | lia..].
Qed.

Lemma sliceFrom_nat s i : sliceFrom s (Z.of_nat i) = drop i s.
Proof.
  unfold sliceFrom. rewrite clampIndex_nat.
  destruct (Nat.min_spec (length s) i) as [[H ->]|[H ->]]; [|done].
  rewrite !drop_ge; [done | lia..].
Qed.

Lemma switchOn_default code cases :
  code ∉ cases.*1 → switchOn code cases = DefaultCase.
Proof.
  induction cases as [|[label c] cases IH]; simpl; [done|].
  intros Hnotin. apply not_elem_of_cons in Hnotin as [Hne Hnotin].
  rewrite bool_decide_eq_false_2 by done. by apply IH.
Qed.

End PageFacts.

(** C4, as amended.  With bottom placement the code before the insertion
    is the page code with one line feed appended and its leading
    whitespace then removed, and the new page code is that followed
    directly by the comment: for a page code with a code unit that is not
    whitespace it is the code without its leading whitespace, the one
    appended line feed (next to whatever line feeds the code ended with)
    and the comment; for an empty or all-whitespace page code it is the
    comment alone.  The result depends on the page code and the comment
    only, so a repeated call returns the same code. *)
Theorem modifyCode_bottom :
  ∀ (hideHtmlComments : jsstring → jsstring) (pageCode commentCode : jsstring),
    let r := Page.modifyCode hideHtmlComments pageCode commentCode false in
    Page.codeBeforeInsertion r = JsString.trimStart (pageCode ++ [Page.LF])
    ∧ Page.newPageCode r
      = (if forallb JsString.isWhiteSpace pageCode then []
         else JsString.trimStart pageCode ++ [Page.LF]) ++ commentCode
    ∧ Page.commentCode r = commentCode
    ∧ ∀ other : jsstring → jsstring,
        Page.modifyCode other pageCode commentCode false = r.
Proof.
  intros hide pageCode commentCode r. subst r. unfold Page.modifyCode. simpl.
  split_and!; try done.
  by rewrite PageFacts.trimStart_app_LF.
Qed.

(** C4 as stated fails: a page code that already ends with a line feed
    gets a second one before the comment. *)
Lemma modifyCode_bottom_second_newline :
  Page.newPageCode
    (Page.modifyCode Page.hideHtmlComments_spec (js "a" ++ [Page.LF]) (js "C") false)
  = js "a" ++ [Page.LF; Page.LF] ++ js "C"
  ∧ PageSpec.specifiedBottomCode (js "a" ++ [Page.LF]) (js "C")
    = js "a" ++ [Page.LF] ++ js "C"
  ∧ Page.newPageCode
      (Page.modifyCode Page.hideHtmlComments_spec (js "a" ++ [Page.LF]) (js "C") false)
    ≠ PageSpec.specifiedBottomCode (js "a" ++ [Page.LF]) (js "C").
Proof. split_and!; [reflexivity | reflexivity | discriminate]. Qed.

(** C9.  When the code of the page is set, the site's override does not
    answer [false] and the section heading pattern finds nothing in the
    comment-hidden code, [analyzeNewTopicPlacement] throws the
    [TypeError] of reading [index] of [null]; it assigns nothing. *)
Theorem analyzeNewTopicPlacement_null_match :
  ∀ (hideHtmlComments : jsstring → jsstring)
    (findFirstTimestamp : jsstring → option jsstring)
    (parseTimestamp : jsstring → option Z)
    (configAreNewTopicsOnTop : option (jsstring → jsstring → option bool))
    (p : Page.Page) (code : jsstring),
    Page.code p = Some code →
    Page.siteOverride configAreNewTopicsOnTop p code ≠ Some false →
    RegExp.exec Page.sectionHeadingRegexp (hideHtmlComments code) 0 = None →
    Page.analyzeNewTopicPlacement hideHtmlComments findFirstTimestamp
      parseTimestamp configAreNewTopicsOnTop p
    = Throws Page.TypeError_nullIndex.
Proof.
  intros hide find parse cfg p code Hcode Hover Hexec.
  unfold Page.analyzeNewTopicPlacement. rewrite Hcode, Hexec.
  by destruct (Page.siteOverride cfg p code) as [[]|].
Qed.

Lemma analyzeNewTopicPlacement_null_match_witness :
  Page.analyzeNewTopicPlacement Page.hideHtmlComments_spec
    Sample.findFirstTimestamp Sample.parseTimestamp None
    (Page.MkPage (js "Talk:X") 1 (Some (Sample.lines ["Hello"%string])) None None)
  = Throws Page.TypeError_nullIndex.
Proof.
  apply (analyzeNewTopicPlacement_null_match Page.hideHtmlComments_spec
           Sample.findFirstTimestamp Sample.parseTimestamp None
           (Page.MkPage (js "Talk:X") 1 (Some (Sample.lines ["Hello"%string]))
              None None)
           (Sample.lines ["Hello"%string])).
  - reflexivity.
  - discriminate.
  - vm_compute. reflexivity.
Defined.

(** C8.  For a failure that is not of the network type and carries an
    API error object: the code [spamblacklist] takes the spam blacklist
    case, and the message is [cd.s('error-spamblacklist', matches[0])];
    a code outside the recognized ones takes the default case, and the
    message is [cd.s('error-pagenotedited')], a space and the text
    [unknownApiErrorText] made from the code and the error's [info].  In
    both cases [details] carries the machine code, and [logMessage] is
    the pair of the code and the raw payload. *)
Theorem editCatch_classification :
  ∀ (cd_s : jsstring → list (option jsstring) → jsstring)
    (mwMessagePlain : jsstring → option jsstring → jsstring)
    (loadMessagesIfMissing : jsstring → settled unit)
    (parseCode : jsstring → settled (option jsstring))
    (unknownApiErrorText : jsstring → option jsstring → settled jsstring)
    (type : jsstring) (error : Page.apiError) (rest : jsstring),
    type ≠ js "network" →
    let data := Page.ApiData (Some error) rest in
    let thrown :=
      Page.editCatch cd_s mwMessagePlain loadMessagesIfMissing parseCode
        unknownApiErrorText (Page.CdError type (Some data)) in
    (∀ matches,
       Page.errorCode error = js "spamblacklist" →
       Page.spamblacklistMatches error = Some matches →
       Page.switchOn (Page.errorCode error) Page.recognizedCodes
         = Page.Spamblacklist
       ∧ thrown
         = Page.ApiFailure
             (Page.Details (Some (js "spamblacklist"))
                (Some (cd_s (js "error-spamblacklist") [matches !! 0]))
                false
                (Page.LogCodeAndData (js "spamblacklist") data)))
    ∧ (∀ text,
         Page.errorCode error ∉ Page.recognizedCodes.*1 →
         unknownApiErrorText (Page.errorCode error) (Page.errorInfo error)
           = Resolved text →
         Page.switchOn (Page.errorCode error) Page.recognizedCodes
           = Page.DefaultCase
         ∧ thrown
           = Page.ApiFailure
               (Page.Details (Some (Page.errorCode error))
                  (Some (cd_s (js "error-pagenotedited") [] ++ js " " ++ text))
                  false
                  (Page.LogCodeAndData (Page.errorCode error) data))).
Proof.
  intros cd_s plain load parse unknown type error rest Htype data thrown.
  subst thrown. unfold Page.editCatch.
  rewrite bool_decide_eq_false_2 by done. simpl. split.
  - intros matches Hcode Hmatches. unfold Page.describe.
    rewrite Hcode, Hmatches. simpl. split; [reflexivity|]. reflexivity.
  - intros text Hcode Hunknown.
    pose proof (PageFacts.switchOn_default (Page.errorCode error)
                  Page.recognizedCodes Hcode) as Hdefault.
    split; [done|]. unfold Page.describe. by rewrite Hdefault, Hunknown.
Qed.

Lemma editCatch_classification_witness :
  let cd_s := λ (name : jsstring) (params : list (option jsstring)),
                name ++ js ":" ++ concat (map (default []) params) in
  let unknown := λ (code : jsstring) (info : option jsstring),
                   Resolved (code ++ js ": " ++ default [] info) in
  let run := Page.editCatch cd_s (λ _ _, []) (λ _, Resolved ())
               (λ _, Resolved None) unknown in
  let spam := Page.ApiError (js "spamblacklist") None (Some [js "http://x"]) None in
  let odd := Page.ApiError (js "readonly") (Some (js "The wiki is read-only")) None None in
  run (Page.CdError (js "api") (Some (Page.ApiData (Some spam) [])))
  = Page.ApiFailure
      (Page.Details (Some (js "spamblacklist"))
         (Some (js "error-spamblacklist:http://x")) false
         (Page.LogCodeAndData (js "spamblacklist")
            (Page.ApiData (Some spam) [])))
  ∧ run (Page.CdError (js "api") (Some (Page.ApiData (Some odd) [])))
    = Page.ApiFailure
        (Page.Details (Some (js "readonly"))
           (Some (js "error-pagenotedited: readonly: The wiki is read-only"))
           false
           (Page.LogCodeAndData (js "readonly") (Page.ApiData (Some odd) []))).
Proof.
  intros cd_s unknown run spam odd. split.
  - refine (proj2 (proj1 (editCatch_classification cd_s (λ _ _, []) (λ _, Resolved ())
             (λ _, Resolved None) unknown (js "api") spam [] _)
             [js "http://x"] _ _)).
    + vm_compute. discriminate.
    + reflexivity.
    + reflexivity.
  - refine (proj2 (proj2 (editCatch_classification cd_s (λ _ _, []) (λ _, Resolved ())
             (λ _, Resolved None) unknown (js "api") odd [] _)
             (js "readonly: The wiki is read-only") _ _)).
    + vm_compute. discriminate.
    + vm_compute. intros H. repeat (apply elem_of_cons in H as [H|H]; [discriminate|]).
      by apply elem_of_nil in H.
    + reflexivity.
Defined.

(* ===================================================================== *)
(** ** Page.js: the first section of [modifyCode]                         *)
(* ===================================================================== *)

Module FirstSectionFacts.
Import JsString RegExp RegExpSemantics RegExpFacts Page PageSpec.

Lemma star_char_inv g p x c y c' :
  matches (Star g (Char p)) x c y c' →
  ∃ w, Forall (λ a, p a = true) w ∧ after x = w ++ after y
       ∧ before y = rev w ++ before x ∧ c' = c.
Proof.
  remember (Star g (Char p)) as r eqn:Hr. intros H.
  induction H; try discriminate.
  - by exists [].
  - injection Hr as -> ->. specialize (IHmatches2 eq_refl).
    destruct IHmatches2 as (w & Hw & Ha & Hb & ->).
    inversion H; subst. simpl in *.
    exists (a :: w). split_and!; [by constructor|by rewrite Ha|..|done].
    rewrite Hb. simpl. by rewrite <- app_assoc.
Qed.

Lemma repeat_greedy_continue body fuel x c k :
  is_Some (k x c) → is_Some (repeat_greedy body fuel x c k).
Proof.
  intros Hk. destruct fuel as [|fuel]; simpl; [done|].
  by destruct (body x c _).
Qed.

Lemma between_one a bef rest :
  between (Cursor bef (a :: rest)) (Cursor (a :: bef) rest) = [a].
Proof.
  unfold between, index. simpl.
  replace (S (length bef) - length bef) with 1 by lia. done.
Qed.

(** The lazy run of [.] followed by the back reference finds the next
    [=] of the line. *)
Lemma lazy_dots_find c k rest :
  ∀ bef fuel,
    length rest < fuel →
    sameLineHas "="%char rest = true →
    (∀ z, startsWith (after z) [ "="%char ] = true → is_Some (k z c)) →
    (∀ z, startsWith (after z) [ "="%char ] = false → k z c = None) →
    is_Some (repeat_lazy (matcher dot) fuel (Cursor bef rest) c k).
Proof.
  induction rest as [|b rest IH]; intros bef fuel Hfuel Hhas Hyes Hno;
    simpl in Hhas; [done|].
  destruct fuel as [|fuel]; [simpl in Hfuel; lia|]. cbn [repeat_lazy].
  destruct (isLineTerminator b) eqn:Hb; [done|].
  destruct (eqb b "="%char) eqn:Heq.
  - destruct (Hyes (Cursor bef (b :: rest))) as [res Hres].
    { simpl. by rewrite Heq. }
    rewrite Hres. done.
  - rewrite Hno by (simpl; by rewrite Heq).
    unfold dot at 1. cbn [matcher after before]. rewrite Hb. cbn [negb].
    replace (index (Cursor bef (b :: rest)) <? index (Cursor (b :: bef) rest))
      with true by (symmetry; apply Nat.ltb_lt; unfold index; simpl; lia).
    simpl in Hhas. apply IH; try done. simpl in Hfuel. lia.
Qed.

Lemma startsHeadingLike_matchesAt x :
  startsHeadingLike x = true → matchesAt firstSectionRegexp x = true.
Proof.
  unfold startsHeadingLike, matchesAt. destruct x as [bef aft].
  cbn [before after].
  intros H. apply andb_true_iff in H as [Hstart H].
  destruct aft as [|a rest]; [done|].
  apply andb_true_iff in H as [Ha Hrest]. apply eqb_eq in Ha as ->.
  assert (is_Some (matcher firstSectionRegexp
                     (Cursor bef ("="%char :: rest)) [] accept)) as [res Hres];
    [|by rewrite Hres].
  unfold firstSectionRegexp, cat, plus, lit. cbn [matcher before after].
  assert (is_Some
    (repeat_greedy (matcher (Char (eqb "="%char))) (S (length rest))
       (Cursor ("="%char :: bef) rest) []
       (λ y c',
          repeat_lazy (matcher dot) (S (length (after y))) y
            ((1, between (Cursor bef ("="%char :: rest)) y) :: c')
            (λ y0 c'0, matcher (BackRef 1) y0 c'0 accept)))) as Hgoal.
  { apply repeat_greedy_continue. rewrite between_one.
    apply lazy_dots_find; simpl; try done; try lia.
    - intros z Hz. rewrite Hz. done.
    - intros z Hz. by rewrite Hz. }
  destruct bef as [|b bef]; simpl.
  - exact Hgoal.
  - simpl in Hstart. rewrite Hstart. exact Hgoal.
Qed.

Lemma matchesAt_startsHeadingLike x :
  matchesAt firstSectionRegexp x = true → startsHeadingLike x = true.
Proof.
  unfold matchesAt.
  destruct (matcher firstSectionRegexp x [] accept) as [res|] eqn:Hm;
    [intros _|done].
  apply matcher_sound in Hm as (y & c & Hm & _).
  unfold firstSectionRegexp, cat, plus, lit in Hm.
  inversion Hm as [| |r1 r2 x0 c0 y1 c1 z c2 Hstart Hrest| | | | | | | |];
    subst; clear Hm.
  inversion Hstart as [| | | | | |x0 c0 Hls| | | |]; subst; clear Hstart.
  inversion Hrest as [| |r1 r2 x0 c0 y2 c2 z c3 Hcap Htail| | | | | | | |];
    subst; clear Hrest.
  inversion Hcap as [| | | | | | | |n r x0 c0 y3 c3 Hrun| |]; subst; clear Hcap.
  inversion Hrun as [| |r1 r2 x0 c0 y4 c4 z c5 Hfirst Hmore| | | | | | | |];
    subst; clear Hrun.
  inversion Hfirst as [|p a bef aft c0 Hp| | | | | | | | |]; subst; clear Hfirst.
  apply eqb_eq in Hp as <-.
  apply star_char_inv in Hmore as (w1 & Hw1 & Ha1 & Hb1 & ->).
  simpl in Ha1, Hb1.
  inversion Htail as [| |r1 r2 x0 c0 y5 c5 z c6 Hdots Href| | | | | | | |];
    subst; clear Htail.
  apply star_char_inv in Hdots as (w2 & Hw2 & Ha2 & Hb2 & ->).
  assert (between (Cursor bef ("="%char :: w1 ++ after y2)) y2
          = "="%char :: w1) as Hbetween.
  { unfold between, index. rewrite Hb1. simpl.
    rewrite length_app, length_rev. simpl.
    replace (length w1 + S (length bef) - length bef)
      with (length (rev w1 ++ ["="%char]))
      by (rewrite length_app, length_rev; simpl; lia).
    replace (rev w1 ++ "="%char :: bef) with ((rev w1 ++ ["="%char]) ++ bef)
      by (by rewrite <- app_assoc).
    rewrite take_app_length.
    by rewrite rev_app_distr, rev_involutive. }
  rewrite Hbetween in Href.
  inversion Href as [| | | | | | | | |n x0 c0 Hg|n w x0 c0 Hg Hs]; subst;
    clear Href; simpl in Hg; [done|].
  injection Hg as <-. simpl in Hs.
  unfold startsHeadingLike. simpl. apply andb_true_iff. split.
  { unfold atLineStart in Hls. simpl in Hls. by destruct bef. }
  rewrite Ha2. clear - Hw1 Hw2 Hs.
  assert (∀ rest, sameLineHas "="%char rest = true →
                  sameLineHas "="%char (w1 ++ rest) = true) as Hskip1.
  { intros rest Hrest. induction Hw1 as [|a w Ha _ IH]; [done|].
    apply eqb_eq in Ha as <-. done. }
  apply Hskip1. clear Hskip1 Hw1.
  induction Hw2 as [|a w Ha _ IH]; simpl.
  - destruct (after y5) as [|b rest]; [done|]. simpl in Hs.
    apply andb_true_iff in Hs as [Hb _]. apply eqb_eq in Hb as ->.
    done.
  - apply negb_true_iff in Ha. rewrite Ha, IH.
    by rewrite orb_true_r.
Qed.

Lemma matchesAt_firstSection x :
  matchesAt firstSectionRegexp x = startsHeadingLike x.
Proof.
  destruct (startsHeadingLike x) eqn:H.
  - by apply startsHeadingLike_matchesAt.
  - destruct (matchesAt firstSectionRegexp x) eqn:Hm; [|done].
    apply matchesAt_startsHeadingLike in Hm. congruence.
Qed.

Lemma cursorAt_app s1 s2 :
  cursorAt (s1 ++ s2) (length s1) = Cursor (rev s1) s2.
Proof.
  unfold cursorAt. by rewrite take_app_length, drop_app_length.
Qed.

(** What [search] answers when it is not -1. *)
Lemma search_nat r s i :
  search r s = Z.of_nat i →
  i ≤ length s
  ∧ matchesAt r (cursorAt s i) = true
  ∧ ∀ j, j < i → matchesAt r (cursorAt s j) = false.
Proof.
  unfold search. destruct (scan r [] s) as [m|] eqn:Hscan; [|lia].
  intros Hi. apply Nat2Z.inj in Hi. subst i.
  apply scan_Some in Hscan as (skipped & rest & y & -> & Hi & Hy & _ & Hmin).
  simpl in Hi. rewrite Hi, app_nil_r in *. split_and!.
  - rewrite length_app. lia.
  - rewrite cursorAt_app. unfold matchesAt. by rewrite Hy.
  - intros j Hj.
    destruct (lookup_lt_is_Some_2 skipped j Hj) as [a Ha].
    pose proof (take_drop_middle skipped j a Ha) as Hsplit.
    specialize (Hmin (take j skipped) a (drop (S j) skipped) (eq_sym Hsplit)).
    assert (length (take j skipped) = j) as Hlen
      by (rewrite length_take; lia).
    clear Ha Hj Hy Hi. revert Hsplit Hmin Hlen.
    generalize (take j skipped) (drop (S j) skipped).
    intros s1 s2 <- Hmin <-. rewrite app_nil_r in Hmin.
    rewrite <- app_assoc. simpl. by rewrite cursorAt_app.
Qed.

End FirstSectionFacts.

(** C3, as amended.  With top placement, when the pattern of
    [modifyCode] finds a line in the comment-hidden page code, the page
    code itself is split at the index of the first such line: the new
    page code is the code before that index, the comment, one line feed
    and the code from that index on.  The line found is the first line
    that starts with [=] and has another [=] further on: a heading of
    any level. *)
Theorem modifyCode_top :
  ∀ (hideHtmlComments : jsstring → jsstring)
    (pageCode commentCode : jsstring) (i : nat),
    RegExp.search Page.firstSectionRegexp (hideHtmlComments pageCode)
      = Z.of_nat i →
    let r := Page.modifyCode hideHtmlComments pageCode commentCode true in
    Page.codeBeforeInsertion r = take i pageCode
    ∧ Page.newPageCode r
      = take i pageCode ++ commentCode ++ [Page.LF] ++ drop i pageCode
    ∧ i ≤ length (hideHtmlComments pageCode)
    ∧ PageSpec.startsHeadingLike
        (PageSpec.cursorAt (hideHtmlComments pageCode) i) = true
    ∧ ∀ j, j < i →
        PageSpec.startsHeadingLike
          (PageSpec.cursorAt (hideHtmlComments pageCode) j) = false.
Proof.
  intros hide pageCode commentCode i Hsearch r. subst r.
  unfold Page.modifyCode. simpl. rewrite Hsearch.
  rewrite PageFacts.slice_to_nat, PageFacts.sliceFrom_nat.
  apply FirstSectionFacts.search_nat in Hsearch as (Hle & Hat & Hmin).
  rewrite FirstSectionFacts.matchesAt_firstSection in Hat.
  split_and!; try done.
  intros j Hj. rewrite <- FirstSectionFacts.matchesAt_firstSection. by apply Hmin.
Qed.

Lemma modifyCode_top_witness :
  let pageCode := Sample.lines ["intro"; "=== Sub ==="; "== Top =="]%string in
  Page.newPageCode
    (Page.modifyCode Page.hideHtmlComments_spec pageCode (js "C") true)
  = take 6 pageCode ++ js "C" ++ [Page.LF] ++ drop 6 pageCode.
Proof.
  intros pageCode.
  refine (proj1 (proj2 (modifyCode_top Page.hideHtmlComments_spec pageCode
                          (js "C") 6 _))).
  vm_compute. reflexivity.
Defined.

(** C3 as stated fails: a heading of a deeper level above the first
    [== heading ==] line is where the code is split. *)
Lemma modifyCode_top_deeper_heading :
  let pageCode := Sample.lines ["=== Sub ==="; "== Top =="]%string in
  Page.newPageCode
    (Page.modifyCode Page.hideHtmlComments_spec pageCode (js "C") true)
  = Sample.lines ["C"; "=== Sub ==="; "== Top =="]%string
  ∧ PageSpec.specifiedTopCode Page.hideHtmlComments_spec pageCode (js "C")
    = Some (Sample.lines ["=== Sub ==="; "C"; "== Top =="]%string)
  ∧ Some (Page.newPageCode
            (Page.modifyCode Page.hideHtmlComments_spec pageCode (js "C") true))
    ≠ PageSpec.specifiedTopCode Page.hideHtmlComments_spec pageCode (js "C").
Proof.
  intros pageCode. split_and!; [vm_compute; reflexivity..|].
  vm_compute. discriminate.
Qed.

(* ===================================================================== *)
(** ** Page.js: the placement of new topics                               *)
(* ===================================================================== *)

Module PlacementFacts.
Import JsString RegExp RegExpSemantics RegExpFacts Page PageSpec.

Section WithCollaborators.
Variable findFirstTimestamp : jsstring → option jsstring.
Variable parseTimestamp : jsstring → option Z.
Variable code : jsstring.

Lemma tallyStep_dated previousDate difference m date :
  firstDate findFirstTimestamp parseTimestamp code m = Some date →
  tallyStep findFirstTimestamp parseTimestamp code
    (previousDate, difference) m
  = (Some date, (difference + tally (option_list previousDate ++ [date]))%Z).
Proof using Type.
  intros H. unfold tallyStep. rewrite H.
  destruct previousDate; simpl; f_equal; lia.
Qed.

Lemma tallyStep_undated previousDate difference m :
  firstDate findFirstTimestamp parseTimestamp code m = None →
  tallyStep findFirstTimestamp parseTimestamp code
    (previousDate, difference) m
  = (previousDate, difference).
Proof using Type. intros H. unfold tallyStep. by rewrite H. Qed.

(** The loop of [analyzeNewTopicPlacement] computes [tally] over the
    dates of the headings that have one. *)
Lemma tallyStep_fold headings previousDate difference :
  (fold_left (tallyStep findFirstTimestamp parseTimestamp code) headings
     (previousDate, difference)).2
  = (difference
     + tally (option_list previousDate
              ++ omap (firstDate findFirstTimestamp parseTimestamp code)
                   headings))%Z.
Proof using Type.
  revert previousDate difference.
  induction headings as [|m headings IH]; intros previousDate difference.
  - simpl. rewrite app_nil_r. destruct previousDate; simpl; lia.
  - cbn [fold_left omap list_omap].
    destruct (firstDate findFirstTimestamp parseTimestamp code m)
      as [date|] eqn:Hdate.
    + rewrite (tallyStep_dated _ _ _ _ Hdate), IH.
      destruct previousDate as [previous|]; simpl.
      * destruct (omap _ headings); simpl; lia.
      * lia.
    + rewrite (tallyStep_undated _ _ _ Hdate). apply IH.
Qed.

End WithCollaborators.

Lemma rem_2_even n : (Z.rem n 2 =? 0)%Z = Z.even n.
Proof.
  destruct (Z.even n) eqn:He.
  - apply Z.eqb_eq. apply Z.even_spec in He as [k ->].
    rewrite Z.mul_comm. by apply Z.rem_mul.
  - apply Z.eqb_neq. intros Hr.
    apply Z.rem_divide in Hr as [k Hk]; [|done].
    assert (Z.even n = true) as He'.
    { apply Z.even_spec. exists k. lia. }
    congruence.
Qed.

Lemma gtb_ltb a b : (a >? b)%Z = (b <? a)%Z.
Proof. apply Z.gtb_ltb. Qed.

End PlacementFacts.

(** C2, as amended.  For a page whose code is set and has at least one
    section heading, and whose site override is undefined,
    [analyzeNewTopicPlacement] records the index of the first heading
    and decides the placement from a tally over the headings that have
    a date, in document order, each date compared with the one of the
    dated heading before it (undated headings in between are passed
    over): one down when the later heading's date is newer, one up
    otherwise (equal dates included).  New topics are on top when the
    tally is positive, not on top when it is negative, and on top exactly
    for an even namespace when it is zero. *)
Theorem analyzeNewTopicPlacement_tally :
  ∀ (hideHtmlComments : jsstring → jsstring)
    (findFirstTimestamp : jsstring → option jsstring)
    (parseTimestamp : jsstring → option Z)
    (configAreNewTopicsOnTop : option (jsstring → jsstring → option bool))
    (p : Page.Page) (code : jsstring) (first : RegExp.rmatch),
    Page.code p = Some code →
    Page.siteOverride configAreNewTopicsOnTop p code = None →
    RegExp.exec Page.sectionHeadingRegexp (hideHtmlComments code) 0
      = Some first →
    ∃ headings,
      RegExpSemantics.execAll Page.sectionHeadingRegexp
        (hideHtmlComments code) (S (length (hideHtmlComments code))) 0
        = Some (first :: headings)
      ∧ Page.analyzeNewTopicPlacement hideHtmlComments findFirstTimestamp
          parseTimestamp configAreNewTopicsOnTop p
        = Returns
            (Page.MkPage (Page.name p) (Page.namespace p) (Some code)
               (Some
                  (PageSpec.placement (Page.namespace p)
                     (PageSpec.tally
                        (omap (Page.firstDate findFirstTimestamp
                                 parseTimestamp code)
                           (first :: headings)))))
               (Some (RegExp.mindex first))).
Proof.
  intros hide find parse cfg p code first Hcode Hover Hexec.
  destruct (RegExpFacts.execAll_total Page.sectionHeadingRegexp (hide code)
              (S (length (hide code))) 0) as [ms Hms]; [done|lia|lia|].
  pose proof Hms as Hms'. simpl in Hms'. rewrite Hexec in Hms'.
  destruct (RegExpSemantics.execAll _ _ _ (RegExp.mend first))
    as [headings|] eqn:Hrest; [|done].
  simpl in Hms'. injection Hms' as <-.
  exists headings. split; [done|].
  unfold Page.analyzeNewTopicPlacement.
  rewrite Hcode, Hover, Hexec, RegExpFacts.exec_loop_execAll, Hms.
  cbn [fmap option_fmap option_map].
  pose proof (PlacementFacts.tallyStep_fold find parse code
                (first :: headings) None 0%Z) as Hfold.
  destruct (fold_left _ (first :: headings) (None, 0%Z))
    as [previousDate difference] eqn:Hloop.
  cbn [snd option_list app] in Hfold. rewrite Z.add_0_l in Hfold.
  rewrite Hfold. unfold PageSpec.placement.
  by rewrite PlacementFacts.rem_2_even, PlacementFacts.gtb_ltb.
Qed.

Lemma analyzeNewTopicPlacement_tally_witness :
  let code := Sample.lines
                ["== A =="; "@30"; "== B =="; "@20"; "== C =="; "@10"]%string in
  ∃ first headings,
    RegExp.exec Page.sectionHeadingRegexp (Page.hideHtmlComments_spec code) 0
      = Some first
    ∧ omap (Page.firstDate Sample.findFirstTimestamp Sample.parseTimestamp code)
        (first :: headings) = [30; 20; 10]%Z
    ∧ Page.analyzeNewTopicPlacement Page.hideHtmlComments_spec
        Sample.findFirstTimestamp Sample.parseTimestamp None
        (Page.MkPage (js "Talk:X") 1 (Some code) None None)
      = Returns
          (Page.MkPage (js "Talk:X") 1 (Some code)
             (Some
                (PageSpec.placement 1
                   (PageSpec.tally
                      (omap (Page.firstDate Sample.findFirstTimestamp
                               Sample.parseTimestamp code)
                         (first :: headings)))))
             (Some (RegExp.mindex first))).
Proof.
  intros code.
  destruct (analyzeNewTopicPlacement_tally Page.hideHtmlComments_spec
              Sample.findFirstTimestamp Sample.parseTimestamp None
              (Page.MkPage (js "Talk:X") 1 (Some code) None None) code
              (RegExp.RMatch 0 8 []) eq_refl eq_refl eq_refl)
    as [headings [Hall Hrun]].
  exists (RegExp.RMatch 0 8 []), headings. split; [reflexivity|].
  split; [|exact Hrun].
  vm_compute in Hall. injection Hall as <-. reflexivity.
Defined.

(** C2 as stated fails.  On the first page the middle section has no
    date, so no pair of consecutive sections can be compared, yet the
    code compares the third section with the first and puts new topics
    on top in an odd namespace.  On the second page the first section
    has no timestamp of its own, so the first timestamp after its
    heading is the one of the second section (the code is searched from
    the heading to the end of the page); the two dates are equal, which
    the code counts as newest first. *)
Lemma analyzeNewTopicPlacement_not_sectionTally :
  let run := λ code,
    Page.analyzeNewTopicPlacement Page.hideHtmlComments_spec
      Sample.findFirstTimestamp Sample.parseTimestamp None
      (Page.MkPage (js "Talk:X") 1 (Some code) None None) in
  let specified :=
    PageSpec.specifiedPlacement Page.hideHtmlComments_spec
      Sample.findFirstTimestamp Sample.parseTimestamp 1 in
  let gap := Sample.lines
               ["== A =="; "@3"; "== B =="; "@x"; "== C =="; "@1"]%string in
  let tie := Sample.lines ["== A =="; "== B =="; "@5"]%string in
  (run gap = Returns (Page.MkPage (js "Talk:X") 1 (Some gap) (Some true) (Some 0))
   ∧ specified gap = Some false)
  ∧ (run tie = Returns (Page.MkPage (js "Talk:X") 1 (Some tie) (Some true) (Some 0))
     ∧ specified tie = Some false).
Proof. vm_compute. split_and!; reflexivity. Qed.

(* ===================================================================== *)
(** ** Autocomplete.js: [search]                                          *)
(* ===================================================================== *)

Module SearchFacts.
Import JsString RegExp RegExpSemantics RegExpFacts Autocomplete
  AutocompleteSpec.

Lemma matcher_literal_i text :
  ∀ bef aft c k,
    matcher (literal_i text) (Cursor bef aft) c k
    = if isPrefixCI text aft
      then k (Cursor (rev (take (length text) aft) ++ bef)
                (drop (length text) aft)) c
      else None.
Proof.
  induction text as [|b text IH]; intros bef aft c k.
  - simpl. by rewrite drop_0.
  - unfold literal_i. cbn [fold_right matcher after before].
    fold (literal_i text). destruct aft as [|a aft]; [done|].
    cbn [isPrefixCI].
    destruct (eqb (canonicalize a) (canonicalize b)); [|done].
    cbn [andb]. rewrite IH. simpl.
    destruct (isPrefixCI text aft); [|done].
    by rewrite <- app_assoc.
Qed.

Lemma test_contains text item :
  test (containsRegexp text) item = isInfixCI text item.
Proof.
  unfold test, containsRegexp. generalize (@nil ascii) as bef.
  induction item as [|a item IH]; intros bef; cbn [scan isInfixCI].
  - rewrite matcher_literal_i. unfold accept.
    by destruct (isPrefixCI text []).
  - rewrite matcher_literal_i. unfold accept.
    destruct (isPrefixCI text (a :: item)); [done|]. apply IH.
Qed.

Lemma scan_InputStart_later r b bef aft :
  scan (Cat InputStart r) (b :: bef) aft = None.
Proof.
  revert b bef. induction aft as [|a aft IH]; intros b bef; simpl; [done|].
  apply IH.
Qed.

Lemma test_startsWith text item :
  test (startsWithRegexp text) item = isPrefixCI text item.
Proof.
  unfold test, startsWithRegexp.
  destruct item as [|a item]; cbn [scan matcher before];
    rewrite matcher_literal_i; unfold accept.
  - by destruct (isPrefixCI text []).
  - destruct (isPrefixCI text (a :: item)); [done|].
    by rewrite scan_InputStart_later.
Qed.





(** A stable sort by a two-class comparison puts the first class, in
    its order, in front of the second class, in its order. *)
Section TwoClasses.
Context {A : Type} (first : A → bool) (compare : A → A → Z).
Hypothesis compare_spec :
  ∀ x y, (compare x y >? 0)%Z = negb (first x) && first y.

Lemma sortInsert_first x l :
  first x = true → sortInsert compare x l = x :: l.
Proof using compare_spec.
  intros Hx. destruct l as [|y l]; simpl; [done|].
  by rewrite compare_spec, Hx.
Qed.

Lemma sortInsert_second x l1 l2 :
  first x = false →
  Forall (λ y, first y = true) l1 → Forall (λ y, first y = false) l2 →
  sortInsert compare x (l1 ++ l2) = l1 ++ x :: l2.
Proof using compare_spec.
  intros Hx H1 H2. induction H1 as [|y l1 Hy _ IH]; simpl.
  - destruct H2 as [|y l2 Hy _]; simpl; [done|].
    by rewrite compare_spec, Hx, Hy.
  - by rewrite compare_spec, Hx, Hy, IH.
Qed.

Lemma sort_two_classes l :
  sort compare l
  = filter (λ x, first x = true) l ++ filter (λ x, first x = false) l.
Proof using compare_spec.
  induction l as [|x l IH]; simpl; [done|]. rewrite IH.
  rewrite !filter_cons. destruct (first x) eqn:Hx.
  - rewrite decide_True by done. rewrite decide_False by done.
    by apply sortInsert_first.
  - rewrite decide_False by done. rewrite decide_True by done.
    apply sortInsert_second; [done|..];
      apply Forall_forall; by intros y [Hy _]%list_elem_of_filter.
Qed.
End TwoClasses.

Lemma compareStartsWith_spec text x y :
  (compareStartsWith text x y >? 0)%Z
  = negb (isPrefixCI text x) && isPrefixCI text y.
Proof.
  unfold compareStartsWith. rewrite !test_startsWith.
  by destruct (isPrefixCI text x), (isPrefixCI text y).
Qed.

Lemma search_two_classes text items :
  search text items
  = filter (λ item, isPrefixCI text item = true)
      (filter (λ item, isInfixCI text item = true) items)
    ++ filter (λ item, isPrefixCI text item = false)
         (filter (λ item, isInfixCI text item = true) items).
Proof.
  unfold search.
  rewrite (sort_two_classes (isPrefixCI text) _ (compareStartsWith_spec text)).
  assert (filter (λ item, test (containsRegexp text) item = true) items
          = filter (λ item, isInfixCI text item = true) items) as ->; [|done].
  induction items as [|x l IH]; [done|]. rewrite !filter_cons, IH.
  rewrite test_contains. by destruct (isInfixCI text x).
Qed.

End SearchFacts.


(* ===================================================================== *)
(** ** Autocomplete.js: the channels                                      *)
(* ===================================================================== *)

Module ChannelFacts.
Import JsString RegExp RegExpSemantics RegExpFacts Autocomplete
  AutocompleteSpec.

Lemma test_Char p s : test (Char p) s = existsb p s.
Proof.
  unfold test. generalize (@nil ascii) as bef.
  induction s as [|a s IH]; intros bef; simpl; [done|].
  destruct (p a); simpl; [done|]. apply IH.
Qed.

Lemma includes_head s m p : includes s (m :: p) = true → m ∈ s.
Proof.
  induction s as [|a s IH]; simpl; [done|].
  intros [H|H]%orb_true_iff.
  - apply andb_true_iff in H as [->%eqb_eq _]. by left.
  - right. by apply IH.
Qed.

Lemma hasOneOf_false chars text m :
  hasOneOf chars text = false → m ∈ chars → m ∉ text.
Proof.
  unfold hasOneOf, oneOf. rewrite test_Char. intros Hnone Hm Hin.
  assert (existsb (λ a, existsb (eqb a) chars) text = true) as Hsome;
    [|congruence].
  apply existsb_exists. exists m. split; [by apply list_elem_of_In|].
  apply existsb_exists. exists m. split; [by apply list_elem_of_In|].
  apply eqb_refl.
Qed.

Section WithCollaborators.
Variable removeDuplicates : names → names.
Variable userNamespace : jsstring.
Variable colonNamespacesRegexp : jsstring → bool.
Variable colonNamespacesPrefixRegexp : jsstring → bool.
Variable currentUserName : jsstring.
Variable defaultUserNames : list jsstring.

Local Abbreviation values :=
  (values removeDuplicates userNamespace colonNamespacesRegexp
     colonNamespacesPrefixRegexp currentUserName defaultUserNames).
Local Abbreviation respond :=
  (respond removeDuplicates userNamespace colonNamespacesRegexp
     colonNamespacesPrefixRegexp currentUserName defaultUserNames).
Local Abbreviation resume :=
  (resume removeDuplicates userNamespace colonNamespacesRegexp
     currentUserName).
Local Abbreviation step :=
  (step removeDuplicates userNamespace colonNamespacesRegexp
     colonNamespacesPrefixRegexp currentUserName defaultUserNames).
Local Abbreviation run :=
  (run removeDuplicates userNamespace colonNamespacesRegexp
     colonNamespacesPrefixRegexp currentUserName defaultUserNames).
Local Abbreviation prepareValues :=
  (prepareValues removeDuplicates userNamespace colonNamespacesRegexp).
Local Abbreviation isLikelyName := (isLikelyName colonNamespacesPrefixRegexp).
Local Abbreviation normalize := (normalize colonNamespacesPrefixRegexp).

Local Abbreviation stored := (stored currentUserName).

Lemma resume_resolved k ch text values :
  resume k ch text (Resolved values)
  = (Channel (snapshot ch) (stored k values)
       (<[text := setTenth (Some <$> stored k values) (trim text)]>
          (byText ch)),
     if bool_decide (snapshot ch = Some text)
     then [prepareValues k
             (setTenth (Some <$> stored k values) (trim text))]
     else []).
Proof using Type.
  unfold Autocomplete.resume, AutocompleteSpec.stored. simpl.
  by destruct (bool_decide (snapshot ch = Some text)).
Qed.

Lemma resume_delivered k ch text answer :
  (resume k ch text answer).2 ≠ [] → snapshot ch = Some text.
Proof using Type.
  destruct answer as [values|]; [|done].
  rewrite resume_resolved. simpl.
  destruct (bool_decide (snapshot ch = Some text)) eqn:H; [|done].
  intros _. by apply bool_decide_eq_true in H.
Qed.

Lemma resume_stale k ch text answer :
  snapshot ch ≠ Some text → (resume k ch text answer).2 = [].
Proof using Type.
  intros Hne. destruct answer as [values|]; [|done].
  rewrite resume_resolved. simpl.
  by rewrite bool_decide_eq_false_2.
Qed.

(** [values] in one piece. *)
Lemma values_unfold k ch text :
  values k ch text
  = if nonEmpty text && suppressed k ch text then (ch, silent)
    else
      let t := normalize k text in
      let ch2 :=
        Channel (Some t)
          (if startsWithSnapshot t ch then cache ch else [])
          (byText ch) in
      (ch2, respond k ch2 t).
Proof using Type.
  unfold Autocomplete.values, suppressed, AutocompleteSpec.normalize.
  destruct k; simpl.
  - destruct (nonEmpty text && bool_decide (snapshot ch = Some text));
      [done|]. by destruct (startsWithSnapshot text ch).
  - rewrite andb_false_r.
    by destruct (colonNamespacesPrefixRegexp text), (startsWithSnapshot _ ch).
  - rewrite andb_false_r. by destruct (startsWithSnapshot text ch).
Qed.

Lemma values_snapshot k ch text :
  snapshot (values k ch text).1 = Some (normalize k text).
Proof using Type.
  rewrite values_unfold.
  destruct (nonEmpty text && suppressed k ch text) eqn:H; [|done].
  apply andb_true_iff in H as [_ H]. destruct k; try done.
  simpl in *. by apply bool_decide_eq_true in H.
Qed.

Lemma values_byText k ch text :
  byText (values k ch text).1 = byText ch.
Proof using Type.
  rewrite values_unfold.
  by destruct (nonEmpty text && suppressed k ch text).
Qed.

Lemma respond_request k ch text t' :
  request (respond k ch text) = Some t' →
  t' = text ∧ byText ch !! text = None ∧ isLikelyName k text = true.
Proof using Type.
  unfold Autocomplete.respond, readByText.
  destruct (includes text _); [done|].
  destruct (byText ch !! text) as [memo|]; [done|].
  destruct (bool_decide (text ∈ objectPrototypeNames)); [done|].
  destruct (isLikelyName k text) eqn:Hlikely; destruct k; simpl;
    rewrite ?Hlikely; simpl; try done.
  - destruct (length _ =? 0); [|done]. by intros [= ->].
  - by intros [= ->].
  - by intros [= ->].
Qed.

Lemma values_request k ch text t' :
  request (values k ch text).2 = Some t' →
  t' = normalize k text ∧ byText ch !! t' = None
  ∧ isLikelyName k t' = true.
Proof using Type.
  rewrite values_unfold.
  destruct (nonEmpty text && suppressed k ch text); [done|].
  simpl. intros (-> & H1 & H2)%respond_request. done.
Qed.

Lemma likely_nonEmpty k text :
  isLikelyName k text = true → nonEmpty text = true.
Proof using Type.
  unfold Autocomplete.isLikelyName.
  destruct k; intros H; repeat (apply andb_true_iff in H as [H _]); done.
Qed.

Lemma likely_no_marker k text :
  isLikelyName k text = true → includes text (marker k) = false.
Proof using Type.
  intros Hlikely. destruct (includes text (marker k)) eqn:Hinc; [|done].
  exfalso. unfold Autocomplete.isLikelyName in Hlikely.
  destruct k; simpl in Hinc; apply includes_head in Hinc.
  - apply andb_true_iff in Hlikely as [Hlikely _].
    apply andb_true_iff in Hlikely as [_ Hnone%negb_true_iff].
    refine (hasOneOf_false _ _ _ Hnone _ Hinc). vm_compute.
    repeat (first [by left | right]).
  - apply andb_true_iff in Hlikely as [Hlikely _].
    apply andb_true_iff in Hlikely as [Hlikely _].
    apply andb_true_iff in Hlikely as [_ Hnone%negb_true_iff].
    refine (hasOneOf_false _ _ _ Hnone _ Hinc). vm_compute.
    repeat (first [by left | right]).
  - apply andb_true_iff in Hlikely as [Hlikely _].
    apply andb_true_iff in Hlikely as [_ Hnone%negb_true_iff].
    refine (hasOneOf_false _ _ _ Hnone _ Hinc). vm_compute.
    repeat (first [by left | right]).
Qed.

(** A text whose result is in the memo is answered from it, unless
    the duplicate guard returns first, and starts no lookup. *)
Lemma values_memo k ch text memo :
  byText ch !! normalize k text = Some memo →
  includes (normalize k text) (marker k) = false →
  (values k ch text).2
  = if nonEmpty text && suppressed k ch text then silent
    else Reaction [prepareValues k memo] None false.
Proof using Type.
  intros Hmemo Hmarker. rewrite values_unfold.
  destruct (nonEmpty text && suppressed k ch text); [done|].
  cbn [snd]. unfold Autocomplete.respond, readByText. cbn [byText].
  by rewrite Hmarker, Hmemo.
Qed.

Lemma values_memo_request k ch text memo :
  byText ch !! normalize k text = Some memo →
  request (values k ch text).2 = None.
Proof using Type.
  intros Hmemo.
  destruct (request (values k ch text).2) as [t'|] eqn:Hreq; [|done].
  apply values_request in Hreq as (-> & Hnone & _). congruence.
Qed.

Lemma calls_app text l1 l2 :
  calls text (l1 ++ l2) = calls text l1 + calls text l2.
Proof using Type. unfold calls. by rewrite filter_app, length_app. Qed.

Lemma step_query k w text :
  step k w (Query text)
  = World (values k (chan w) text).1
      (pending w ++ option_list (request (values k (chan w) text).2))
      (lookups w ++ option_list (request (values k (chan w) text).2))
      (shown w ++ map (λ d, (false, text, d))
                    (delivered (values k (chan w) text).2)).
Proof using Type.
  unfold Autocomplete.step.
  destruct (values k (chan w) text) as [ch r]. simpl.
  by destruct (request r).
Qed.

Lemma step_settle k w text answer :
  step k w (Settle text answer)
  = if bool_decide (text ∈ pending w)
    then World (resume k (chan w) text answer).1
           (removeFirst text (pending w)) (lookups w)
           (shown w ++ map (λ d, (true, text, d))
                         (resume k (chan w) text answer).2)
    else w.
Proof using Type.
  unfold Autocomplete.step.
  destruct (bool_decide (text ∈ pending w)); [|done].
  by destruct (resume k (chan w) text answer).
Qed.

(** Once a text has its result in the memo, it stays there and the
    remote collaborator is not called with it again. *)
Lemma step_keeps_memo k w e t' :
  is_Some (byText (chan w) !! t') →
  is_Some (byText (chan (step k w e)) !! t')
  ∧ calls t' (lookups (step k w e)) = calls t' (lookups w).
Proof using Type.
  intros Hmemo. destruct e as [text|text answer].
  - rewrite step_query. simpl. rewrite values_byText. split; [done|].
    rewrite calls_app.
    destruct (request (values k (chan w) text).2) as [t''|] eqn:Hreq;
      simpl; [|unfold calls; simpl; lia].
    apply values_request in Hreq as (_ & Hnone & _).
    unfold calls. rewrite filter_cons, decide_False; [simpl; lia|].
    intros ->. rewrite Hnone in Hmemo. by destruct Hmemo.
  - rewrite step_settle. destruct (bool_decide (text ∈ pending w)); [|done].
    simpl. split; [|done]. destruct answer as [values|]; [|done].
    rewrite resume_resolved. simpl.
    destruct (decide (text = t')) as [->|Hne].
    + rewrite lookup_insert_eq. done.
    + by rewrite lookup_insert_ne.
Qed.

Lemma run_keeps_memo k es w t' :
  is_Some (byText (chan w) !! t') →
  is_Some (byText (chan (run k w es)) !! t')
  ∧ calls t' (lookups (run k w es)) = calls t' (lookups w).
Proof using Type.
  revert w. induction es as [|e es IH]; intros w Hmemo; [done|].
  unfold Autocomplete.run. simpl.
  destruct (step_keeps_memo k w e t' Hmemo) as [Hmemo' Hcalls].
  destruct (IH _ Hmemo') as [Hmemo'' Hcalls'].
  unfold Autocomplete.run in *. split; [done|]. lia.
Qed.

(** The callback calls a query makes are not marked as coming from a
    lookup. *)
Lemma step_query_shown k w text :
  Forall (λ entry, entry.1.1 = false) (shown w) →
  Forall (λ entry, entry.1.1 = false) (shown (step k w (Query text))).
Proof using Type.
  intros H. rewrite step_query. simpl. apply Forall_app. split; [done|].
  apply Forall_forall. intros entry Hin%list_elem_of_In.
  apply in_map_iff in Hin as (d & <- & _). done.
Qed.

Lemma step_settle_stale k w text answer :
  snapshot (chan w) ≠ Some text →
  shown (step k w (Settle text answer)) = shown w.
Proof using Type.
  intros Hne. rewrite step_settle.
  destruct (bool_decide (text ∈ pending w)); [|done]. simpl.
  rewrite resume_stale by done. simpl. by rewrite app_nil_r.
Qed.

End WithCollaborators.

End ChannelFacts.

(** C1.  The result of a remote lookup for [text] reaches the callback
    only if the snapshot of the channel is [text] when the lookup
    settles; when a later query has put another text in the snapshot,
    the settling lookup calls no callback.  Asking "Ja", then "Jack",
    then letting the lookup for "Ja" settle, leaves no callback call
    that came from a lookup. *)
Theorem remote_result_needs_live_snapshot :
  ∀ (removeDuplicates : Autocomplete.names → Autocomplete.names)
    (userNamespace : jsstring)
    (colonNamespacesRegexp colonNamespacesPrefixRegexp : jsstring → bool)
    (currentUserName : jsstring) (defaultUserNames : list jsstring)
    (k : Autocomplete.kind) (ch : Autocomplete.channel) (text : jsstring)
    (answer : settled (list jsstring)),
    let resume :=
      Autocomplete.resume removeDuplicates userNamespace colonNamespacesRegexp
        currentUserName k in
    let step :=
      Autocomplete.step removeDuplicates userNamespace colonNamespacesRegexp
        colonNamespacesPrefixRegexp currentUserName defaultUserNames k in
    let run :=
      Autocomplete.run removeDuplicates userNamespace colonNamespacesRegexp
        colonNamespacesPrefixRegexp currentUserName defaultUserNames k in
    ((resume ch text answer).2 ≠ [] → Autocomplete.snapshot ch = Some text)
    ∧ (Autocomplete.snapshot ch ≠ Some text → (resume ch text answer).2 = [])
    ∧ (∀ w, Autocomplete.snapshot (Autocomplete.chan w) ≠ Some text →
            Autocomplete.shown (step w (Autocomplete.Settle text answer))
            = Autocomplete.shown w)
    ∧ (∀ values,
         Forall (λ entry, entry.1.1 = false)
           (Autocomplete.shown
              (run Autocomplete.newWorld
                 [ Autocomplete.Query (js "Ja");
                   Autocomplete.Query (js "Jack");
                   Autocomplete.Settle (js "Ja") (Resolved values) ]))).
Proof.
  intros rd un cnr cnpr cu dun k ch text answer resume step run.
  subst resume step run. split_and!.
  - apply ChannelFacts.resume_delivered.
  - apply ChannelFacts.resume_stale.
  - intros w. apply ChannelFacts.step_settle_stale.
  - intros values. unfold Autocomplete.run. cbn [fold_left].
    rewrite ChannelFacts.step_settle_stale.
    + do 2 apply ChannelFacts.step_query_shown. constructor.
    + rewrite ChannelFacts.step_query. cbn [Autocomplete.chan].
      rewrite ChannelFacts.values_snapshot.
      unfold AutocompleteSpec.normalize.
      destruct k; try discriminate.
      destruct (cnpr (js "Jack")); vm_compute; discriminate.
Qed.

Lemma remote_result_needs_live_snapshot_witness :
  let run :=
    Autocomplete.run id (js "User") (λ _, false) (λ _, false) (js "Me") []
      Autocomplete.Mentions in
  let w2 := run Autocomplete.newWorld
              [Autocomplete.Query (js "Ja"); Autocomplete.Query (js "Jack")] in
  Autocomplete.pending w2 = [js "Ja"; js "Jack"]
  ∧ Autocomplete.snapshot (Autocomplete.chan w2) = Some (js "Jack")
  ∧ (Autocomplete.resume id (js "User") (λ _, false) (js "Me")
       Autocomplete.Mentions (Autocomplete.chan w2) (js "Ja")
       (Resolved [js "Jane"])).2 = [].
Proof.
  intros run w2. split; [reflexivity|]. split; [reflexivity|].
  refine (proj1 (proj2 (remote_result_needs_live_snapshot id (js "User")
            (λ _, false) (λ _, false) (js "Me") [] Autocomplete.Mentions
            (Autocomplete.chan w2) (js "Ja") (Resolved [js "Jane"]))) _).
  vm_compute. discriminate.
Defined.

(** C5, as amended.  When a remote lookup for [text] resolves after the
    snapshot of the channel has changed to another text, the result is
    not delivered to the callback, but it is stored all the same: the
    cache becomes the result (without the current user, for mentions)
    and [byText[text]] becomes the result with the typed text in the
    tenth slot; the snapshot stays.  Storing happens for every resolved
    lookup; only the delivery depends on the snapshot. *)
Theorem stale_result_is_stored :
  ∀ (removeDuplicates : Autocomplete.names → Autocomplete.names)
    (userNamespace : jsstring) (colonNamespacesRegexp : jsstring → bool)
    (currentUserName : jsstring)
    (k : Autocomplete.kind) (ch : Autocomplete.channel) (text : jsstring)
    (values : list jsstring),
    Autocomplete.snapshot ch ≠ Some text →
    Autocomplete.resume removeDuplicates userNamespace colonNamespacesRegexp
      currentUserName k ch text (Resolved values)
    = (Autocomplete.Channel (Autocomplete.snapshot ch)
         (AutocompleteSpec.stored currentUserName k values)
         (<[text := Autocomplete.setTenth
                      (Some <$> AutocompleteSpec.stored currentUserName k values)
                      (JsString.trim text)]> (Autocomplete.byText ch)),
       []).
Proof.
  intros rd un cnr cu k ch text values Hstale.
  rewrite ChannelFacts.resume_resolved.
  by rewrite bool_decide_eq_false_2.
Qed.

Lemma stale_result_is_stored_witness :
  Autocomplete.resume id (js "User") (λ _, false) (js "Me")
    Autocomplete.Mentions
    (Autocomplete.Channel (Some (js "Jack")) [] ∅) (js "Ja")
    (Resolved [js "Jane"; js "Me"])
  = (Autocomplete.Channel (Some (js "Jack")) [js "Jane"]
       (<[js "Ja" := Autocomplete.setTenth [Some (js "Jane")] (js "Ja")]> ∅),
     []).
Proof.
  apply (stale_result_is_stored id (js "User") (λ _, false) (js "Me")
           Autocomplete.Mentions
           (Autocomplete.Channel (Some (js "Jack")) [] ∅) (js "Ja")
           [js "Jane"; js "Me"]).
  simpl. discriminate.
Defined.

(** C5 as stated fails: after "Ja" and "Jack" were asked, the lookup for
    "Ja" resolves while the snapshot is "Jack"; the cache and the memo
    of the channel change. *)
Lemma stale_result_changes_cache_and_memo :
  let ch :=
    Autocomplete.chan
      (Autocomplete.run id (js "User") (λ _, false) (λ _, false) (js "Me") []
         Autocomplete.Mentions Autocomplete.newWorld
         [Autocomplete.Query (js "Ja"); Autocomplete.Query (js "Jack")]) in
  let ch' :=
    (Autocomplete.resume id (js "User") (λ _, false) (js "Me")
       Autocomplete.Mentions ch (js "Ja") (Resolved [js "Jane"])).1 in
  Autocomplete.snapshot ch = Some (js "Jack")
  ∧ (Autocomplete.cache ch = [] ∧ Autocomplete.cache ch' = [js "Jane"])
  ∧ (Autocomplete.byText ch !! js "Ja" = None
     ∧ Autocomplete.byText ch' !! js "Ja"
       = Some (Autocomplete.setTenth [Some (js "Jane")] (js "Ja")))
  ∧ Autocomplete.cache ch' ≠ Autocomplete.cache ch
  ∧ Autocomplete.byText ch' ≠ Autocomplete.byText ch.
Proof.
  intros ch ch'. split_and!; try (vm_compute; reflexivity).
  - vm_compute. discriminate.
  - intros H. apply (f_equal (λ m, m !! js "Ja")) in H.
    vm_compute in H. discriminate.
Qed.

(** C6, as amended.  When a query for [text] starts a remote lookup and
    the lookup's result has been stored, then, whatever happens on the
    channel in between, a repeat of the query starts no lookup, so the
    two queries make one call to the remote collaborator; the repeat is
    answered from the memo with one callback call, except on the
    mentions channel while the snapshot still is that text, where the
    duplicate guard returns without calling the callback. *)
Theorem memoized_text_starts_no_second_lookup :
  ∀ (removeDuplicates : Autocomplete.names → Autocomplete.names)
    (userNamespace : jsstring)
    (colonNamespacesRegexp colonNamespacesPrefixRegexp : jsstring → bool)
    (currentUserName : jsstring) (defaultUserNames : list jsstring)
    (k : Autocomplete.kind) (w : Autocomplete.world) (text asked : jsstring)
    (values : list jsstring) (between : list Autocomplete.event),
    let step :=
      Autocomplete.step removeDuplicates userNamespace colonNamespacesRegexp
        colonNamespacesPrefixRegexp currentUserName defaultUserNames k in
    let run :=
      Autocomplete.run removeDuplicates userNamespace colonNamespacesRegexp
        colonNamespacesPrefixRegexp currentUserName defaultUserNames k in
    Autocomplete.request
      (Autocomplete.values removeDuplicates userNamespace
         colonNamespacesRegexp colonNamespacesPrefixRegexp currentUserName
         defaultUserNames k (Autocomplete.chan w) text).2 = Some asked →
    let w1 := step w (Autocomplete.Query text) in
    let w2 := step w1 (Autocomplete.Settle asked (Resolved values)) in
    let w3 := run w2 between in
    let w4 := step w3 (Autocomplete.Query text) in
    Autocomplete.lookups w1 = Autocomplete.lookups w ++ [asked]
    ∧ Autocomplete.lookups w4 = Autocomplete.lookups w3
    ∧ AutocompleteSpec.calls asked (Autocomplete.lookups w4)
      = S (AutocompleteSpec.calls asked (Autocomplete.lookups w))
    ∧ ∃ memo,
        Autocomplete.byText (Autocomplete.chan w3) !! asked = Some memo
        ∧ Autocomplete.shown w4
          = Autocomplete.shown w3
            ++ if AutocompleteSpec.suppressed k (Autocomplete.chan w3) text
               then []
               else [(false, text,
                      Autocomplete.prepareValues removeDuplicates
                        userNamespace colonNamespacesRegexp k memo)].
Proof.
  intros rd un cnr cnpr cu dun k w text asked values between step run Hreq
    w1 w2 w3 w4.
  pose proof Hreq as Hreq'.
  apply ChannelFacts.values_request in Hreq' as (Hasked & Hnone & Hlikely).
  assert (Autocomplete.lookups w1 = Autocomplete.lookups w ++ [asked]) as H1.
  { subst w1 step. rewrite ChannelFacts.step_query. simpl. by rewrite Hreq. }
  assert (Autocomplete.pending w1 = Autocomplete.pending w ++ [asked]) as Hp1.
  { subst w1 step. rewrite ChannelFacts.step_query. simpl. by rewrite Hreq. }
  assert (is_Some (Autocomplete.byText (Autocomplete.chan w2) !! asked)
          ∧ Autocomplete.lookups w2 = Autocomplete.lookups w1) as [Hm2 H2].
  { subst w2 step. rewrite ChannelFacts.step_settle.
    rewrite bool_decide_eq_true_2
      by (rewrite Hp1; apply elem_of_app; right; by left).
    rewrite ChannelFacts.resume_resolved. simpl.
    by rewrite lookup_insert_eq. }
  destruct (ChannelFacts.run_keeps_memo rd un cnr cnpr cu dun k between w2
              asked Hm2) as [[memo Hm3] H3].
  fold run in Hm3, H3. fold w3 in Hm3, H3.
  assert (Autocomplete.request
            (Autocomplete.values rd un cnr cnpr cu dun k
               (Autocomplete.chan w3) text).2 = None) as Hnoreq.
  { eapply ChannelFacts.values_memo_request. rewrite <- Hasked. exact Hm3. }
  assert (Autocomplete.lookups w4 = Autocomplete.lookups w3) as H4.
  { subst w4 step. rewrite ChannelFacts.step_query. simpl.
    rewrite Hnoreq. simpl. by rewrite app_nil_r. }
  split_and!; [done|done|..].
  - rewrite H4, H3, H2, H1, ChannelFacts.calls_app.
    unfold AutocompleteSpec.calls at 2. rewrite filter_cons, decide_True by done.
    simpl. lia.
  - exists memo. split; [done|]. subst w4 step.
    rewrite ChannelFacts.step_query. simpl.
    rewrite (ChannelFacts.values_memo rd un cnr cnpr cu dun k
               (Autocomplete.chan w3) text memo).
    + assert (Autocomplete.nonEmpty text
              && AutocompleteSpec.suppressed k (Autocomplete.chan w3) text
              = AutocompleteSpec.suppressed k (Autocomplete.chan w3) text) as ->.
      { destruct k; simpl; try apply andb_false_r.
        simpl in Hasked. subst asked.
        by rewrite (ChannelFacts.likely_nonEmpty cnpr _ _ Hlikely). }
      by destruct (AutocompleteSpec.suppressed k (Autocomplete.chan w3) text).
    + by rewrite <- Hasked.
    + rewrite <- Hasked. by eapply ChannelFacts.likely_no_marker.
Qed.

Lemma memoized_text_starts_no_second_lookup_witness :
  let step :=
    Autocomplete.step id (js "User") (λ _, false) (λ _, false) (js "Me") []
      Autocomplete.Wikilinks in
  let run :=
    Autocomplete.run id (js "User") (λ _, false) (λ _, false) (js "Me") []
      Autocomplete.Wikilinks in
  let w3 := run Autocomplete.newWorld
              [ Autocomplete.Query (js "Ja");
                Autocomplete.Settle (js "Ja") (Resolved [js "Jane"]);
                Autocomplete.Query (js "Jack") ] in
  AutocompleteSpec.calls (js "Ja")
    (Autocomplete.lookups (step w3 (Autocomplete.Query (js "Ja"))))
  = 1.
Proof.
  intros step run w3.
  refine (proj1 (proj2 (proj2
    (memoized_text_starts_no_second_lookup id (js "User") (λ _, false)
       (λ _, false) (js "Me") [] Autocomplete.Wikilinks Autocomplete.newWorld
       (js "Ja") (js "Ja") [js "Jane"] [Autocomplete.Query (js "Jack")] _)))).
  reflexivity.
Defined.

(** C6 as stated fails: on the mentions channel a repeat of "Ja" right
    after its result was stored is stopped by the duplicate guard; the
    callback is not called, with the memo or otherwise. *)
Lemma repeated_mention_is_not_answered :
  let w2 :=
    Autocomplete.run id (js "User") (λ _, false) (λ _, false) (js "Me") []
      Autocomplete.Mentions Autocomplete.newWorld
      [ Autocomplete.Query (js "Ja");
        Autocomplete.Settle (js "Ja") (Resolved [js "Jane"]) ] in
  let repeat :=
    (Autocomplete.values id (js "User") (λ _, false) (λ _, false) (js "Me") []
       Autocomplete.Mentions (Autocomplete.chan w2) (js "Ja")).2 in
  Autocomplete.lookups w2 = [js "Ja"]
  ∧ Autocomplete.byText (Autocomplete.chan w2) !! js "Ja"
    = Some (Autocomplete.setTenth [Some (js "Jane")] (js "Ja"))
  ∧ Autocomplete.delivered repeat = []
  ∧ Autocomplete.delivered repeat
    ≠ [Autocomplete.prepareValues id (js "User") (λ _, false)
         Autocomplete.Mentions
         (Autocomplete.setTenth [Some (js "Jane")] (js "Ja"))].
Proof.
  intros w2 repeat. split_and!; try (vm_compute; reflexivity).
  vm_compute. discriminate.
Qed.

(* ===================================================================== *)
(** ** options.js: packing and unpacking the visits                       *)
(* ===================================================================== *)

Module VisitsFacts.
Import JsString RegExp RegExpSemantics RegExpFacts Options OptionsSpec.

(** *** [split] and [join] *)




(** *** [trim] *)

Lemma trimStart_id s :
  match s with a :: _ => isWhiteSpace a = false | [] => True end →
  trimStart s = s.
Proof. destruct s as [|a s]; simpl; [done|]. by intros ->. Qed.

Lemma trim_app_LF s :
  match s with a :: _ => isWhiteSpace a = false | [] => False end →
  match last s with Some a => isWhiteSpace a = false | None => False end →
  trim (s ++ [Page.LF]) = s.
Proof.
  intros Hfirst Hlast. unfold trim, trimEnd.
  rewrite (trimStart_id (s ++ [Page.LF])) by (destruct s; simpl in *; done).
  rewrite rev_app_distr. simpl.
  rewrite trimStart_id; [by rewrite rev_involutive|].
  destruct (rev s) as [|a r] eqn:Hrev.
  - apply (f_equal (@rev _)) in Hrev. rewrite rev_involutive in Hrev.
    by subst s.
  - apply (f_equal (@rev _)) in Hrev. rewrite rev_involutive in Hrev.
    subst s. simpl in Hlast. by rewrite last_snoc in Hlast.
Qed.

(** *** The matcher on one line *)

Lemma between_app bef aft w aft' :
  between (Cursor bef aft) (Cursor (rev w ++ bef) aft') = w.
Proof.
  unfold between, index. simpl. rewrite length_app, length_rev.
  replace (length w + length bef - length bef) with (length (rev w))
    by (rewrite length_rev; lia).
  by rewrite take_app_length, rev_involutive.
Qed.

Lemma repeat_greedy_S body fuel x c k :
  repeat_greedy body (S fuel) x c k
  = match body x c (λ y c', if index x <? index y
                            then repeat_greedy body fuel y c' k else None)
    with
    | Some res => Some res
    | None => k x c
    end.
Proof. done. Qed.

Lemma matcher_Char p bef a aft c k :
  matcher (Char p) (Cursor bef (a :: aft)) c k
  = if p a then k (Cursor (a :: bef) aft) c else None.
Proof. done. Qed.

Lemma matcher_Char_nil p bef c k :
  matcher (Char p) (Cursor bef []) c k = None.
Proof. done. Qed.

Lemma index_step bef a aft :
  (index (Cursor bef (a :: aft)) <? index (Cursor (a :: bef) aft)) = true.
Proof. apply Nat.ltb_lt. unfold index. simpl. lia. Qed.

Lemma between_cons bef aft a w aft' :
  between (Cursor bef aft) (Cursor (rev w ++ a :: bef) aft') = a :: w.
Proof.
  replace (rev w ++ a :: bef) with (rev (a :: w) ++ bef)
    by (simpl; by rewrite <- app_assoc).
  apply between_app.
Qed.

(** A greedy run over a class takes all the code units of the class
    when what follows then matches. *)
Lemma greedy_run p w rest :
  forallb p w = true →
  match rest with a :: _ => p a = false | [] => True end →
  ∀ bef fuel c k res,
    length w < fuel →
    k (Cursor (rev w ++ bef) rest) c = Some res →
    repeat_greedy (matcher (Char p)) fuel (Cursor bef (w ++ rest)) c k
    = Some res.
Proof.
  intros Hw Hrest. induction w as [|a w IH]; intros bef fuel c k res Hfuel Hk.
  - destruct fuel as [|fuel]; [simpl in Hfuel; lia|].
    rewrite repeat_greedy_S. simpl app in *.
    destruct rest as [|a rest].
    + by rewrite matcher_Char_nil.
    + by rewrite matcher_Char, Hrest.
  - destruct fuel as [|fuel]; [simpl in Hfuel; lia|].
    simpl in Hw. apply andb_true_iff in Hw as [Ha Hw].
    rewrite repeat_greedy_S. simpl app.
    rewrite matcher_Char, Ha, index_step.
    rewrite (IH Hw (a :: bef) fuel c k res); [done|simpl in Hfuel; lia|].
    simpl in Hk. by rewrite <- app_assoc in Hk.
Qed.

End VisitsFacts.

Module VisitsLineFacts.
Import JsString RegExp RegExpSemantics RegExpFacts Options OptionsSpec
  VisitsFacts.

Lemma matcher_Cat r1 r2 x c k :
  matcher (Cat r1 r2) x c k = matcher r1 x c (λ y c', matcher r2 y c' k).
Proof. done. Qed.

Lemma matcher_Capture n r x c k :
  matcher (Capture n r) x c k
  = matcher r x c (λ y c', k y ((n, between x y) :: c')).
Proof. done. Qed.

Lemma matcher_Star_greedy r x c k :
  matcher (Star true r) x c k
  = repeat_greedy (matcher r) (S (length (after x))) x c k.
Proof. done. Qed.





End VisitsLineFacts.

Module VisitsLoopFacts.
Import JsString RegExp RegExpSemantics RegExpFacts Options OptionsSpec
  VisitsFacts VisitsLineFacts.

(** *** What a well-formed array gives after [join] *)






Lemma isKey_first key :
  isKey key = true →
  ∃ d rest, key = d :: rest ∧ isDigit d = true.
Proof.
  destruct key as [|d rest]; [done|]. simpl.
  intros [Hd _]%andb_true_iff. by exists d, rest.
Qed.

Lemma digit_not_whitespace d : isDigit d = true → isWhiteSpace d = false.
Proof.
  unfold isDigit, isWhiteSpace. intros [H1 H2]%andb_true_iff.
  apply Nat.leb_le in H1, H2.
  repeat (apply orb_false_iff; split); apply Nat.eqb_neq; lia.
Qed.

End VisitsLoopFacts.

Module VisitsRoundTrip.
Import JsString RegExp RegExpSemantics RegExpFacts Options OptionsSpec
  VisitsFacts VisitsLineFacts VisitsLoopFacts.











End VisitsRoundTrip.

Module VisitsTextFacts.
Import JsString RegExp RegExpSemantics RegExpFacts Options OptionsSpec
  VisitsFacts VisitsLineFacts VisitsLoopFacts VisitsRoundTrip.






Lemma lookup_fold_insert (f : jsstring → list jsstring) keys :
  ∀ (acc : visitsObject) i,
    fold_left (λ m (e : entry), <[e.1 := e.2]> m)
      (map (λ key, (key, f key)) keys) acc !! i
    = if decide (i ∈ keys) then Some (f i) else acc !! i.
Proof.
  induction keys as [|k keys IH]; intros acc i.
  - cbn [map fold_left]. rewrite decide_False; [done|apply not_elem_of_nil].
  - cbn [map fold_left fst snd]. rewrite IH.
    destruct (decide (i ∈ keys)) as [Hin|Hnotin].
    + by rewrite decide_True by by right.
    + destruct (decide (i = k)) as [->|Hne].
      * rewrite lookup_insert_eq. by rewrite decide_True by by left.
      * rewrite lookup_insert_ne by done.
        rewrite decide_False; [done|].
        by intros [?|?]%elem_of_cons.
Qed.

Lemma elem_of_keys (visits : visitsObject) key :
  key ∈ (map_to_list visits).*1 ↔ is_Some (visits !! key).
Proof.
  rewrite list_elem_of_fmap. split.
  - intros ([k arr] & -> & Hin). apply elem_of_map_to_list in Hin.
    by exists arr.
  - intros [arr Harr]. exists (key, arr). split; [done|].
    by apply elem_of_map_to_list.
Qed.

End VisitsTextFacts.




(* ===================================================================== *)
(** ** The loops end, and the patterns on sample inputs                   *)
(* ===================================================================== *)

Module Totality.
Import JsString RegExp RegExpSemantics RegExpFacts.

(** The loop of [unpackVisits] ends on every string. *)
Lemma unpackVisits_ends visitsString :
  is_Some (Options.unpackVisits visitsString).
Proof.
  unfold Options.unpackVisits. rewrite exec_loop_execAll.
  destruct (execAll_total Options.visitsRegexp visitsString
              (S (length visitsString)) 0) as [ms Hms]; [done|lia|lia|].
  rewrite Hms. done.
Qed.

(** [analyzeNewTopicPlacement] returns or throws on every page. *)
Lemma analyzeNewTopicPlacement_ends
    (hideHtmlComments : jsstring → jsstring)
    (findFirstTimestamp : jsstring → option jsstring)
    (parseTimestamp : jsstring → option Z)
    (configAreNewTopicsOnTop : option (jsstring → jsstring → option bool))
    (p : Page.Page) :
  Page.analyzeNewTopicPlacement hideHtmlComments findFirstTimestamp
    parseTimestamp configAreNewTopicsOnTop p ≠ Diverges.
Proof.
  unfold Page.analyzeNewTopicPlacement.
  destruct (Page.code p) as [code|]; [|done].
  destruct (execAll_total Page.sectionHeadingRegexp (hideHtmlComments code)
              (S (length (hideHtmlComments code))) 0) as [ms Hms];
    [done|lia|lia|].
  rewrite exec_loop_execAll, Hms. cbn [fmap option_fmap option_map].
  destruct (fold_left _ ms (None, 0%Z)) as [previousDate difference].
  destruct (Page.siteOverride configAreNewTopicsOnTop p code) as [[]|];
    try done;
    by destruct (exec Page.sectionHeadingRegexp (hideHtmlComments code) 0).
Qed.

End Totality.

Module Samples.
Import JsString RegExp.

(** A heading followed by a comment that holds a second [-->]: the lazy
    run inside the comment is extended until the line can end. *)
Example heading_with_comment :
  exec Page.sectionHeadingRegexp
    (Sample.lines ["intro"; "=== Sub ==="; "== Top == <!-- a --> b -->"; "x"]%string)
    0
  = Some (RMatch 18 45 []).
Proof. vm_compute. reflexivity. Qed.

(** The next call starts at [lastIndex] and finds nothing more. *)
Example heading_with_comment_next :
  exec Page.sectionHeadingRegexp
    (Sample.lines ["intro"; "=== Sub ==="; "== Top == <!-- a --> b -->"; "x"]%string)
    45
  = None.
Proof. vm_compute. reflexivity. Qed.

(** The greedy group of [modifyCode]'s pattern gives back a [=] when the
    line is only [==]. *)
Example two_equal_signs :
  scan Page.firstSectionRegexp [] (js "==")
  = Some (RMatch 0 2 [(1, js "=")]).
Proof. vm_compute. reflexivity. Qed.

Example line_without_second_equal_sign :
  search Page.firstSectionRegexp (Sample.lines ["intro"; "=a"; "== Top =="]%string)
  = 9%Z
  ∧ search Page.firstSectionRegexp (Sample.lines ["intro"; "=a"]%string)
    = (-1)%Z.
Proof. vm_compute. done. Qed.

(** Without a heading [search] answers -1 and the slices of [modifyCode]
    are taken from the end. *)
Example modifyCode_top_without_heading :
  Page.newPageCode
    (Page.modifyCode Page.hideHtmlComments_spec (js "abc") (js "C") true)
  = js "abC" ++ [Page.LF] ++ js "c".
Proof. vm_compute. reflexivity. Qed.

Example hideHtmlComments_sample :
  Page.hideHtmlComments_spec (js "ab<!-- x -->cd<!-->e")
  = js "ab          cd      ".
Proof. vm_compute. reflexivity. Qed.

(** The run of spaces in the pattern of [unpackVisits] reads strings
    packed with a space after the first comma. *)
Example unpackVisits_old_format :
  Options.unpackVisits (js "7, 5" ++ [Page.LF] ++ js "12,100,200")
  = Some (<[js "12" := [js "100"; js "200"]]> (<[js "7" := [js "5"]]> ∅)).
Proof. vm_compute. reflexivity. Qed.

(** When the group after the spaces would be empty, the run of spaces
    gives one back. *)
Example unpackVisits_only_spaces :
  scan Options.visitsRegexp [] (js "1,  ")
  = Some (RMatch 0 4 [(2, js " "); (1, js "1")]).
Proof. vm_compute. reflexivity. Qed.

(** The first query of a name inherited from [Object.prototype] reads a
    member of the memo object and starts no lookup. *)
Example inherited_member_query :
  (Autocomplete.values id (js "User") (λ _, false) (λ _, false) (js "Me") []
     Autocomplete.Wikilinks Autocomplete.newChannel (js "toString")).2
  = Autocomplete.Reaction [] None true.
Proof. vm_compute. reflexivity. Qed.

(** Two equal wikilink queries before the first lookup settles call the
    remote collaborator twice. *)
Example wikilinks_two_lookups_in_flight :
  Autocomplete.lookups
    (Autocomplete.run id (js "User") (λ _, false) (λ _, false) (js "Me") []
       Autocomplete.Wikilinks Autocomplete.newWorld
       [Autocomplete.Query (js "Ja"); Autocomplete.Query (js "Ja")])
  = [js "Ja"; js "Ja"].
Proof. vm_compute. reflexivity. Qed.

End Samples.

(* ===================================================================== *)
(** ** Page.js: more about [modifyCode] and [analyzeNewTopicPlacement]    *)
(* ===================================================================== *)

Module PageMoreFacts.
Import JsString RegExp RegExpSemantics RegExpFacts Page PageSpec PageFacts
  FirstSectionFacts PlacementFacts LoopSpec.

Lemma slice_sliceFrom s i : slice s 0 i ++ sliceFrom s i = s.
Proof.
  unfold slice, sliceFrom.
  assert (clampIndex (length s) 0 = 0) as ->.
  { unfold clampIndex. simpl. lia. }
  rewrite drop_0, Nat.sub_0_r. apply take_drop.
Qed.

Lemma scan_all_false r aft :
  ∀ bef,
    (∀ s1 s2, aft = s1 ++ s2 → matchesAt r (Cursor (rev s1 ++ bef) s2) = false) →
    scan r bef aft = None.
Proof.
  induction aft as [|a aft IH]; intros bef H.
  - pose proof (H [] [] eq_refl) as H0. unfold matchesAt in H0. simpl in H0.
    simpl. by destruct (matcher r (Cursor bef []) [] accept).
  - pose proof (H [] (a :: aft) eq_refl) as H0. unfold matchesAt in H0.
    simpl in H0. cbn [scan].
    destruct (matcher r (Cursor bef (a :: aft)) [] accept); [done|].
    apply IH. intros s1 s2 ->.
    specialize (H (a :: s1) s2 eq_refl). simpl in H.
    by rewrite <- app_assoc in H.
Qed.

Lemma cursorAt_split s i j :
  i ≤ j → j ≤ length s →
  cursorAt s j
  = Cursor (rev (take (j - i) (drop i s)) ++ rev (take i s))
      (drop (j - i) (drop i s)).
Proof.
  intros Hij Hj. unfold cursorAt. f_equal.
  - rewrite <- rev_app_distr. f_equal.
    rewrite take_drop_commute.
    replace (i + (j - i)) with j by lia.
    rewrite <- (take_drop i (take j s)) at 1. f_equal.
    rewrite take_take. f_equal. lia.
  - rewrite drop_drop. f_equal. lia.
Qed.

Lemma search_none r s :
  (∀ j, j ≤ length s → matchesAt r (cursorAt s j) = false) →
  search r s = (-1)%Z.
Proof.
  intros H. unfold search. rewrite (scan_all_false r s []); [done|].
  intros s1 s2 ->. rewrite app_nil_r.
  rewrite <- cursorAt_app. apply H. rewrite length_app. lia.
Qed.

Lemma tally_descending dates :
  chain (λ previous date, (date <=? previous)%Z) dates = true →
  tally dates = Z.of_nat (Nat.pred (length dates)).
Proof.
  induction dates as [|previous rest IH]; [done|].
  destruct rest as [|date rest]; [done|].
  intros H. cbn [chain] in H. apply andb_prop in H as [Hle Hrest].
  specialize (IH Hrest). cbn [tally]. cbn [tally] in IH. rewrite IH.
  apply Z.leb_le in Hle.
  destruct (date >? previous)%Z eqn:Hgt.
  - apply Z.gtb_lt in Hgt. lia.
  - cbn [length Nat.pred]. lia.
Qed.

Lemma tally_ascending dates :
  chain (λ previous date, (previous <? date)%Z) dates = true →
  tally dates = (- Z.of_nat (Nat.pred (length dates)))%Z.
Proof.
  induction dates as [|previous rest IH]; [done|].
  destruct rest as [|date rest]; [done|].
  intros H. cbn [chain] in H. apply andb_prop in H as [Hlt Hrest].
  specialize (IH Hrest). cbn [tally]. cbn [tally] in IH. rewrite IH.
  apply Z.ltb_lt in Hlt.
  destruct (date >? previous)%Z eqn:Hgt.
  - cbn [length Nat.pred]. lia.
  - rewrite Z.gtb_ltb in Hgt. apply Z.ltb_ge in Hgt. lia.
Qed.

(** With the site override undefined, the page analysed returns with
    the placement decided by the tally over every heading the loop
    sees. *)
Lemma analyze_by_tally hide find parse cfg p code first headings :
  Page.code p = Some code →
  siteOverride cfg p code = None →
  execAll sectionHeadingRegexp (hide code) (S (length (hide code))) 0
    = Some (first :: headings) →
  analyzeNewTopicPlacement hide find parse cfg p
  = Returns
      (MkPage (name p) (namespace p) (Some code)
         (Some (placement (namespace p)
                  (tally (omap (firstDate find parse code)
                            (first :: headings)))))
         (Some (mindex first))).
Proof.
  intros Hcode Hover Hms.
  assert (exec sectionHeadingRegexp (hide code) 0 = Some first) as Hexec.
  { cbn [execAll] in Hms.
    destruct (exec sectionHeadingRegexp (hide code) 0) as [m|]; [|done].
    destruct (execAll _ _ _ (mend m)); [|done].
    simpl in Hms. by injection Hms as -> _. }
  unfold analyzeNewTopicPlacement.
  rewrite Hcode, Hover, Hexec, exec_loop_execAll, Hms.
  cbn [fmap option_fmap option_map].
  pose proof (tallyStep_fold find parse code (first :: headings) None 0%Z)
    as Hfold.
  destruct (fold_left _ (first :: headings) (None, 0%Z))
    as [previousDate difference] eqn:Hloop.
  cbn [snd option_list app] in Hfold. rewrite Z.add_0_l in Hfold.
  rewrite Hfold. unfold placement.
  by rewrite rem_2_even, gtb_ltb.
Qed.

End PageMoreFacts.

(** X1.  On-top insertion never loses or reorders page code: whatever
    [hideHtmlComments] answers and wherever [search] points (the result
    -1 of a failed search included), the page code is cut in two parts
    and the new code is the first part, the comment, a line feed and
    the second part. *)
Theorem modifyCode_top_keeps_page_code :
  ∀ (hideHtmlComments : jsstring → jsstring)
    (pageCode commentCode : jsstring),
    let r := Page.modifyCode hideHtmlComments pageCode commentCode true in
    ∃ codeAfterInsertion,
      pageCode = Page.codeBeforeInsertion r ++ codeAfterInsertion
      ∧ Page.newPageCode r
        = Page.codeBeforeInsertion r ++ commentCode ++ [Page.LF]
            ++ codeAfterInsertion.
Proof.
  intros hide pageCode commentCode. cbn.
  exists (JsString.sliceFrom pageCode
            (RegExp.search Page.firstSectionRegexp (hide pageCode))).
  split; [|done]. symmetry. apply PageMoreFacts.slice_sliceFrom.
Qed.

(** X2.  When no line of the comment-hidden code starts with [=] and has a
    second [=], on-top insertion puts the comment in front of the last
    code unit of the page, not at its end. *)
Theorem modifyCode_top_without_heading_line :
  ∀ (hideHtmlComments : jsstring → jsstring)
    (body : jsstring) (last : ascii) (commentCode : jsstring),
    (∀ j, j ≤ length (hideHtmlComments (body ++ [last])) →
          PageSpec.startsHeadingLike
            (PageSpec.cursorAt (hideHtmlComments (body ++ [last])) j) = false) →
    Page.newPageCode
      (Page.modifyCode hideHtmlComments (body ++ [last]) commentCode true)
    = body ++ commentCode ++ [Page.LF; last].
Proof.
  intros hide body last commentCode H.
  unfold Page.modifyCode. cbn [Page.newPageCode].
  rewrite (PageMoreFacts.search_none Page.firstSectionRegexp
             (hide (body ++ [last]))).
  2:{ intros j Hj. rewrite FirstSectionFacts.matchesAt_firstSection.
      by apply H. }
  unfold JsString.slice, JsString.sliceFrom, JsString.clampIndex.
  rewrite length_app. cbn [length Z.ltb Z.compare].
  replace (Z.to_nat (Z.max 0 (Z.of_nat (length body + 1) + -1)))
    with (length body) by lia.
  cbn [Nat.min Z.to_nat]. rewrite Nat.min_0_r, drop_0, Nat.sub_0_r.
  rewrite take_app_length, drop_app_length. done.
Qed.

Lemma modifyCode_top_without_heading_line_witness :
  Page.newPageCode
    (Page.modifyCode Page.hideHtmlComments_spec
       (js "intro" ++ [Page.LF]) (js "== New ==") true)
  = js "intro" ++ js "== New ==" ++ [Page.LF; Page.LF].
Proof.
  apply (modifyCode_top_without_heading_line Page.hideHtmlComments_spec
           (js "intro") Page.LF (js "== New ==")).
  intros j Hj. vm_compute in Hj.
  do 7 (destruct j as [|j]; [vm_compute; reflexivity|]). lia.
Defined.

(** X3.  [analyzeNewTopicPlacement] always ends.  It throws the error about
    the undefined code exactly when the page has no code; it fails on
    reading [index] of [null] exactly when the code is set, the site
    override did not answer [false] and the comment-hidden code has no
    section heading.  When it returns, the name, the namespace and the
    code of the page are as before, the placement is set, an answer of
    the site override is the placement, and the index of the first
    section is left undefined exactly when the override answered
    [false]. *)
Theorem analyzeNewTopicPlacement_outcomes :
  ∀ (hideHtmlComments : jsstring → jsstring)
    (findFirstTimestamp : jsstring → option jsstring)
    (parseTimestamp : jsstring → option Z)
    (configAreNewTopicsOnTop : option (jsstring → jsstring → option bool))
    (p : Page.Page),
    let r := Page.analyzeNewTopicPlacement hideHtmlComments
               findFirstTimestamp parseTimestamp configAreNewTopicsOnTop p in
    r ≠ Diverges
    ∧ (r = Throws Page.CdError_codeUndefined ↔ Page.code p = None)
    ∧ (r = Throws Page.TypeError_nullIndex
       ↔ ∃ code,
           Page.code p = Some code
           ∧ Page.siteOverride configAreNewTopicsOnTop p code ≠ Some false
           ∧ RegExp.exec Page.sectionHeadingRegexp (hideHtmlComments code) 0
             = None)
    ∧ ∀ p', r = Returns p' →
        Page.name p' = Page.name p
        ∧ Page.namespace p' = Page.namespace p
        ∧ Page.code p' = Page.code p
        ∧ is_Some (Page.areNewTopicsOnTop p')
        ∧ ∃ code,
            Page.code p = Some code
            ∧ (∀ b, Page.siteOverride configAreNewTopicsOnTop p code = Some b →
                    Page.areNewTopicsOnTop p' = Some b)
            ∧ (Page.firstSectionStartIndex p' = None
               ↔ Page.siteOverride configAreNewTopicsOnTop p code = Some false).
Proof.
  intros hide find parse cfg p r.
  split; [apply Totality.analyzeNewTopicPlacement_ends|].
  pose proof (Totality.analyzeNewTopicPlacement_ends hide find parse cfg p)
    as Hends.
  subst r. revert Hends. unfold Page.analyzeNewTopicPlacement.
  destruct (Page.code p) as [code|] eqn:Hcode.
  2:{ intros _. split_and!; [done| |done].
      split; [done|]. by intros (code & ? & _). }
  destruct (Page.siteOverride cfg p code) as [[|]|] eqn:Hover;
    destruct (RegExp.exec Page.sectionHeadingRegexp (hide code) 0)
      as [first|] eqn:Hexec; cbn beta iota.
  all: try destruct (RegExp.exec_loop _ _ _ _ _ _) as [[previousDate difference]|];
    intros Hends; try done.
  all: split_and!; [done| |].
  all: try (split; [intros _; exists code; split_and!; [done|congruence|done]
                   |done]).
  all: try (split; [done|];
            intros (code' & [= <-] & Hne & Hno); congruence).
  all: intros p' Hp'; try discriminate; injection Hp' as <-; cbn.
  all: split_and!; try done; try by eexists.
  all: exists code; split_and!;
    [done | intros b Hb; congruence | split; intros; congruence].
Qed.

Lemma analyzeNewTopicPlacement_outcomes_witness :
  let code := Sample.lines ["intro"; "== A =="]%string in
  let p := Page.MkPage (js "Talk:X") 1%Z (Some code) None None in
  let p' := Page.MkPage (js "Talk:X") 1%Z (Some code) (Some true) (Some 6) in
  Page.name p' = Page.name p
  ∧ Page.namespace p' = Page.namespace p
  ∧ Page.code p' = Page.code p
  ∧ is_Some (Page.areNewTopicsOnTop p')
  ∧ ∃ code',
      Page.code p = Some code'
      ∧ (∀ b, Page.siteOverride (Some (λ _ _, Some true)) p code' = Some b →
              Page.areNewTopicsOnTop p' = Some b)
      ∧ (Page.firstSectionStartIndex p' = None
         ↔ Page.siteOverride (Some (λ _ _, Some true)) p code' = Some false).
Proof.
  intros code p p'.
  apply (proj2 (proj2 (proj2
           (analyzeNewTopicPlacement_outcomes Page.hideHtmlComments_spec
              Sample.findFirstTimestamp Sample.parseTimestamp
              (Some (λ _ _, Some true)) p))) p').
  vm_compute. reflexivity.
Defined.

(** X4.  With the site override undefined and at least two dated headings,
    the placement follows the order of the dates when they are in
    order: no dated heading newer than the dated heading before it
    means new topics are on top, every dated heading newer than the one
    before it means they are not; the namespace plays no role. *)
Theorem placement_follows_date_order :
  ∀ (hideHtmlComments : jsstring → jsstring)
    (findFirstTimestamp : jsstring → option jsstring)
    (parseTimestamp : jsstring → option Z)
    (configAreNewTopicsOnTop : option (jsstring → jsstring → option bool))
    (p : Page.Page) (code : jsstring) (headings : list RegExp.rmatch),
    Page.code p = Some code →
    Page.siteOverride configAreNewTopicsOnTop p code = None →
    RegExpSemantics.execAll Page.sectionHeadingRegexp (hideHtmlComments code)
      (S (length (hideHtmlComments code))) 0 = Some headings →
    let dates :=
      omap (Page.firstDate findFirstTimestamp parseTimestamp code) headings in
    let r := Page.analyzeNewTopicPlacement hideHtmlComments
               findFirstTimestamp parseTimestamp configAreNewTopicsOnTop p in
    2 ≤ length dates →
    (LoopSpec.chain (λ previous date, (date <=? previous)%Z) dates = true →
     LoopSpec.placed r = Some true)
    ∧ (LoopSpec.chain (λ previous date, (previous <? date)%Z) dates = true →
       LoopSpec.placed r = Some false).
Proof.
  intros hide find parse cfg p code headings Hcode Hover Hms dates r Hlen.
  destruct headings as [|first headings]; [simpl in Hlen; lia|].
  subst r.
  rewrite (PageMoreFacts.analyze_by_tally hide find parse cfg p code first
             headings Hcode Hover Hms).
  cbn [LoopSpec.placed Page.areNewTopicsOnTop]. fold dates.
  unfold PageSpec.placement. split; intros Hchain.
  - rewrite (PageMoreFacts.tally_descending _ Hchain).
    destruct (Z.eqb_spec (Z.of_nat (Nat.pred (length dates))) 0); [lia|].
    f_equal. apply Z.ltb_lt. lia.
  - rewrite (PageMoreFacts.tally_ascending _ Hchain).
    destruct (Z.eqb_spec (- Z.of_nat (Nat.pred (length dates))) 0); [lia|].
    f_equal. apply Z.ltb_ge. lia.
Qed.

Lemma placement_follows_date_order_witness :
  let older_below := Sample.lines
        ["== A =="; "@30"; "== B =="; "== C =="; "@30"; "== D =="; "@10"]%string in
  let newer_below := Sample.lines
        ["== A =="; "@10"; "== B =="; "@20"; "== C =="; "@30"]%string in
  let run := λ namespace code,
    Page.analyzeNewTopicPlacement Page.hideHtmlComments_spec
      Sample.findFirstTimestamp Sample.parseTimestamp None
      (Page.MkPage (js "X") namespace (Some code) None None) in
  LoopSpec.placed (run 1%Z older_below) = Some true
  ∧ LoopSpec.placed (run 0%Z newer_below) = Some false.
Proof.
  intros older_below newer_below run. split.
  - refine (proj1 (placement_follows_date_order Page.hideHtmlComments_spec
             Sample.findFirstTimestamp Sample.parseTimestamp None
             (Page.MkPage (js "X") 1%Z (Some older_below) None None)
             older_below
             [RegExp.RMatch 0 8 []; RegExp.RMatch 12 20 [];
              RegExp.RMatch 20 28 []; RegExp.RMatch 32 40 []]
             eq_refl eq_refl _ _) _).
    + vm_compute. reflexivity.
    + vm_compute. lia.
    + vm_compute. reflexivity.
  - refine (proj2 (placement_follows_date_order Page.hideHtmlComments_spec
             Sample.findFirstTimestamp Sample.parseTimestamp None
             (Page.MkPage (js "X") 0%Z (Some newer_below) None None)
             newer_below
             [RegExp.RMatch 0 8 []; RegExp.RMatch 12 20 [];
              RegExp.RMatch 24 32 []]
             eq_refl eq_refl _ _) _).
    + vm_compute. reflexivity.
    + vm_compute. lia.
    + vm_compute. reflexivity.
Defined.

(* ===================================================================== *)
(** ** The loops over the matches of a pattern                            *)
(* ===================================================================== *)

Module LoopFacts.
Import JsString RegExp RegExpSemantics RegExpFacts PageSpec LoopSpec.

Lemma exec_Some_leftmost r s i m :
  i ≤ length s → exec r s i = Some m →
  matchesAt r (cursorAt s (mindex m)) = true
  ∧ ∀ j, i ≤ j < mindex m → matchesAt r (cursorAt s j) = false.
Proof.
  intros Hi Hexec. pose proof (exec_bounds _ _ _ _ Hexec) as (Hlo & Hle & Hhi & _).
  unfold exec in Hexec.
  destruct (length s <? i) eqn:Hlt; [done|].
  apply scan_Some in Hexec
    as (skipped & rest & y & Haft & Hindex & Hmatch & Hend & Hearlier).
  rewrite length_rev, length_take in Hindex.
  assert (length skipped = mindex m - i) as Hskipped by lia.
  assert (skipped = take (mindex m - i) (drop i s)) as Hsk.
  { rewrite Haft, <- Hskipped. by rewrite take_app_length. }
  assert (rest = drop (mindex m - i) (drop i s)) as Hrest.
  { rewrite Haft, <- Hskipped. by rewrite drop_app_length. }
  split.
  - rewrite (PageMoreFacts.cursorAt_split s i (mindex m)); [|lia|lia].
    rewrite <- Hsk, <- Hrest. unfold matchesAt. by rewrite Hmatch.
  - intros j Hj.
    rewrite (PageMoreFacts.cursorAt_split s i j); [|lia|lia].
    assert (j - i < length skipped) as Hin by lia.
    destruct (lookup_lt_is_Some_2 skipped (j - i) Hin) as [a Ha].
    pose proof (take_drop_middle skipped (j - i) a Ha) as Hmid.
    specialize (Hearlier (take (j - i) skipped) a (drop (S (j - i)) skipped)
                  (eq_sym Hmid)).
    assert (take (j - i) (drop i s) = take (j - i) skipped) as ->.
    { rewrite Haft, take_app_le; [done|lia]. }
    assert (drop (j - i) (drop i s)
            = a :: drop (S (j - i)) skipped ++ rest) as ->.
    { rewrite Haft, drop_app_le by lia.
      rewrite <- Hmid at 1.
      rewrite drop_app_length'; [done|]. rewrite length_take. lia. }
    exact Hearlier.
Qed.

Lemma exec_None_nowhere r s i :
  i ≤ length s → exec r s i = None →
  ∀ j, i ≤ j ≤ length s → matchesAt r (cursorAt s j) = false.
Proof.
  intros Hi Hexec j Hj. unfold exec in Hexec.
  destruct (length s <? i) eqn:Hlt; [apply Nat.ltb_lt in Hlt; lia|].
  rewrite (PageMoreFacts.cursorAt_split s i j); [|lia|lia].
  apply (scan_None _ _ _ Hexec). by rewrite take_drop.
Qed.

Lemma execAll_leftmostFrom r s fuel :
  consumes r = true →
  ∀ i ms, i ≤ length s → execAll r s fuel i = Some ms →
          leftmostFrom r s i ms.
Proof.
  intros Hr. induction fuel as [|fuel IH]; intros i ms Hi Hms; [done|].
  cbn [execAll] in Hms.
  destruct (exec r s i) as [m|] eqn:Hexec.
  - destruct (execAll r s fuel (mend m)) as [ms'|] eqn:Hrest; [|done].
    simpl in Hms. injection Hms as <-.
    pose proof (exec_bounds _ _ _ _ Hexec) as (Hlo & Hle & Hhi & Hlt).
    destruct (exec_Some_leftmost _ _ _ _ Hi Hexec) as [Hat Hbefore].
    cbn [leftmostFrom]. split_and!; auto.
  - injection Hms as <-. cbn [leftmostFrom].
    by apply exec_None_nowhere.
Qed.

End LoopFacts.

(** X5.  The loop [while ((match = regexp.exec(s)))] over a pattern that
    cannot match the empty string ends: started at [lastIndex] inside
    the string, with more turns allowed than code units are left, it
    finds a list of matches and returns its body folded over them.  The
    matches are the leftmost ones, one after the other: each match is
    not empty, lies inside the string and starts at the first position,
    from the end of the match before, at which the pattern matches; from
    the end of the last match on the pattern matches nowhere. *)
Theorem exec_loop_visits_leftmost_matches :
  ∀ (r : RegExp.regex) (s : jsstring) (fuel lastIndex : nat),
    RegExpSemantics.consumes r = true →
    lastIndex ≤ length s →
    length s < fuel + lastIndex →
    ∃ ms : list RegExp.rmatch,
      RegExpSemantics.execAll r s fuel lastIndex = Some ms
      ∧ LoopSpec.leftmostFrom r s lastIndex ms
      ∧ ∀ (A : Type) (body : A → RegExp.rmatch → A) (acc : A),
          RegExp.exec_loop r s fuel lastIndex body acc
          = Some (fold_left body ms acc).
Proof.
  intros r s fuel i Hr Hi Hfuel.
  destruct (RegExpFacts.execAll_total r s fuel i Hr Hi Hfuel) as [ms Hms].
  exists ms. split_and!.
  - done.
  - by apply (LoopFacts.execAll_leftmostFrom r s fuel Hr).
  - intros A body acc. by rewrite RegExpFacts.exec_loop_execAll, Hms.
Qed.

Lemma exec_loop_visits_leftmost_matches_witness :
  let s := Sample.lines ["intro"; "== A =="; "=== a ==="; "== B =="]%string in
  ∃ ms : list RegExp.rmatch,
    RegExpSemantics.execAll Page.sectionHeadingRegexp s (S (length s)) 0
    = Some ms
    ∧ LoopSpec.leftmostFrom Page.sectionHeadingRegexp s 0 ms
    ∧ ∀ (A : Type) (body : A → RegExp.rmatch → A) (acc : A),
        RegExp.exec_loop Page.sectionHeadingRegexp s (S (length s)) 0
          body acc
        = Some (fold_left body ms acc).
Proof.
  intros s.
  apply (exec_loop_visits_leftmost_matches Page.sectionHeadingRegexp s
           (S (length s)) 0).
  - reflexivity.
  - lia.
  - lia.
Defined.

(* ===================================================================== *)
(** ** Page.js: the error thrown by [edit]                                *)
(* ===================================================================== *)

Module EditFacts.
Import JsString Page.

Lemma switchOn_recognized code :
  match switchOn code recognizedCodes with
  | Spamblacklist => code = js "spamblacklist"
  | Titleblacklist => code = js "titleblacklist"
  | AbusefilterWarning => code = js "abusefilter-warning"
  | AbusefilterDisallowed => code = js "abusefilter-disallowed"
  | Editconflict => code = js "editconflict"
  | Blocked => code = js "blocked"
  | Missingtitle => code = js "missingtitle"
  | DefaultCase => code ∉ recognizedCodes.*1
  end.
Proof.
  unfold recognizedCodes. cbn [switchOn].
  repeat (case_bool_decide; [done|]).
  cbn [fmap list_fmap fst]. intros Hin.
  repeat (apply elem_of_cons in Hin as [Hin|Hin]; [done|]).
  by apply elem_of_nil in Hin.
Qed.

Section EditFailure.
Variable cd_s : jsstring → list (option jsstring) → jsstring.
Variable mwMessagePlain : jsstring → option jsstring → jsstring.
Variable loadMessagesIfMissing : jsstring → settled unit.
Variable parseCode : jsstring → settled (option jsstring).
Variable unknownApiErrorText : jsstring → option jsstring → settled jsstring.

Local Abbreviation describe :=
  (describe cd_s mwMessagePlain loadMessagesIfMissing parseCode
     unknownApiErrorText).

Lemma describe_not_rethrown error : describe error ≠ inr Rethrown.
Proof using Type.
  unfold Page.describe.
  destruct (switchOn (errorCode error) recognizedCodes);
    repeat match goal with
           | |- context [match ?x with _ => _ end] => destruct x
           end; done.
Qed.

Lemma describe_not_api_failure error d : describe error ≠ inr (ApiFailure d).
Proof using Type.
  unfold Page.describe.
  destruct (switchOn (errorCode error) recognizedCodes);
    repeat match goal with
           | |- context [match ?x with _ => _ end] => destruct x
           end; done.
Qed.

Lemma describe_raw error msg :
  describe error = inl (msg, true) →
  (errorCode error = js "abusefilter-warning"
   ∨ errorCode error = js "abusefilter-disallowed")
  ∧ loadMessagesIfMissing (errorCode error) = Resolved ()
  ∧ ∃ filterDescription,
      abusefilterDescription error = Some filterDescription
      ∧ parseCode (mwMessagePlain (errorCode error) filterDescription)
        = Resolved (Some msg)
      ∧ msg ≠ [].
Proof using Type.
  unfold Page.describe.
  pose proof (switchOn_recognized (errorCode error)) as Hcode.
  destruct (switchOn (errorCode error) recognizedCodes);
    repeat match goal with
           | |- context [match ?x with _ => _ end] => destruct x eqn:?
           end; try done.
  all: intros [= <-];
    repeat match goal with u : () |- _ => destruct u end.
  all: split_and!; auto; eexists; split_and!; eauto; done.
Qed.

End EditFailure.

End EditFacts.

(** X6.  The error thrown by [edit] carries a raw message only for the codes
    of the abuse filter, when the filter's message was loaded and
    [parseCode] gave a non-empty html, which is then the message. *)
Theorem edit_raw_message_is_parsed_abuse_filter_message :
  ∀ (cd_s : jsstring → list (option jsstring) → jsstring)
    (mwMessagePlain : jsstring → option jsstring → jsstring)
    (loadMessagesIfMissing : jsstring → settled unit)
    (parseCode : jsstring → settled (option jsstring))
    (unknownApiErrorText : jsstring → option jsstring → settled jsstring)
    (e : Page.caught) (d : Page.details),
    Page.editCatch cd_s mwMessagePlain loadMessagesIfMissing parseCode
      unknownApiErrorText e = Page.ApiFailure d →
    Page.isRawMessage d = true →
    ∃ type error rest filterDescription html,
      e = Page.CdError type (Some (Page.ApiData (Some error) rest))
      ∧ (Page.errorCode error = js "abusefilter-warning"
         ∨ Page.errorCode error = js "abusefilter-disallowed")
      ∧ Page.abusefilterDescription error = Some filterDescription
      ∧ parseCode (mwMessagePlain (Page.errorCode error) filterDescription)
        = Resolved (Some html)
      ∧ html ≠ []
      ∧ Page.message d = Some html
      ∧ Page.detailsCode d = Some (Page.errorCode error).
Proof.
  intros cd_s mw load parse unknown e d He Hraw.
  destruct e as [type [[[error|] rest]|]|]; cbn in He;
    try case_bool_decide; try done.
  2,3: injection He as <-; done.
  destruct (Page.describe cd_s mw load parse unknown error)
    as [[msg raw]|thrown] eqn:Hd.
  2:{ subst thrown.
      by apply EditFacts.describe_not_api_failure in Hd. }
  injection He as <-. cbn in Hraw. subst raw.
  apply EditFacts.describe_raw in Hd
    as (Hcode & _ & filterDescription & Hfilter & Hparse & Hne).
  exists type, error, rest, filterDescription, msg. by split_and!.
Qed.

Lemma edit_raw_message_is_parsed_abuse_filter_message_witness :
  let error := Page.ApiError (js "abusefilter-disallowed") None None
                 (Some (Some (js "No links"))) in
  let e := Page.CdError (js "api") (Some (Page.ApiData (Some error) [])) in
  let mwMessagePlain := λ (code : jsstring) (_ : option jsstring), code in
  let parseCode := λ description : jsstring,
                     Resolved (Some (js "<p>" ++ description)) in
  let d := Page.Details (Some (js "abusefilter-disallowed"))
             (Some (js "<p>abusefilter-disallowed")) true
             (Page.LogCodeAndData (js "abusefilter-disallowed")
                (Page.ApiData (Some error) [])) in
  ∃ type error' rest filterDescription html,
    e = Page.CdError type (Some (Page.ApiData (Some error') rest))
    ∧ (Page.errorCode error' = js "abusefilter-warning"
       ∨ Page.errorCode error' = js "abusefilter-disallowed")
    ∧ Page.abusefilterDescription error' = Some filterDescription
    ∧ parseCode (mwMessagePlain (Page.errorCode error') filterDescription)
      = Resolved (Some html)
    ∧ html ≠ []
    ∧ Page.message d = Some html
    ∧ Page.detailsCode d = Some (Page.errorCode error').
Proof.
  intros error e mwMessagePlain parseCode d.
  apply (edit_raw_message_is_parsed_abuse_filter_message
           (λ name _, name) mwMessagePlain (λ _, Resolved ())
           parseCode (λ code _, Resolved code) e d).
  - vm_compute. reflexivity.
  - reflexivity.
Defined.

(** X7.  What [edit] caught leaves it unchanged exactly when it is not a
    [CdError] or is one of type [network]; every other error is
    replaced by a new one or by a failure of the handler itself. *)
Theorem edit_rethrows_only_foreign_and_network_errors :
  ∀ (cd_s : jsstring → list (option jsstring) → jsstring)
    (mwMessagePlain : jsstring → option jsstring → jsstring)
    (loadMessagesIfMissing : jsstring → settled unit)
    (parseCode : jsstring → settled (option jsstring))
    (unknownApiErrorText : jsstring → option jsstring → settled jsstring)
    (e : Page.caught),
    Page.editCatch cd_s mwMessagePlain loadMessagesIfMissing parseCode
      unknownApiErrorText e = Page.Rethrown
    ↔ e = Page.NotCdError ∨ ∃ data, e = Page.CdError (js "network") data.
Proof.
  intros cd_s mw load parse unknown e. split.
  - destruct e as [type data|]; [|by left]. cbn.
    case_bool_decide as Htype; [subst; right; by eexists|].
    destruct data as [[[error|] rest]|]; try done.
    destruct (Page.describe cd_s mw load parse unknown error)
      as [[msg raw]|thrown] eqn:Hd; [done|].
    intros ->. by apply EditFacts.describe_not_rethrown in Hd.
  - intros [->|[data ->]]; [done|]. cbn. by rewrite bool_decide_eq_true_2.
Qed.

(** X8.  In the error [edit] throws, the message and the code are either
    both there or both undefined; they are there exactly when the
    caught error had an [error] member in its [apiData], the code is
    that member's code, and the log entry then pairs the code with the
    [apiData], else it is the [apiData] alone. *)
Theorem edit_details_follow_error_member :
  ∀ (cd_s : jsstring → list (option jsstring) → jsstring)
    (mwMessagePlain : jsstring → option jsstring → jsstring)
    (loadMessagesIfMissing : jsstring → settled unit)
    (parseCode : jsstring → settled (option jsstring))
    (unknownApiErrorText : jsstring → option jsstring → settled jsstring)
    (type : jsstring) (data : option Page.apiData) (d : Page.details),
    Page.editCatch cd_s mwMessagePlain loadMessagesIfMissing parseCode
      unknownApiErrorText (Page.CdError type data) = Page.ApiFailure d →
    match data ≫= Page.apiDataError with
    | Some error =>
        Page.detailsCode d = Some (Page.errorCode error)
        ∧ is_Some (Page.message d)
        ∧ ∃ apiData, data = Some apiData
            ∧ Page.logMessage d
              = Page.LogCodeAndData (Page.errorCode error) apiData
    | None =>
        Page.detailsCode d = None ∧ Page.message d = None
        ∧ Page.isRawMessage d = false
        ∧ Page.logMessage d = Page.LogData data
    end.
Proof.
  intros cd_s mw load parse unknown type data d. cbn.
  case_bool_decide as Htype; [done|].
  destruct data as [[[error|] rest]|]; cbn.
  2,3: by intros [= <-].
  destruct (Page.describe cd_s mw load parse unknown error)
    as [[msg raw]|thrown] eqn:Hd.
  - intros [= <-]. cbn. split_and!; [done|by eexists|by eexists].
  - intros ->. by apply EditFacts.describe_not_api_failure in Hd.
Qed.

Lemma edit_details_follow_error_member_witness :
  let cd_s := λ (name : jsstring) (_ : list (option jsstring)), name in
  let mwMessagePlain := λ (code : jsstring) (_ : option jsstring), code in
  let loadMessagesIfMissing := λ _ : jsstring, Resolved () in
  let parseCode := λ _ : jsstring, @Resolved (option jsstring) None in
  let unknownApiErrorText :=
    λ (code : jsstring) (_ : option jsstring), Resolved code in
  let error := Page.ApiError (js "editconflict") None None None in
  let apiData := Page.ApiData (Some error) [] in
  ∃ d d' : Page.details,
    (Page.editCatch cd_s mwMessagePlain loadMessagesIfMissing parseCode
       unknownApiErrorText (Page.CdError (js "api") (Some apiData))
     = Page.ApiFailure d
     ∧ Page.detailsCode d = Some (js "editconflict")
     ∧ is_Some (Page.message d)
     ∧ ∃ apiData', Some apiData = Some apiData'
         ∧ Page.logMessage d
           = Page.LogCodeAndData (js "editconflict") apiData')
    ∧ (Page.editCatch cd_s mwMessagePlain loadMessagesIfMissing parseCode
         unknownApiErrorText (Page.CdError (js "api") None)
       = Page.ApiFailure d'
       ∧ Page.detailsCode d' = None ∧ Page.message d' = None
       ∧ Page.isRawMessage d' = false
       ∧ Page.logMessage d' = Page.LogData None).
Proof.
  intros cd_s mwMessagePlain loadMessagesIfMissing parseCode
    unknownApiErrorText error apiData.
  eexists. eexists. split.
  - refine ((λ H, conj H
               (edit_details_follow_error_member cd_s mwMessagePlain
                  loadMessagesIfMissing parseCode unknownApiErrorText
                  (js "api") (Some apiData) _ H)) _).
    vm_compute. reflexivity.
  - refine ((λ H, conj H
               (edit_details_follow_error_member cd_s mwMessagePlain
                  loadMessagesIfMissing parseCode unknownApiErrorText
                  (js "api") None _ H)) _).
    vm_compute. reflexivity.
Defined.

(* ===================================================================== *)
(** ** Page.js: [getCode]                                                 *)
(* ===================================================================== *)

Module PageLoadFacts.
Import JsString RegExp Page PageLoad PageFacts.

(** What [getCode] assigns as the code ends with a line feed. *)
Lemma getCode_Assigned_code wgArticleId request this p' data :
  getCode wgArticleId request this = Assigned p' data →
  ∃ content, code p' = Some (content ++ [LF]).
Proof.
  unfold getCode.
  repeat match goal with
         | |- context [match ?x with _ => _ end] => destruct x
         end; try done.
  intros [= <- _]. by eexists.
Qed.

(** The outcome for an existing article whose request resolved, by
    the first page of the answer. *)
Lemma getCode_resolved wgArticleId resp this :
  wgArticleId ≠ 0 →
  match q ← query resp; ps ← pages q; ps !! 0 with
  | None => getCode wgArticleId (Resolved resp) this = Failed NoData
  | Some pg =>
      if missing pg
      then getCode wgArticleId (Resolved resp) this = Failed Missing
      else if invalid pg
      then getCode wgArticleId (Resolved resp) this = Failed Invalid
      else match rs ← revisions pg; rs !! 0 with
           | None => getCode wgArticleId (Resolved resp) this = Failed NoData
           | Some rev =>
               ∃ p' data,
                 getCode wgArticleId (Resolved resp) this = Assigned p' data
           end
  end.
Proof.
  intros Hid. unfold getCode.
  destruct (Nat.eqb_spec wgArticleId 0) as [|_]; [done|].
  destruct (query resp) as [q|]; cbn; [|done].
  destruct (pages q) as [[|pg ps]|]; cbn; [done| |done].
  destruct (missing pg); [done|]. destruct (invalid pg); [done|].
  destruct (revisions pg) as [[|rev rs]|]; cbn; [done| |done].
  by eexists _, _.
Qed.

Lemma analyze_undefined_iff hide find parse cfg p :
  analyzeNewTopicPlacement hide find parse cfg p
  = Throws CdError_codeUndefined ↔ code p = None.
Proof.
  unfold analyzeNewTopicPlacement.
  destruct (code p) as [c|]; [|done].
  split; [|done]. cbv zeta.
  destruct (siteOverride cfg p c) as [[|]|];
    destruct (exec sectionHeadingRegexp (hide c) 0);
    try destruct (exec_loop _ _ _ _ _ _) as [[? ?]|]; done.
Qed.

Lemma trimStart_loaded content :
  trimStart ((content ++ [LF]) ++ [LF])
  = if forallb isWhiteSpace content then []
    else trimStart content ++ [LF; LF].
Proof.
  rewrite (trimStart_app_LF (content ++ [LF])), forallb_app.
  change (forallb isWhiteSpace [LF]) with true. rewrite andb_true_r.
  rewrite trimStart_app_LF.
  destruct (forallb isWhiteSpace content); [done|].
  by rewrite <- app_assoc.
Qed.

End PageLoadFacts.

(** X9.  [getCode] assigns to the page exactly when the article exists, the
    request resolved, the first page of the answer is there and is
    neither missing nor invalid, and that page has a first revision.
    The code assigned is the content of that revision followed by a
    line feed; the name, the namespace and what an earlier analysis
    left on the page stay as they are; the real name is the redirect
    target unless that is undefined or empty, and the name of the page
    then. *)
Theorem getCode_assigns_first_revision :
  ∀ (wgArticleId : nat) (request : settled PageLoad.response)
    (this p' : Page.Page) (data : PageLoad.revisionData),
    PageLoad.getCode wgArticleId request this = PageLoad.Assigned p' data
    ↔ wgArticleId ≠ 0
      ∧ ∃ resp q pg ps rev rs,
          request = Resolved resp
          ∧ PageLoad.query resp = Some q
          ∧ PageLoad.pages q = Some (pg :: ps)
          ∧ PageLoad.missing pg = false
          ∧ PageLoad.invalid pg = false
          ∧ PageLoad.revisions pg = Some (rev :: rs)
          ∧ p' = Page.MkPage (Page.name this) (Page.namespace this)
                   (Some (PageLoad.content rev ++ [Page.LF]))
                   (Page.areNewTopicsOnTop this)
                   (Page.firstSectionStartIndex this)
          ∧ data
            = PageLoad.RevisionData (PageLoad.pageid pg) (PageLoad.revid rev)
                (rds ← PageLoad.redirects q; rd ← rds !! 0; PageLoad.to rd)
                (match rds ← PageLoad.redirects q; rd ← rds !! 0;
                       PageLoad.to rd with
                 | Some (a :: target) => a :: target
                 | _ => Page.name this
                 end)
                (PageLoad.curtimestamp resp).
Proof.
  intros wgArticleId request this p' data. unfold PageLoad.getCode.
  destruct (Nat.eqb_spec wgArticleId 0) as [->|Hid].
  { split; [done|]. by intros [? _]. }
  destruct request as [resp|].
  2:{ split; [done|]. by intros (_ & ? & ? & ? & ? & ? & ? & ? & _). }
  destruct (PageLoad.query resp) as [q|] eqn:Hq.
  2:{ split; [done|].
      intros (_ & ? & ? & ? & ? & ? & ? & [= <-] & ? & _). congruence. }
  cbn [mbind option_bind].
  destruct (PageLoad.pages q) as [[|pg ps]|] eqn:Hps; cbn.
  1,3: split; [done|];
       intros (_ & ? & ? & ? & ? & ? & ? & [= <-] & ? & ? & _); congruence.
  destruct (PageLoad.missing pg) eqn:Hmissing.
  { split; [done|].
    intros (_ & ? & ? & ? & ? & ? & ? & [= <-] & ? & ? & ? & _).
    congruence. }
  destruct (PageLoad.invalid pg) eqn:Hinvalid.
  { split; [done|].
    intros (_ & ? & ? & ? & ? & ? & ? & [= <-] & ? & ? & ? & ? & _).
    congruence. }
  destruct (PageLoad.revisions pg) as [[|rev rs]|] eqn:Hrs; cbn.
  1,3: split; [done|];
       intros (_ & ? & ? & ? & ? & ? & ? & [= <-] & ? & ? & ? & ? & ? & _);
       congruence.
  split.
  - intros [= <- <-]. split; [done|].
    by exists resp, q, pg, ps, rev, rs.
  - intros (_ & resp' & q' & pg' & ps' & rev' & rs' & [= <-] & Hq' & Hps'
            & _ & _ & Hrs' & -> & ->).
    rewrite Hq in Hq'. injection Hq' as <-.
    rewrite Hps in Hps'. injection Hps' as <- <-.
    rewrite Hrs in Hrs'. injection Hrs' as <- <-. done.
Qed.

(** X10.  How [getCode] fails when the article exists: with the rejection of
    the request; with [missing] exactly when the first page is marked
    missing, whatever else the answer holds; with [invalid] exactly
    when it is marked invalid and not missing; with [noData] exactly
    when the answer has no first page, or has one that is neither
    missing nor invalid and has no first revision. *)
Theorem getCode_failures :
  ∀ (wgArticleId : nat) (request : settled PageLoad.response)
    (this : Page.Page),
    wgArticleId ≠ 0 →
    let r := PageLoad.getCode wgArticleId request this in
    let page resp :=
      q ← PageLoad.query resp; ps ← PageLoad.pages q; ps !! 0 in
    r ≠ PageLoad.ReturnedEmptyCode
    ∧ (r = PageLoad.Failed PageLoad.RequestRejected ↔ request = Rejected)
    ∧ (r = PageLoad.Failed PageLoad.Missing
       ↔ ∃ resp pg, request = Resolved resp ∧ page resp = Some pg
           ∧ PageLoad.missing pg = true)
    ∧ (r = PageLoad.Failed PageLoad.Invalid
       ↔ ∃ resp pg, request = Resolved resp ∧ page resp = Some pg
           ∧ PageLoad.missing pg = false ∧ PageLoad.invalid pg = true)
    ∧ (r = PageLoad.Failed PageLoad.NoData
       ↔ ∃ resp, request = Resolved resp
           ∧ match page resp with
             | None => True
             | Some pg =>
                 PageLoad.missing pg = false ∧ PageLoad.invalid pg = false
                 ∧ (rs ← PageLoad.revisions pg; rs !! 0) = None
             end).
Proof.
  intros wgArticleId request this Hid r page. subst r.
  destruct request as [resp|].
  2:{ unfold PageLoad.getCode.
      destruct (Nat.eqb_spec wgArticleId 0) as [|_]; [done|].
      split_and!; [done|done|..]; (split; [done|]).
      - by intros (? & ? & ? & _).
      - by intros (? & ? & ? & _).
      - by intros (? & ? & _). }
  pose proof (PageLoadFacts.getCode_resolved wgArticleId resp this Hid) as H.
  fold (page resp) in H.
  assert (∀ (P : PageLoad.pageEntry → Prop) pg,
            page resp = Some pg → ¬ P pg →
            ¬ ∃ resp' pg', Resolved resp = Resolved resp'
                           ∧ page resp' = Some pg' ∧ P pg') as Hnot.
  { intros P pg Hpg HP (resp' & pg' & [= <-] & Hpg' & HP').
    rewrite Hpg in Hpg'. injection Hpg' as <-. auto. }
  destruct (page resp) as [pg|] eqn:Hpage.
  2:{ rewrite H. split_and!; [done|done|..].
      - split; [done|]. intros (resp' & pg' & [= <-] & Hpg' & _). congruence.
      - split; [done|]. intros (resp' & pg' & [= <-] & Hpg' & _). congruence.
      - split; [|done]. intros _. exists resp. by rewrite Hpage. }
  destruct (PageLoad.missing pg) eqn:Hmissing.
  { rewrite H. split_and!; [done|done|..].
    - split; [|done]. intros _. by exists resp, pg.
    - split; [done|]. intros Hex. exfalso. revert Hex.
      apply (Hnot (λ pg, PageLoad.missing pg = false
                         ∧ PageLoad.invalid pg = true) pg eq_refl).
      intros [? _]. congruence.
    - split; [done|]. intros (resp' & [= <-] & Hno). rewrite Hpage in Hno.
      destruct Hno as [? _]. congruence. }
  destruct (PageLoad.invalid pg) eqn:Hinvalid.
  { rewrite H. split_and!; [done|done|..].
    - split; [done|]. intros Hex. exfalso. revert Hex.
      apply (Hnot (λ pg, PageLoad.missing pg = true) pg eq_refl).
      congruence.
    - split; [|done]. intros _. by exists resp, pg.
    - split; [done|]. intros (resp' & [= <-] & Hno). rewrite Hpage in Hno.
      destruct Hno as (_ & ? & _). congruence. }
  assert (¬ ∃ resp' pg', Resolved resp = Resolved resp'
                         ∧ page resp' = Some pg'
                         ∧ PageLoad.missing pg' = true) as Hnm.
  { apply (Hnot (λ pg, PageLoad.missing pg = true) pg eq_refl). congruence. }
  assert (¬ ∃ resp' pg', Resolved resp = Resolved resp'
                         ∧ page resp' = Some pg'
                         ∧ PageLoad.missing pg' = false
                         ∧ PageLoad.invalid pg' = true) as Hni.
  { apply (Hnot (λ pg, PageLoad.missing pg = false
                       ∧ PageLoad.invalid pg = true) pg eq_refl).
    intros [_ ?]. congruence. }
  destruct (rs ← PageLoad.revisions pg; rs !! 0) as [rev|] eqn:Hrev.
  - destruct H as (p' & data & ->).
    split_and!; [done|done|split; [done|intros ?; by exfalso]
                |split; [done|intros ?; by exfalso]|].
    split; [done|]. intros (resp' & [= <-] & Hno). rewrite Hpage in Hno.
    destruct Hno as (_ & _ & ?). congruence.
  - rewrite H.
    split_and!; [done|done|split; [done|intros ?; by exfalso]
                |split; [done|intros ?; by exfalso]|].
    split; [|done]. intros _. exists resp. by rewrite Hpage.
Qed.

Lemma getCode_failures_witness :
  let late := PageLoad.PageEntry 7 true true
                (Some [PageLoad.Revision (js "text") 3]) in
  let resp := PageLoad.Response
                (Some (PageLoad.ApiQuery (Some [late]) None)) None in
  PageLoad.getCode 7 (Resolved resp) (Page.MkPage (js "X") 0%Z None None None)
  = PageLoad.Failed PageLoad.Missing.
Proof.
  intros late resp.
  apply (proj1 (proj2 (proj2 (getCode_failures 7 (Resolved resp)
                  (Page.MkPage (js "X") 0%Z None None None)
                  ltac:(discriminate))))).
  by exists resp, late.
Defined.

(** X11.  After [getCode], [analyzeNewTopicPlacement] throws the error about
    the undefined code exactly when the page had no code before and
    [getCode] did not assign one: for an article that does not exist
    [getCode] returns an empty code without storing it. *)
Theorem analyzeNewTopicPlacement_after_getCode :
  ∀ (hideHtmlComments : jsstring → jsstring)
    (findFirstTimestamp : jsstring → option jsstring)
    (parseTimestamp : jsstring → option Z)
    (configAreNewTopicsOnTop : option (jsstring → jsstring → option bool))
    (wgArticleId : nat) (request : settled PageLoad.response)
    (this : Page.Page),
    let loaded := PageLoad.getCode wgArticleId request this in
    (Page.analyzeNewTopicPlacement hideHtmlComments findFirstTimestamp
       parseTimestamp configAreNewTopicsOnTop (PageLoad.pageAfter this loaded)
     = Throws Page.CdError_codeUndefined
     ↔ Page.code this = None
       ∧ ∀ p' data, loaded ≠ PageLoad.Assigned p' data)
    ∧ PageLoad.getCode 0 request this = PageLoad.ReturnedEmptyCode.
Proof.
  intros hide find parse cfg wgArticleId request this loaded.
  split; [|done].
  rewrite PageLoadFacts.analyze_undefined_iff.
  destruct loaded as [|p' data|e] eqn:Hloaded; cbn.
  - split; [by intros ->|by intros [-> _]].
  - split.
    + intros Hcode. subst loaded.
      apply PageLoadFacts.getCode_Assigned_code in Hloaded as [content H].
      congruence.
    + intros [_ H]. by destruct (H p' data).
  - split; [by intros ->|by intros [-> _]].
Qed.

(** X12.  The code [getCode] assigns ends with a line feed, and
    [modifyCode] adds another one before a comment placed at the
    bottom: the comment follows the content of the revision, its
    leading whitespace removed, and two line feeds; when the content is
    nothing but whitespace the new code is the comment alone. *)
Theorem modifyCode_bottom_after_getCode :
  ∀ (hideHtmlComments : jsstring → jsstring)
    (wgArticleId : nat) (request : settled PageLoad.response)
    (this p' : Page.Page) (data : PageLoad.revisionData)
    (commentCode : jsstring),
    PageLoad.getCode wgArticleId request this = PageLoad.Assigned p' data →
    ∃ content,
      Page.code p' = Some (content ++ [Page.LF])
      ∧ Page.newPageCode
          (Page.modifyCode hideHtmlComments (content ++ [Page.LF])
             commentCode false)
        = if forallb JsString.isWhiteSpace content then commentCode
          else JsString.trimStart content ++ [Page.LF; Page.LF]
                 ++ commentCode.
Proof.
  intros hide wgArticleId request this p' data commentCode Hloaded.
  apply PageLoadFacts.getCode_Assigned_code in Hloaded as [content Hcode].
  exists content. split; [done|].
  unfold Page.modifyCode. cbn [Page.newPageCode].
  rewrite PageLoadFacts.trimStart_loaded.
  destruct (forallb JsString.isWhiteSpace content); [done|].
  by rewrite <- app_assoc.
Qed.

Lemma modifyCode_bottom_after_getCode_witness :
  let resp := PageLoad.Response
                (Some (PageLoad.ApiQuery
                         (Some [PageLoad.PageEntry 7 false false
                                  (Some [PageLoad.Revision (js " Hello") 3])])
                         None)) None in
  ∃ content,
    Some (js " Hello" ++ [Page.LF]) = Some (content ++ [Page.LF])
    ∧ Page.newPageCode
        (Page.modifyCode Page.hideHtmlComments_spec (content ++ [Page.LF])
           (js "== New ==") false)
      = if forallb JsString.isWhiteSpace content then js "== New =="
        else JsString.trimStart content ++ [Page.LF; Page.LF]
               ++ js "== New ==".
Proof.
  intros resp.
  apply (modifyCode_bottom_after_getCode Page.hideHtmlComments_spec 7
           (Resolved resp) (Page.MkPage (js "X") 0%Z None None None)
           (Page.MkPage (js "X") 0%Z (Some (js " Hello" ++ [Page.LF]))
              None None)
           (PageLoad.RevisionData 7 3 None (js "X") None) (js "== New ==")).
  reflexivity.
Defined.

(* ===================================================================== *)
(** ** Autocomplete.js: more about [search] and the channels              *)
(* ===================================================================== *)

Module SearchMoreFacts.
Import JsString Autocomplete AutocompleteSpec SearchFacts.

Lemma filter_all {A} (P : A → Prop) `{∀ x, Decision (P x)} l :
  Forall P l → filter P l = l.
Proof.
  induction 1 as [|x l Hx Hl IH]; [done|].
  by rewrite filter_cons_True, IH.
Qed.

Lemma filter_none {A} (P : A → Prop) `{∀ x, Decision (P x)} l :
  Forall (λ x, ¬ P x) l → filter P l = [].
Proof.
  induction 1 as [|x l Hx Hl IH]; [done|].
  by rewrite filter_cons_False, IH.
Qed.

Lemma Forall_filter {A} (P : A → Prop) `{∀ x, Decision (P x)} l :
  Forall P (filter P l).
Proof. apply Forall_forall. by intros x [? _]%list_elem_of_filter. Qed.

Lemma Forall_filter_keeps {A} (P Q : A → Prop) `{∀ x, Decision (P x)} l :
  Forall Q l → Forall Q (filter P l).
Proof.
  rewrite !Forall_forall. intros HQ x [_ Hx]%list_elem_of_filter. auto.
Qed.

Lemma isPrefixCI_nil item : isPrefixCI [] item = true.
Proof. by destruct item. Qed.

Lemma isInfixCI_nil item : isInfixCI [] item = true.
Proof. by destruct item. Qed.

Lemma search_again text items :
  search text (search text items) = search text items.
Proof.
  rewrite (search_two_classes text items).
  set (found := filter (λ item, isInfixCI text item = true) items).
  set (first := filter (λ item, isPrefixCI text item = true) found).
  set (second := filter (λ item, isPrefixCI text item = false) found).
  assert (Forall (λ item, isInfixCI text item = true) (first ++ second))
    as Hfound.
  { apply Forall_app. split; apply Forall_filter_keeps, Forall_filter. }
  rewrite search_two_classes, (filter_all _ _ Hfound), !filter_app.
  rewrite (filter_all _ first) by apply Forall_filter.
  rewrite (filter_none _ second).
  2:{ eapply Forall_impl; [apply Forall_filter|]. cbn. congruence. }
  rewrite (filter_none _ first).
  2:{ eapply Forall_impl; [apply Forall_filter|]. cbn. congruence. }
  rewrite (filter_all _ second) by apply Forall_filter.
  by rewrite app_nil_r.
Qed.

Lemma search_nil items : search [] items = items.
Proof.
  rewrite search_two_classes.
  rewrite (filter_all (λ item, isInfixCI [] item = true)).
  2:{ apply Forall_forall. intros. apply isInfixCI_nil. }
  rewrite filter_all.
  2:{ apply Forall_forall. intros. apply isPrefixCI_nil. }
  rewrite filter_none; [by rewrite app_nil_r|].
  apply Forall_forall. intros item _. by rewrite isPrefixCI_nil.
Qed.

End SearchMoreFacts.

(** X13.  Searching the result of [search] for the same text again changes
    nothing, and so does searching for the empty text: every item is
    kept, in its order. *)
Theorem search_twice_and_empty_text :
  ∀ (text : jsstring) (items : list jsstring),
    Autocomplete.search text (Autocomplete.search text items)
    = Autocomplete.search text items
    ∧ Autocomplete.search [] items = items.
Proof.
  intros text items. split.
  - apply SearchMoreFacts.search_again.
  - apply SearchMoreFacts.search_nil.
Qed.

Module ChannelMoreFacts.
Import JsString RegExp Autocomplete AutocompleteSpec AutocompleteLoop
  ChannelFacts.

Lemma setTenth_tenth vs v : setTenth vs v !! 9 = Some (Some v).
Proof.
  unfold setTenth. destruct (Nat.ltb_spec (length vs) 10) as [Hlt|Hge].
  - rewrite lookup_app_r by lia.
    rewrite lookup_app_r; rewrite length_replicate; [|lia].
    by replace (9 - length vs - (9 - length vs)) with 0 by lia.
  - apply list_lookup_insert_eq. lia.
Qed.

Lemma setTenth_long vs v :
  10 ≤ length vs → setTenth vs v = take 9 vs ++ Some v :: drop 10 vs.
Proof.
  intros Hge. unfold setTenth.
  destruct (Nat.ltb_spec (length vs) 10); [lia|].
  apply insert_take_drop. lia.
Qed.

Lemma setTenth_short vs v :
  length vs < 10 →
  setTenth vs v = vs ++ replicate (9 - length vs) None ++ [Some v].
Proof.
  intros Hlt. unfold setTenth.
  by destruct (Nat.ltb_spec (length vs) 10); [|lia].
Qed.

Lemma removeFirst_absent x l : x ∉ l → removeFirst x l = l.
Proof.
  induction l as [|y l IH]; [done|].
  intros [Hne Hl]%not_elem_of_cons. cbn [removeFirst].
  rewrite bool_decide_eq_false_2 by done. by rewrite IH.
Qed.

Lemma removeFirst_length x l :
  x ∈ l → S (length (removeFirst x l)) = length l.
Proof.
  induction l as [|y l IH]; [by intros ?%elem_of_nil|].
  cbn [removeFirst]. case_bool_decide as Hy; [done|].
  intros [->|Hin]%elem_of_cons; [done|]. cbn [length]. by rewrite IH.
Qed.

Lemma removeFirst_filter x l :
  filter (λ name, name ≠ x) (removeFirst x l) = filter (λ name, name ≠ x) l.
Proof.
  induction l as [|y l IH]; [done|].
  cbn [removeFirst]. case_bool_decide as Hy.
  - subst y. by rewrite filter_cons_False by auto.
  - by rewrite !filter_cons_True, IH by done.
Qed.

Lemma removeSelfLoop_filter currentUserName fuel :
  ∀ arr, length arr < fuel →
         removeSelfLoop currentUserName fuel arr
         = Some (removeSelf currentUserName arr).
Proof.
  induction fuel as [|fuel IH]; intros arr Hfuel; [lia|].
  cbn [removeSelfLoop]. case_bool_decide as Hin.
  - pose proof (removeFirst_length _ _ Hin).
    rewrite IH by lia. unfold removeSelf. by rewrite removeFirst_filter.
  - f_equal. unfold removeSelf. symmetry.
    apply SearchMoreFacts.filter_all, Forall_forall.
    intros name Hname ->. done.
Qed.

Section WithCollaborators.
Variable removeDuplicates : names → names.
Variable userNamespace : jsstring.
Variable colonNamespacesRegexp : jsstring → bool.
Variable colonNamespacesPrefixRegexp : jsstring → bool.
Variable currentUserName : jsstring.
Variable defaultUserNames : list jsstring.

Local Abbreviation values :=
  (values removeDuplicates userNamespace colonNamespacesRegexp
     colonNamespacesPrefixRegexp currentUserName defaultUserNames).
Local Abbreviation respond :=
  (respond removeDuplicates userNamespace colonNamespacesRegexp
     colonNamespacesPrefixRegexp currentUserName defaultUserNames).
Local Abbreviation resume :=
  (resume removeDuplicates userNamespace colonNamespacesRegexp
     currentUserName).
Local Abbreviation step :=
  (step removeDuplicates userNamespace colonNamespacesRegexp
     colonNamespacesPrefixRegexp currentUserName defaultUserNames).
Local Abbreviation run :=
  (run removeDuplicates userNamespace colonNamespacesRegexp
     colonNamespacesPrefixRegexp currentUserName defaultUserNames).
Local Abbreviation isLikelyName := (isLikelyName colonNamespacesPrefixRegexp).
Local Abbreviation normalize := (normalize colonNamespacesPrefixRegexp).
Local Abbreviation stored := (stored currentUserName).
Local Abbreviation lastQuery := (lastQuery colonNamespacesPrefixRegexp).
Local Abbreviation fromLookups := (fromLookups currentUserName).
Local Abbreviation mentionsDefault :=
  (mentionsDefault currentUserName defaultUserNames).

Lemma run_snoc k w es e : run k w (es ++ [e]) = step k (run k w es) e.
Proof using Type. unfold Autocomplete.run. by rewrite fold_left_app. Qed.

(** What the name of a lookup looks like. *)
Lemma likely_shape k text :
  isLikelyName k text = true →
  text ≠ []
  ∧ length text ≤ match k with Mentions => 85 | _ => 255 end
  ∧ (∀ a, a ∈ js "#<>[]|{}" → a ∉ text)
  ∧ countSpaces text ≤ match k with Mentions => 4 | _ => 9 end.
Proof using Type.
  unfold Autocomplete.isLikelyName. intros H.
  assert (∀ a, a ∈ js "#<>[]|{}" → a ∈ js "#<>[]|{}/@:") as Hsub.
  { intros a Ha. vm_compute in Ha. vm_compute.
    repeat (apply elem_of_cons in Ha as [->|Ha];
            [repeat (first [by left | right])|]).
    by apply elem_of_nil in Ha. }
  destruct k; repeat (apply andb_true_iff in H as [H ?]).
  all: repeat match goal with
              | H : negb _ = true |- _ => apply negb_true_iff in H
              | H : (_ <=? _) = true |- _ => apply Nat.leb_le in H
              end.
  all: split_and!; try done; try by destruct text.
  - intros a Ha. eapply hasOneOf_false; [eassumption|]. by apply Hsub.
  - intros a Ha. by eapply hasOneOf_false.
  - intros a Ha. by eapply hasOneOf_false.
Qed.

Lemma respond_request_more k ch text t' :
  request (respond k ch text) = Some t' →
  (text ∉ objectPrototypeNames)
  ∧ (k = Mentions → search text mentionsDefault = []).
Proof using Type.
  unfold Autocomplete.respond, readByText.
  destruct (includes text _); [done|].
  destruct (byText ch !! text) as [memo|]; [done|].
  case_bool_decide as Hproto; [done|].
  intros H. split; [done|]. intros ->.
  destruct (search text mentionsDefault) as [|found rest]; [done|].
  exfalso. revert H. cbn [length Nat.eqb request].
  by rewrite andb_false_r.
Qed.

Lemma respond_delivered k ch text :
  length (delivered (respond k ch text))
  = if inheritedMember (respond k ch text) then 0 else 1.
Proof using Type.
  unfold Autocomplete.respond.
  destruct (includes text _); [done|].
  destruct (readByText ch text); [done|done|]. by destruct k.
Qed.

Lemma resume_snapshot k ch text answer :
  snapshot (resume k ch text answer).1 = snapshot ch.
Proof using Type.
  destruct answer as [vs|]; [|done]. rewrite resume_resolved.
  done.
Qed.

Lemma step_snapshot k w e :
  snapshot (chan (step k w e))
  = match e with
    | Query text => Some (normalize k text)
    | Settle _ _ => snapshot (chan w)
    end.
Proof using Type.
  destruct e as [text|text answer].
  - rewrite step_query. cbn [chan]. apply values_snapshot.
  - rewrite step_settle. case_bool_decide; [|done].
    cbn [chan]. apply resume_snapshot.
Qed.

Lemma run_snapshot k es : ∀ w,
  snapshot (chan (run k w es))
  = match lastQuery k es with
    | Some text => Some text
    | None => snapshot (chan w)
    end.
Proof using Type.
  induction es as [|e es IH] using rev_ind; intros w; [done|].
  rewrite run_snoc, step_snapshot.
  unfold AutocompleteLoop.lastQuery. rewrite fold_left_app. cbn [fold_left].
  destruct e as [text|text answer]; [done|]. apply IH.
Qed.

Lemma fromLookups_more k es e memo :
  fromLookups k es memo → fromLookups k (es ++ [e]) memo.
Proof using Type.
  intros H text saved Hsaved. unfold AutocompleteLoop.fromLookups in H.
  destruct (H text saved Hsaved) as (found & Hin & ->).
  exists found. split; [|done]. apply elem_of_app. by left.
Qed.

Lemma run_fromLookups k es :
  fromLookups k es (byText (chan (run k (newWorld) es))).
Proof using Type.
  induction es as [|e es IH] using rev_ind.
  { cbn. apply map_Forall_empty. }
  rewrite run_snoc. destruct e as [text|text answer].
  - rewrite step_query. cbn [chan]. rewrite values_byText.
    by apply fromLookups_more.
  - rewrite step_settle. case_bool_decide; [|by apply fromLookups_more].
    cbn [chan]. destruct answer as [found|].
    + rewrite resume_resolved. cbn [fst byText].
      apply map_Forall_insert_2.
      * exists found. split; [|done]. apply elem_of_app. right. by left.
      * by apply fromLookups_more.
    + cbn. by apply fromLookups_more.
Qed.

Lemma values_cache k ch text :
  cache (values k ch text).1 = cache ch ∨ cache (values k ch text).1 = [].
Proof using Type.
  rewrite values_unfold.
  destruct (nonEmpty text && suppressed k ch text); [by left|].
  cbn. destruct (startsWithSnapshot _ _); [by left|by right].
Qed.

Lemma step_cache_without_self w e :
  currentUserName ∉ cache (chan w) →
  currentUserName ∉ cache (chan (step Mentions w e)).
Proof using Type.
  intros Hw. destruct e as [text|text answer].
  - rewrite step_query. cbn [chan].
    destruct (values_cache Mentions (chan w) text) as [->| ->]; [done|].
    apply not_elem_of_nil.
  - rewrite step_settle. case_bool_decide; [|done]. cbn [chan].
    destruct answer as [found|]; [|done].
    rewrite resume_resolved. cbn.
    unfold removeSelf. intros [Hne _]%list_elem_of_filter. done.
Qed.

Lemma run_cache_without_self es : ∀ w,
  currentUserName ∉ cache (chan w) →
  currentUserName ∉ cache (chan (run Mentions w es)).
Proof using Type.
  induction es as [|e es IH] using rev_ind; intros w Hw; [done|].
  rewrite run_snoc. by apply step_cache_without_self, IH.
Qed.

End WithCollaborators.

End ChannelMoreFacts.

(** X14.  A remote lookup is started only for a text that looks like a name:
    the text as the channel normalizes it is not empty, is no longer
    than 85 code units for mentions and 255 for the other channels,
    holds none of the characters [#<>[]|{}] and not the opening marker
    of its channel, has at most 4 spaces for mentions and 9 for the
    others, is not in the memo and is not the name of a member every
    object inherits; a lookup of user names is started only when no
    default user name matches the text. *)
Theorem lookup_only_for_likely_names :
  ∀ (removeDuplicates : Autocomplete.names → Autocomplete.names)
    (userNamespace : jsstring)
    (colonNamespacesRegexp colonNamespacesPrefixRegexp : jsstring → bool)
    (currentUserName : jsstring) (defaultUserNames : list jsstring)
    (k : Autocomplete.kind) (ch : Autocomplete.channel)
    (text asked : jsstring),
    Autocomplete.request
      (Autocomplete.values removeDuplicates userNamespace
         colonNamespacesRegexp colonNamespacesPrefixRegexp currentUserName
         defaultUserNames k ch text).2 = Some asked →
    asked = AutocompleteSpec.normalize colonNamespacesPrefixRegexp k text
    ∧ asked ≠ []
    ∧ length asked
      ≤ match k with Autocomplete.Mentions => 85 | _ => 255 end
    ∧ (∀ a, a ∈ js "#<>[]|{}" → a ∉ asked)
    ∧ JsString.includes asked (Autocomplete.marker k) = false
    ∧ Autocomplete.countSpaces asked
      ≤ match k with Autocomplete.Mentions => 4 | _ => 9 end
    ∧ Autocomplete.byText ch !! asked = None
    ∧ (asked ∉ Autocomplete.objectPrototypeNames)
    ∧ (k = Autocomplete.Mentions →
       Autocomplete.search asked
         (Autocomplete.mentionsDefault currentUserName defaultUserNames)
       = []).
Proof.
  intros rd un cnr cnpr cu dun k ch text asked Hreq.
  pose proof (ChannelFacts.values_request rd un cnr cnpr cu dun k ch text
                asked Hreq) as (Hasked & Hmemo & Hlikely).
  pose proof (ChannelMoreFacts.likely_shape cnpr k asked Hlikely)
    as (Hne & Hlen & Hchars & Hspaces).
  pose proof (ChannelFacts.likely_no_marker cnpr k asked Hlikely) as Hmarker.
  rewrite ChannelFacts.values_unfold in Hreq.
  destruct (Autocomplete.nonEmpty text && _); [done|].
  cbn [snd] in Hreq. rewrite <- Hasked in Hreq.
  apply ChannelMoreFacts.respond_request_more in Hreq as [Hproto Hdefault].
  by split_and!.
Qed.

Lemma lookup_only_for_likely_names_witness :
  let asked := js "Help" in
  asked
  = AutocompleteSpec.normalize (λ text, JsString.startsWith text (js ":"))
      Autocomplete.Wikilinks (js ":Help")
  ∧ asked ≠ []
  ∧ length asked ≤ 255
  ∧ (∀ a, a ∈ js "#<>[]|{}" → a ∉ asked)
  ∧ JsString.includes asked (Autocomplete.marker Autocomplete.Wikilinks)
    = false
  ∧ Autocomplete.countSpaces asked ≤ 9
  ∧ Autocomplete.byText Autocomplete.newChannel !! asked = None
  ∧ (asked ∉ Autocomplete.objectPrototypeNames)
  ∧ (Autocomplete.Wikilinks = Autocomplete.Mentions →
     Autocomplete.search asked (Autocomplete.mentionsDefault (js "Me") [])
     = []).
Proof.
  intros asked.
  apply (lookup_only_for_likely_names id (js "User") (λ _, false)
           (λ text, JsString.startsWith text (js ":")) (js "Me") []
           Autocomplete.Wikilinks Autocomplete.newChannel (js ":Help")).
  vm_compute. reflexivity.
Defined.

(** X15.  A query answers through the callback exactly once before it
    returns or waits for a lookup, unless the text names a member the
    memo object inherits; the one exception is a mention query that
    repeats the non-empty text of the query before it, which answers
    nothing. *)
Theorem query_calls_back_once :
  ∀ (removeDuplicates : Autocomplete.names → Autocomplete.names)
    (userNamespace : jsstring)
    (colonNamespacesRegexp colonNamespacesPrefixRegexp : jsstring → bool)
    (currentUserName : jsstring) (defaultUserNames : list jsstring)
    (k : Autocomplete.kind) (ch : Autocomplete.channel) (text : jsstring),
    let r := (Autocomplete.values removeDuplicates userNamespace
                colonNamespacesRegexp colonNamespacesPrefixRegexp
                currentUserName defaultUserNames k ch text).2 in
    Autocomplete.inheritedMember r = false →
    length (Autocomplete.delivered r)
    = if Autocomplete.nonEmpty text && AutocompleteSpec.suppressed k ch text
      then 0 else 1.
Proof.
  intros rd un cnr cnpr cu dun k ch text. cbv zeta.
  rewrite ChannelFacts.values_unfold.
  destruct (Autocomplete.nonEmpty text && _); [done|].
  cbn [snd]. intros Hown.
  by rewrite ChannelMoreFacts.respond_delivered, Hown.
Qed.

Lemma query_calls_back_once_witness :
  let values := Autocomplete.values id (js "User") (λ _, false) (λ _, false)
                  (js "Me") [js "Jane"] Autocomplete.Mentions in
  length (Autocomplete.delivered
            (values Autocomplete.newChannel (js "Ja")).2) = 1
  ∧ length (Autocomplete.delivered
              (values (values Autocomplete.newChannel (js "Ja")).1
                 (js "Ja")).2) = 0.
Proof.
  intros values. split.
  - apply (query_calls_back_once id (js "User") (λ _, false) (λ _, false)
             (js "Me") [js "Jane"] Autocomplete.Mentions
             Autocomplete.newChannel (js "Ja")).
    reflexivity.
  - apply (query_calls_back_once id (js "User") (λ _, false) (λ _, false)
             (js "Me") [js "Jane"] Autocomplete.Mentions
             (values Autocomplete.newChannel (js "Ja")).1 (js "Ja")).
    reflexivity.
Defined.

(** X16.  Whatever queries and settled lookups a channel has seen, its
    snapshot is the text of the last query, as the channel normalizes
    it; the settling of a lookup never changes it. *)
Theorem snapshot_is_last_query :
  ∀ (removeDuplicates : Autocomplete.names → Autocomplete.names)
    (userNamespace : jsstring)
    (colonNamespacesRegexp colonNamespacesPrefixRegexp : jsstring → bool)
    (currentUserName : jsstring) (defaultUserNames : list jsstring)
    (k : Autocomplete.kind) (w : Autocomplete.world)
    (es : list Autocomplete.event),
    Autocomplete.snapshot
      (Autocomplete.chan
         (Autocomplete.run removeDuplicates userNamespace
            colonNamespacesRegexp colonNamespacesPrefixRegexp
            currentUserName defaultUserNames k w es))
    = match AutocompleteLoop.lastQuery colonNamespacesPrefixRegexp k es with
      | Some text => Some text
      | None => Autocomplete.snapshot (Autocomplete.chan w)
      end.
Proof. intros. apply ChannelMoreFacts.run_snapshot. Qed.

(** X17.  Whatever queries and settled lookups a new channel has seen, every
    entry of its memo was brought by a resolved lookup for the very
    text it is stored under: it is the result of that lookup (without
    the current user for mentions) with the trimmed text written to
    the tenth slot. *)
Theorem memo_holds_resolved_lookups :
  ∀ (removeDuplicates : Autocomplete.names → Autocomplete.names)
    (userNamespace : jsstring)
    (colonNamespacesRegexp colonNamespacesPrefixRegexp : jsstring → bool)
    (currentUserName : jsstring) (defaultUserNames : list jsstring)
    (k : Autocomplete.kind) (es : list Autocomplete.event),
    let memo :=
      Autocomplete.byText
        (Autocomplete.chan
           (Autocomplete.run removeDuplicates userNamespace
              colonNamespacesRegexp colonNamespacesPrefixRegexp
              currentUserName defaultUserNames k Autocomplete.newWorld es)) in
    AutocompleteLoop.fromLookups currentUserName k es memo
    ∧ map_Forall
        (λ text saved, saved !! 9 = Some (Some (JsString.trim text))) memo.
Proof.
  intros rd un cnr cnpr cu dun k es memo.
  pose proof (ChannelMoreFacts.run_fromLookups rd un cnr cnpr cu dun k es)
    as H.
  split; [exact H|].
  intros text saved Hsaved. destruct (H text saved Hsaved) as (found & _ & ->).
  apply ChannelMoreFacts.setTenth_tenth.
Qed.

(** X18.  The cache of the mentions channel never holds the name of the
    current user, whatever queries and settled lookups it has seen. *)
Theorem mentions_cache_without_current_user :
  ∀ (removeDuplicates : Autocomplete.names → Autocomplete.names)
    (userNamespace : jsstring)
    (colonNamespacesRegexp colonNamespacesPrefixRegexp : jsstring → bool)
    (currentUserName : jsstring) (defaultUserNames : list jsstring)
    (es : list Autocomplete.event),
    currentUserName
    ∉ Autocomplete.cache
        (Autocomplete.chan
           (Autocomplete.run removeDuplicates userNamespace
              colonNamespacesRegexp colonNamespacesPrefixRegexp
              currentUserName defaultUserNames Autocomplete.Mentions
              Autocomplete.newWorld es)).
Proof.
  intros. apply ChannelMoreFacts.run_cache_without_self. apply not_elem_of_nil.
Qed.

(** X19.  The loop of [removeSelf], which splices out the first occurrence
    of the current user's name while the array includes it, ends and
    leaves the other names in their order: the result is the array
    filtered of that name. *)
Theorem removeSelf_loop_filters :
  ∀ (currentUserName : jsstring) (arr : list jsstring),
    AutocompleteLoop.removeSelfLoop currentUserName (S (length arr)) arr
    = Some (Autocomplete.removeSelf currentUserName arr)
    ∧ Autocomplete.removeSelf currentUserName arr
      = filter (λ name, name ≠ currentUserName) arr.
Proof.
  intros cu arr. split; [|done].
  apply ChannelMoreFacts.removeSelfLoop_filter. lia.
Qed.

(** X20.  The typed text takes the tenth place of a lookup's result: when
    the lookup brought ten names or more, the tenth is lost from the
    memo; when it brought fewer, the places up to the ninth are left
    empty. *)
Theorem tenth_lookup_result_is_replaced :
  ∀ (removeDuplicates : Autocomplete.names → Autocomplete.names)
    (userNamespace : jsstring) (colonNamespacesRegexp : jsstring → bool)
    (currentUserName : jsstring)
    (k : Autocomplete.kind) (ch : Autocomplete.channel) (text : jsstring)
    (found : list jsstring),
    let kept := AutocompleteSpec.stored currentUserName k found in
    let after :=
      (Autocomplete.resume removeDuplicates userNamespace
         colonNamespacesRegexp currentUserName k ch text (Resolved found)).1 in
    Autocomplete.cache after = kept
    ∧ Autocomplete.byText after !! text
      = Some (if length kept <? 10
              then (Some <$> kept) ++ replicate (9 - length kept) None
                     ++ [Some (JsString.trim text)]
              else (Some <$> take 9 kept) ++ Some (JsString.trim text)
                     :: (Some <$> drop 10 kept)).
Proof.
  intros rd un cnr cu k ch text found kept after. subst after.
  rewrite ChannelFacts.resume_resolved. cbn [fst Autocomplete.cache
    Autocomplete.byText]. split; [done|].
  rewrite lookup_insert_eq. f_equal. fold kept.
  destruct (Nat.ltb_spec (length kept) 10) as [Hlt|Hge].
  - rewrite ChannelMoreFacts.setTenth_short; rewrite length_fmap; done.
  - rewrite ChannelMoreFacts.setTenth_long by (rewrite length_fmap; lia).
    by rewrite fmap_take, fmap_drop.
Qed.

(* ===================================================================== *)
(** ** The order of strings and [sort()]                                  *)
(* ===================================================================== *)

Module SortFacts.
Import JsString Autocomplete JsCompare.

Lemma code_inj a b : code a = code b → a = b.
Proof.
  unfold code. intros H.
  by rewrite <- (ascii_nat_embedding a), <- (ascii_nat_embedding b), H.
Qed.

Lemma ltb_irrefl s : ltb s s = false.
Proof.
  induction s as [|a s IH]; [done|]. cbn [ltb].
  rewrite Nat.ltb_irrefl, Nat.eqb_refl. done.
Qed.

Lemma ltb_trans s : ∀ t u, ltb s t = true → ltb t u = true → ltb s u = true.
Proof.
  induction s as [|a s IH]; intros [|b t] [|c u]; cbn [ltb]; try done.
  intros H1 H2.
  apply orb_true_iff in H1 as [H1|[H1 H1']%andb_true_iff];
    apply orb_true_iff in H2 as [H2|[H2 H2']%andb_true_iff];
    repeat match goal with
           | H : (_ <? _) = true |- _ => apply Nat.ltb_lt in H
           | H : (_ =? _) = true |- _ => apply Nat.eqb_eq in H
           end.
  - apply orb_true_iff. left. apply Nat.ltb_lt. lia.
  - apply orb_true_iff. left. apply Nat.ltb_lt. lia.
  - apply orb_true_iff. left. apply Nat.ltb_lt. lia.
  - apply orb_true_iff. right. apply andb_true_iff. split.
    + apply Nat.eqb_eq. lia.
    + by apply (IH t u).
Qed.

Lemma ltb_asym s : ∀ t, ltb s t = true → ltb t s = false.
Proof.
  intros t H. destruct (ltb t s) eqn:H'; [|done].
  pose proof (ltb_trans _ _ _ H H') as Hss. by rewrite ltb_irrefl in Hss.
Qed.

Lemma ltb_total s : ∀ t, ltb s t = false → ltb t s = false → s = t.
Proof.
  induction s as [|a s IH]; intros [|b t]; cbn [ltb]; try done.
  intros H1 H2.
  apply orb_false_iff in H1 as [H1 H1'], H2 as [H2 H2'].
  apply Nat.ltb_ge in H1, H2.
  assert (code a = code b) as Hab by lia.
  rewrite Hab, Nat.eqb_refl in H1', H2'. cbn in H1', H2'.
  f_equal; [by apply code_inj|by apply IH].
Qed.

(** [s ≤ t] is [ltb t s = false]; it is transitive. *)
Lemma le_trans s t u :
  ltb t s = false → ltb u t = false → ltb u s = false.
Proof.
  intros Hst Htu. destruct (ltb u s) eqn:Hus; [|done].
  destruct (ltb s t) eqn:Hlt.
  - pose proof (ltb_trans _ _ _ Hus Hlt). congruence.
  - pose proof (ltb_total _ _ Hlt Hst) as ->. congruence.
Qed.

Lemma ascending_nil {A} (f : A → jsstring) : ascending f [].
Proof. intros i j x y _ Hx. done. Qed.

Lemma ascending_cons {A} (f : A → jsstring) x l :
  ascending f (x :: l)
  ↔ Forall (λ y, ltb (f y) (f x) = false) l ∧ ascending f l.
Proof.
  split.
  - intros H. split.
    + apply Forall_forall. intros y [j Hj]%list_elem_of_lookup.
      apply (H 0 (S j) x y); [lia|done|done].
    + intros i j y z Hij Hy Hz. apply (H (S i) (S j) y z); [lia|done|done].
  - intros [Hx Hl] i j y z Hij Hy Hz.
    destruct j as [|j]; [lia|]. cbn in Hz.
    destruct i as [|i].
    + cbn in Hy. injection Hy as <-.
      rewrite Forall_forall in Hx. apply Hx.
      by eapply list_elem_of_lookup_2.
    + cbn in Hy. apply (Hl i j y z); [lia|done|done].
Qed.

Section Sorting.
Context {A : Type}.
Variable compare : A → A → Z.

Lemma sortInsert_perm x l : sortInsert compare x l ≡ₚ x :: l.
Proof using Type.
  induction l as [|y l IH]; [done|]. cbn [sortInsert].
  destruct (compare x y >? 0)%Z; [|done].
  rewrite IH. apply Permutation_swap.
Qed.

Lemma sort_perm l : sort compare l ≡ₚ l.
Proof using Type.
  induction l as [|x l IH]; [done|]. cbn [sort].
  by rewrite sortInsert_perm, IH.
Qed.

End Sorting.

Section Default.
Context {A : Type}.
Variable toString : A → jsstring.

Lemma sortCompare_after x y :
  (sortCompare toString x y >? 0)%Z = true
  ↔ ltb (toString y) (toString x) = true.
Proof using Type.
  unfold sortCompare.
  destruct (ltb (toString x) (toString y)) eqn:Hxy.
  - split; [done|]. intros Hyx. apply ltb_asym in Hxy. congruence.
  - by destruct (ltb (toString y) (toString x)).
Qed.

Lemma sortInsert_ascending x l :
  ascending toString l →
  ascending toString (sortInsert (sortCompare toString) x l).
Proof using Type.
  induction l as [|y l IH]; intros Hl.
  { apply ascending_cons. split; [done|apply ascending_nil]. }
  cbn [sortInsert]. apply ascending_cons in Hl as [Hy Hl].
  destruct (sortCompare toString x y >? 0)%Z eqn:Hcmp.
  - apply sortCompare_after in Hcmp.
    apply ascending_cons. split; [|by apply IH].
    apply Forall_forall. intros z Hz.
    rewrite sortInsert_perm in Hz.
    apply elem_of_cons in Hz as [->|Hz].
    + by apply ltb_asym.
    + rewrite Forall_forall in Hy. by apply Hy.
  - assert (ltb (toString y) (toString x) = false) as Hxy.
    { destruct (ltb (toString y) (toString x)) eqn:H; [|done].
      apply sortCompare_after in H. congruence. }
    apply ascending_cons. split.
    + apply Forall_cons. split; [done|].
      eapply Forall_impl; [exact Hy|]. cbn. intros z Hz.
      by apply (le_trans _ (toString y)).
    + apply ascending_cons. by split.
Qed.

Lemma sort_ascending l : ascending toString (sort (sortCompare toString) l).
Proof using Type.
  induction l as [|x l IH]; [apply ascending_nil|].
  cbn [sort]. by apply sortInsert_ascending.
Qed.

End Default.

End SortFacts.

(* ===================================================================== *)
(** ** Autocomplete.js: the tags                                          *)
(* ===================================================================== *)

Module TagsFacts.
Import JsString RegExp RegExpSemantics RegExpFacts Autocomplete
  AutocompleteSpec SearchFacts VisitsFacts FirstSectionFacts Tags.

Lemma includes_one s a : includes s [a] = true ↔ a ∈ s.
Proof.
  induction s as [|b s IH]; cbn [includes startsWith].
  - split; [done|]. by intros ?%elem_of_nil.
  - rewrite andb_true_r. split.
    + intros [->%eqb_eq|H]%orb_true_iff; [by left|]. right. by apply IH.
    + intros [->|H]%elem_of_cons; apply orb_true_iff.
      * left. apply eqb_refl.
      * right. by apply IH.
Qed.

Lemma first_occurrence (a : ascii) (s : jsstring) :
  a ∈ s → ∃ pre post, s = pre ++ a :: post ∧ a ∉ pre.
Proof.
  induction s as [|b s IH]; [by intros ?%elem_of_nil|].
  destruct (decide (b = a)) as [->|Hne].
  - intros _. exists [], s. split; [done|]. apply not_elem_of_nil.
  - intros [->|Hin]%elem_of_cons; [done|].
    destruct (IH Hin) as (pre & post & -> & Hpre).
    exists (b :: pre), post. split; [done|].
    apply not_elem_of_cons. split; [congruence|done].
Qed.

Lemma scan_lit_first a pre post :
  a ∉ pre →
  ∀ bef, scan (lit a) bef (pre ++ a :: post)
         = Some (RMatch (length bef + length pre)
                   (S (length bef + length pre)) []).
Proof.
  induction pre as [|b pre IH]; intros Hpre bef.
  - cbn. rewrite eqb_refl. cbn. unfold index. cbn.
    by rewrite Nat.add_0_r.
  - apply not_elem_of_cons in Hpre as [Hne Hpre].
    cbn [app scan lit matcher after].
    assert (eqb a b = false) as ->.
    { destruct (eqb a b) eqn:H; [|done]. by apply eqb_eq in H. }
    rewrite IH by done. cbn [length]. f_equal. f_equal; lia.
Qed.

Lemma scan_lit_none a s : a ∉ s → ∀ bef, scan (lit a) bef s = None.
Proof.
  induction s as [|b s IH]; intros Hs bef; [done|].
  apply not_elem_of_cons in Hs as [Hne Hs].
  cbn [scan lit matcher after].
  assert (eqb a b = false) as ->.
  { destruct (eqb a b) eqn:H; [|done]. by apply eqb_eq in H. }
  by apply IH.
Qed.

Lemma indexOf_first a pre post :
  a ∉ pre → indexOf a (pre ++ a :: post) = Z.of_nat (length pre).
Proof.
  induction pre as [|b pre IH]; intros Hpre.
  - cbn. by rewrite eqb_refl.
  - apply not_elem_of_cons in Hpre as [Hne Hpre].
    cbn [app indexOf].
    assert (eqb b a = false) as ->.
    { destruct (eqb b a) eqn:H; [|done]. apply eqb_eq in H. congruence. }
    rewrite IH by done.
    destruct (Z.ltb_spec (Z.of_nat (length pre)) 0); [lia|].
    cbn [length]. lia.
Qed.

(** The text inserted for an element and the offset of the caret
    from its end. *)
Lemma transform_parts i :
  ∃ pre post,
    transform i = pre ++ post
    ∧ getEndOffset i = Z.of_nat (length post)
    ∧ match i with
      | Tag name =>
          pre = js "<" ++ name ++ js ">" ∧ post = js "</" ++ name ++ js ">"
      | Pair _ insert =>
          if includes insert (js "+")
          then insert = pre ++ js "+" ++ post ∧ "+"%char ∉ pre
          else pre = insert ∧ post = []
      end.
Proof.
  destruct i as [name|display insert].
  - exists (js "<" ++ name ++ js ">"), (js "</" ++ name ++ js ">").
    split_and!; try done.
    + cbn [transform]. by rewrite <- !app_assoc.
    + cbn [getEndOffset]. rewrite !length_app. cbn [length js
        list_ascii_of_string]. lia.
  - cbn [transform getEndOffset]. unfold removePlus.
    destruct (includes insert (js "+")) eqn:Hplus.
    + apply includes_one in Hplus.
      apply first_occurrence in Hplus as (pre & post & -> & Hpre).
      exists pre, post.
      rewrite (scan_lit_first _ pre post Hpre []).
      rewrite (indexOf_first _ pre post Hpre).
      assert (Z.of_nat (length (pre ++ "+"%char :: post)) - 1
              - Z.of_nat (length pre) = Z.of_nat (length post))%Z as ->.
      { rewrite length_app. cbn [length]. lia. }
      cbn [mindex mend length Nat.add].
      rewrite take_app_length.
      replace (S (length pre)) with (length (pre ++ ["+"%char]))
        by (rewrite length_app; cbn; lia).
      rewrite (cons_middle _ pre post), app_assoc, drop_app_length.
      rewrite <- app_assoc. by split_and!.
    + exists insert, []. rewrite app_nil_r.
      rewrite scan_lit_none; [done|].
      intros Hin. apply includes_one in Hin.
      change (js "+") with ["+"%char] in Hplus. congruence.
Qed.


Lemma letter_ascii a : letter a = asciiLetter a.
Proof. by destruct a as [[] [] [] [] [] [] [] []]. Qed.

Lemma lettersFrom_later b bef aft : lettersFrom (b :: bef) aft = false.
Proof.
  revert b bef. induction aft as [|a aft IH]; intros b bef; [done|].
  cbn [lettersFrom matcher before]. apply IH.
Qed.

Lemma letters_run rest :
  ∀ bef,
    match matcher (Star true (Char letter)) (Cursor bef rest) [] acceptAtEnd
    with Some _ => true | None => false end
    = forallb letter rest.
Proof.
  intros bef.
  destruct (forallb letter rest) eqn:Hall.
  - rewrite VisitsLineFacts.matcher_Star_greedy. cbn [after].
    rewrite <- (app_nil_r rest) at 2.
    by rewrite (greedy_run letter rest [] Hall I bef (S (length rest)) []
                  acceptAtEnd (Cursor (rev rest ++ bef) [], [])
                  ltac:(lia) eq_refl).
  - destruct (matcher _ _ _ _) as [[y c]|] eqn:Hm; [|done].
    apply matcher_sound in Hm as (y' & c' & Hmatches & Hend).
    unfold acceptAtEnd in Hend.
    destruct (after y') eqn:Hafter; [|done].
    apply star_char_inv in Hmatches as (w & Hw & Hrest & _).
    cbn [after] in Hrest. rewrite Hafter, app_nil_r in Hrest. subst w.
    exfalso. assert (forallb letter rest = true); [|congruence].
    apply forallb_forall. intros a Ha.
    rewrite Forall_forall in Hw. apply Hw. by apply list_elem_of_In.
Qed.

Lemma lettersOnly_spec text :
  lettersOnly text = nonEmpty text && forallb asciiLetter text.
Proof.
  unfold lettersOnly. destruct text as [|a rest]; [done|].
  cbn [lettersFrom nonEmpty forallb andb].
  rewrite VisitsLineFacts.matcher_Cat.
  change (matcher InputStart (Cursor [] (a :: rest)) []
            (λ y c', matcher (plus (Char letter)) y c' acceptAtEnd))
    with (matcher (Cat (Char letter) (Star true (Char letter)))
            (Cursor [] (a :: rest)) [] acceptAtEnd).
  rewrite VisitsLineFacts.matcher_Cat, matcher_Char.
  rewrite <- letter_ascii.
  assert (forallb asciiLetter rest = forallb letter rest) as ->.
  { induction rest as [|b rest IH]; [done|].
    cbn [forallb]. by rewrite IH, letter_ascii. }
  destruct (letter a); [|apply lettersFrom_later].
  rewrite <- (letters_run rest [a]).
  destruct (matcher (Star true (Char letter)) (Cursor [a] rest) []
              acceptAtEnd); [done|].
  apply lettersFrom_later.
Qed.

Lemma withSpace_computed : withSpace = [tag "math chem"].
Proof. vm_compute. reflexivity. Qed.

End TagsFacts.

(** X21.  The text inserted for a tag and the offset of the caret from its
    end fit together: for a plain tag the caret lands between the
    opening and the closing tag; for an element that gives the text to
    insert, the first [+] of that text is taken out and the caret lands
    where it was, and a text without [+] is inserted as it is with the
    caret at its end. *)
Theorem tags_caret_lands_at_the_plus :
  ∀ i : Tags.item,
    ∃ pre post,
      Tags.transform i = pre ++ post
      ∧ Tags.getEndOffset i = Z.of_nat (length post)
      ∧ match i with
        | Tags.Tag name =>
            pre = js "<" ++ name ++ js ">"
            ∧ post = js "</" ++ name ++ js ">"
        | Tags.Pair _ insert =>
            if JsString.includes insert (js "+")
            then insert = pre ++ js "+" ++ post ∧ "+"%char ∉ pre
            else pre = insert ∧ post = []
        end.
Proof. exact TagsFacts.transform_parts. Qed.

(** X22.  The tags answer with one call of the callback.  When the text is
    one or more letters of the basic Latin alphabet, or the tag
    [math chem] starts with it, letter case aside, the answer holds the
    default elements whose string form starts with the text, letter
    case aside, in the order of the sorted default list, which is the
    ascending order of the string forms; every other text is answered
    with nothing.  Elements that give a text to insert never count as
    tags with a space. *)
Theorem tags_values_by_prefix :
  ∀ (removeDuplicates : list Tags.item → list Tags.item) (text : jsstring),
    Tags.values removeDuplicates text
    = (if (Autocomplete.nonEmpty text && forallb Tags.asciiLetter text)
          || AutocompleteSpec.isPrefixCI text (js "math chem")
       then [Tags.prepareValues removeDuplicates
               (filter
                  (λ tag,
                     AutocompleteSpec.isPrefixCI text (Tags.toString tag)
                     = true)
                  Tags.default)]
       else [[]])
    ∧ Tags.withSpace = [Tags.tag "math chem"]
    ∧ Tags.default ≡ₚ Tags.listed
    ∧ JsCompare.ascending Tags.toString Tags.default.
Proof.
  intros rd text. split_and!.
  - unfold Tags.values.
    rewrite TagsFacts.lettersOnly_spec, TagsFacts.withSpace_computed.
    cbn [existsb Tags.tag Tags.toString]. rewrite orb_false_r.
    rewrite SearchFacts.test_startsWith, <- negb_orb.
    destruct (_ || _); cbn [negb]; [|done].
    do 2 f_equal. apply list_filter_iff. intros tag.
    by rewrite SearchFacts.test_startsWith.
  - apply TagsFacts.withSpace_computed.
  - apply SortFacts.sort_perm.
  - apply SortFacts.sort_ascending.
Qed.

(* ===================================================================== *)
(** ** options.js: [cleanUpVisits]                                        *)
(* ===================================================================== *)

Module CleanUpFacts.
Import JsString Autocomplete Options JsCompare OptionsCleanUp SortFacts.

Lemma cleanKey_lookup (b : option jsstring) (m : visitsObject) key key' :
  cleanKey b m key !! key'
  = if decide (key' = key) then keptOf b (m !! key) else m !! key'.
Proof.
  unfold cleanKey, keptOf.
  destruct (filter _ (default [] (m !! key))) as [|v kept]; cbn [length Nat.eqb].
  - destruct (decide (key' = key)) as [->|Hne].
    + apply lookup_delete_eq.
    + rewrite lookup_delete_ne by done. by rewrite lookup_insert_ne.
  - destruct (decide (key' = key)) as [->|Hne].
    + apply lookup_insert_eq.
    + by rewrite lookup_insert_ne.
Qed.

Lemma fold_cleanKey_lookup (b : option jsstring) keys :
  NoDup keys →
  ∀ (m : visitsObject) key',
    fold_left (cleanKey b) keys m !! key'
    = if decide (key' ∈ keys) then keptOf b (m !! key') else m !! key'.
Proof.
  induction 1 as [|key keys Hkey Hkeys IH]; intros m key'.
  { cbn. by rewrite decide_False by apply not_elem_of_nil. }
  cbn [fold_left]. rewrite IH, !cleanKey_lookup.
  destruct (decide (key' = key)) as [->|Hne].
  - rewrite decide_False by done. by rewrite decide_True by left.
  - destruct (decide (key' ∈ keys)) as [Hin|Hnin].
    + by rewrite decide_True by (by right).
    + rewrite decide_False; [done|].
      intros [?|?]%elem_of_cons; done.
Qed.

Lemma fold_concat_elem (m : visitsObject) keys :
  ∀ acc t,
    t ∈ fold_left (λ acc key, acc ++ default [] (m !! key)) keys acc
    ↔ t ∈ acc ∨ ∃ key, key ∈ keys ∧ t ∈ default [] (m !! key).
Proof.
  induction keys as [|key keys IH]; intros acc t; cbn [fold_left].
  - split; [by left|]. intros [?|(? & ?%elem_of_nil & _)]; done.
  - rewrite IH, elem_of_app. split.
    + intros [[?|?]|(key' & ? & ?)]; [by left| |].
      * right. exists key. split; [by left|done].
      * right. exists key'. split; [by right|done].
    + intros [?|(key' & [->|?]%elem_of_cons & ?)].
      * by left; left.
      * by left; right.
      * right. by exists key'.
Qed.

Lemma filter_length_le {A} (P : A → Prop) `{∀ x, Decision (P x)} l :
  length (filter P l) ≤ length l.
Proof.
  induction l as [|x l IH]; [done|]. rewrite filter_cons.
  destruct (decide (P x)); cbn [length]; lia.
Qed.

(** In an ascending list at most [k] elements are below the element
    at index [k]. *)
Lemma below_index (ts : list jsstring) k (b : jsstring) :
  ascending id ts → ts !! k = Some b →
  length (filter (λ t, ltb t b = true) ts) ≤ k.
Proof.
  intros Hasc Hb.
  rewrite <- (take_drop k ts), filter_app, length_app.
  rewrite (SearchMoreFacts.filter_none _ (drop k ts)).
  2:{ apply Forall_forall. intros t [j Hj]%list_elem_of_lookup.
      rewrite lookup_drop in Hj. intros Hlt.
      destruct j as [|j].
      - rewrite Nat.add_0_r, Hb in Hj. injection Hj as <-.
        by rewrite ltb_irrefl in Hlt.
      - pose proof (Hasc k (k + S j) b t ltac:(lia) Hb Hj) as Hle.
        cbn in Hle. congruence. }
  cbn [length]. rewrite Nat.add_0_r.
  etrans; [apply filter_length_le|]. rewrite length_take. lia.
Qed.

Section WithObjectKeys.
Variable Object_keys : visitsObject → list jsstring.

Lemma boundary_among visits (b : jsstring) :
  boundary Object_keys visits = Some b →
  b ∈ allTimestamps Object_keys visits.
Proof using Type.
  unfold boundary. intros H%list_elem_of_lookup_2.
  by rewrite sort_perm in H.
Qed.

Lemma boundary_Some visits :
  allTimestamps Object_keys visits ≠ [] →
  is_Some (boundary Object_keys visits).
Proof using Type.
  intros Hne. unfold boundary. apply lookup_lt_is_Some.
  pose proof (Permutation_length
                (sort_perm (sortCompare id)
                   (allTimestamps Object_keys visits))) as Hlen.
  rewrite Hlen.
  destruct (allTimestamps Object_keys visits) as [|t ts]; [done|].
  cbn [length]. apply Nat.Div0.div_lt_upper_bound. lia.
Qed.

Lemma below_boundary visits :
  length (filter (λ t, atLeast (boundary Object_keys visits) t = false)
            (allTimestamps Object_keys visits))
  ≤ length (allTimestamps Object_keys visits) / 10.
Proof using Type.
  destruct (boundary Object_keys visits) as [b|] eqn:Hb.
  - unfold boundary in Hb.
    pose proof (sort_perm (sortCompare id)
                  (allTimestamps Object_keys visits)) as Hperm.
    rewrite <- Hperm at 1. rewrite <- (Permutation_length Hperm).
    etrans; [|apply (below_index _ _ b (sort_ascending id _) Hb)].
    apply Nat.eq_le_incl. f_equal. apply list_filter_iff.
    intros t. cbn. by destruct (ltb t b).
  - destruct (allTimestamps Object_keys visits) as [|t ts] eqn:Hts;
      [cbn; lia|].
    destruct (boundary_Some visits) as [b Hb']; [by rewrite Hts|].
    congruence.
Qed.

End WithObjectKeys.

End CleanUpFacts.

Module CleanUpSampleFacts.
Import JsString Options CleanUpSample.

Lemma keys_NoDup : NoDup (keys visits).
Proof.
  unfold keys. apply NoDup_cons. split.
  - intros [H|H]%elem_of_cons; [done|]. by apply elem_of_nil in H.
  - apply NoDup_singleton.
Qed.

Lemma keys_own key : key ∈ keys visits ↔ is_Some (visits !! key).
Proof.
  unfold keys, visits. split.
  - intros [->|[->|H]%elem_of_cons]%elem_of_cons.
    + by rewrite lookup_insert_eq.
    + rewrite lookup_insert_ne by done. by rewrite lookup_insert_eq.
    + by apply elem_of_nil in H.
  - intros [arr H].
    apply lookup_insert_Some in H as [[<- _]|[_ H]]; [by left|].
    apply lookup_insert_Some in H as [[<- _]|[_ H]]; [by right; left|].
    by rewrite lookup_empty in H.
Qed.

End CleanUpSampleFacts.

(** X23.  [cleanUpVisits] keeps under every key the visits that are not
    below the boundary, in their order, and drops the keys that are
    left with no visit; it adds no key. *)
Theorem cleanUpVisits_keeps_visits_from_boundary :
  ∀ (Object_keys : Options.visitsObject → list jsstring)
    (visits : Options.visitsObject),
    NoDup (Object_keys visits) →
    (∀ key, key ∈ Object_keys visits ↔ is_Some (visits !! key)) →
    ∀ key,
      OptionsCleanUp.cleanUpVisits Object_keys visits !! key
      = match
          filter
            (λ visit,
               OptionsCleanUp.atLeast
                 (OptionsCleanUp.boundary Object_keys visits) visit = true)
            (default [] (visits !! key))
        with
        | [] => None
        | v :: kept => Some (v :: kept)
        end.
Proof.
  intros Object_keys visits Hnodup Hown key.
  unfold OptionsCleanUp.cleanUpVisits.
  rewrite (CleanUpFacts.fold_cleanKey_lookup _ _ Hnodup).
  destruct (decide (key ∈ Object_keys visits)) as [Hin|Hnin]; [done|].
  assert (visits !! key = None) as ->; [|done].
  apply eq_None_not_Some. by rewrite <- Hown.
Qed.

Lemma cleanUpVisits_keeps_visits_from_boundary_witness :
  OptionsCleanUp.cleanUpVisits CleanUpSample.keys CleanUpSample.visits
    !! js "7"
  = Some [js "1600000300"; js "1600000100"].
Proof.
  rewrite (cleanUpVisits_keeps_visits_from_boundary CleanUpSample.keys
             CleanUpSample.visits CleanUpSampleFacts.keys_NoDup
             CleanUpSampleFacts.keys_own (js "7")).
  vm_compute. reflexivity.
Defined.

(** X24.  The boundary of [cleanUpVisits] is one of the timestamps, and the
    timestamps below it, which are the ones removed, are never more
    than a tenth of all the timestamps. *)
Theorem cleanUpVisits_removes_at_most_a_tenth :
  ∀ (Object_keys : Options.visitsObject → list jsstring)
    (visits : Options.visitsObject),
    let timestamps := OptionsCleanUp.allTimestamps Object_keys visits in
    let boundary := OptionsCleanUp.boundary Object_keys visits in
    length (filter (λ t, OptionsCleanUp.atLeast boundary t = false)
              timestamps)
    ≤ length timestamps / 10
    ∧ match boundary with
      | Some b => b ∈ timestamps
      | None => timestamps = []
      end.
Proof.
  intros Object_keys visits timestamps boundary. split.
  - apply CleanUpFacts.below_boundary.
  - subst timestamps boundary.
    destruct (OptionsCleanUp.boundary Object_keys visits) as [b|] eqn:Hb.
    + by apply CleanUpFacts.boundary_among.
    + destruct (OptionsCleanUp.allTimestamps Object_keys visits)
        as [|t ts] eqn:Hts; [done|].
      destruct (CleanUpFacts.boundary_Some Object_keys visits) as [b Hb'];
        [by rewrite Hts|congruence].
Qed.

(** X25.  With fewer than ten timestamps in all, and no page without a
    visit, [cleanUpVisits] returns the visits as they are: the retry of
    [setVisits] after a size limit error then saves the same data
    again. *)
Theorem cleanUpVisits_changes_nothing_below_ten :
  ∀ (Object_keys : Options.visitsObject → list jsstring)
    (visits : Options.visitsObject),
    NoDup (Object_keys visits) →
    (∀ key, key ∈ Object_keys visits ↔ is_Some (visits !! key)) →
    (∀ key, visits !! key ≠ Some []) →
    length (OptionsCleanUp.allTimestamps Object_keys visits) < 10 →
    OptionsCleanUp.cleanUpVisits Object_keys visits = visits.
Proof.
  intros Object_keys visits Hnodup Hown Hfull Hfew.
  apply map_eq. intros key.
  unfold OptionsCleanUp.cleanUpVisits.
  rewrite (CleanUpFacts.fold_cleanKey_lookup _ _ Hnodup).
  destruct (decide (key ∈ Object_keys visits)) as [Hin|Hnin]; [|done].
  destruct (visits !! key) as [arr|] eqn:Harr; [|done].
  unfold OptionsCleanUp.keptOf. cbn [default].
  pose proof (CleanUpFacts.below_boundary Object_keys visits) as Hbelow.
  rewrite (Nat.div_small _ 10) in Hbelow by done.
  rewrite SearchMoreFacts.filter_all.
  - destruct arr as [|v arr]; [|done]. by destruct (Hfull key).
  - apply Forall_forall. intros t Ht.
    destruct (OptionsCleanUp.atLeast _ t) eqn:Hat; [done|].
    assert (t ∈ filter
              (λ t, OptionsCleanUp.atLeast
                      (OptionsCleanUp.boundary Object_keys visits) t = false)
              (OptionsCleanUp.allTimestamps Object_keys visits)) as Hin'.
    { apply list_elem_of_filter. split; [done|].
      apply CleanUpFacts.fold_concat_elem. right. exists key.
      by rewrite Harr. }
    destruct (filter _ (OptionsCleanUp.allTimestamps Object_keys visits));
      [by apply elem_of_nil in Hin'|cbn in Hbelow; lia].
Qed.

Lemma cleanUpVisits_changes_nothing_below_ten_witness :
  OptionsCleanUp.cleanUpVisits CleanUpSample.keys CleanUpSample.visits
  = CleanUpSample.visits.
Proof.
  apply (cleanUpVisits_changes_nothing_below_ten CleanUpSample.keys
           CleanUpSample.visits CleanUpSampleFacts.keys_NoDup
           CleanUpSampleFacts.keys_own).
  - intros key H. unfold CleanUpSample.visits in H.
    apply lookup_insert_Some in H as [[_ ?]|[_ H]]; [done|].
    apply lookup_insert_Some in H as [[_ ?]|[_ H]]; [done|].
    by rewrite lookup_empty in H.
  - vm_compute. lia.
Defined.

(* ===================================================================== *)
(** ** options.js: what [unpackVisits] reads                              *)
(* ===================================================================== *)

Module UnpackFacts.
Import JsString RegExp RegExpSemantics RegExpFacts FirstSectionFacts
  VisitsFacts Options OptionsSpec.

Lemma plus_char_inv p x c y c' :
  matches (plus (Char p)) x c y c' →
  ∃ w, w ≠ [] ∧ Forall (λ a, p a = true) w ∧ after x = w ++ after y
       ∧ before y = rev w ++ before x ∧ c' = c.
Proof.
  unfold plus. intros H. inversion H as [| |? ? ? ? z c0 ? ? H1 H2| | | | | | | |];
    subst; clear H.
  inversion H1; subst; clear H1.
  apply star_char_inv in H2 as (w & Hw & Hafter & Hbefore & ->).
  cbn [after before] in *.
  exists (a :: w). split_and!; try done.
  - by apply Forall_cons.
  - cbn. by rewrite Hafter.
  - rewrite Hbefore. cbn [rev]. by rewrite <- app_assoc.
Qed.

Lemma capture_plus_inv n p x c y c' :
  matches (Capture n (plus (Char p))) x c y c' →
  ∃ w, w ≠ [] ∧ Forall (λ a, p a = true) w ∧ after x = w ++ after y
       ∧ before y = rev w ++ before x ∧ c' = (n, w) :: c.
Proof.
  intros H. inversion H; subst; clear H.
  match goal with H : matches (plus _) _ _ _ _ |- _ =>
    apply plus_char_inv in H as (w & Hne & Hw & Hafter & Hbefore & ->) end.
  exists w. split_and!; try done.
  destruct x as [bef aft], y as [bef' aft']. cbn [before] in Hbefore.
  subst bef'. by rewrite between_app.
Qed.

(** What a match of the pattern of [unpackVisits] has read. *)
Lemma visits_match_inv x y c :
  matches visitsRegexp x [] y c →
  ∃ key spaces joined,
    isKey key = true
    ∧ forallb (eqb " "%char) spaces = true
    ∧ joined ≠ []
    ∧ forallb (λ a, negb (isLineTerminator a)) joined = true
    ∧ after x = key ++ ","%char :: spaces ++ joined ++ after y
    ∧ c = [(2, joined); (1, key)]
    ∧ atLineStart x ∧ atLineEnd y.
Proof.
  unfold visitsRegexp. cbn [cat]. intros H.
  inversion H as [| |? ? ? ? x1 c1 ? ? H1 H2| | | | | | | |]; subst; clear H.
  inversion H1; subst; clear H1.
  inversion H2 as [| |? ? ? ? x2 c2 ? ? H3 H4| | | | | | | |]; subst; clear H2.
  apply capture_plus_inv in H3 as (key & Hkey & Hdigits & Ha1 & Hb1 & ->).
  inversion H4 as [| |? ? ? ? x3 c3 ? ? H5 H6| | | | | | | |]; subst; clear H4.
  inversion H5; subst; clear H5.
  inversion H6 as [| |? ? ? ? x4 c4 ? ? H7 H8| | | | | | | |]; subst; clear H6.
  apply star_char_inv in H7 as (spaces & Hspaces & Ha3 & Hb3 & ->).
  inversion H8 as [| |? ? ? ? x5 c5 ? ? H9 H10| | | | | | | |]; subst; clear H8.
  apply capture_plus_inv in H9 as (joined & Hjoined & Hdots & Ha4 & Hb4 & ->).
  inversion H10; subst; clear H10.
  cbn [after before] in *.
  exists key, spaces, joined. split_and!; try done.
  - unfold isKey. destruct key; [done|].
    apply forallb_forall. intros d Hd. rewrite Forall_forall in Hdigits.
    apply Hdigits. by apply list_elem_of_In.
  - apply forallb_forall. intros d Hd. rewrite Forall_forall in Hspaces.
    apply Hspaces. by apply list_elem_of_In.
  - apply forallb_forall. intros d Hd. rewrite Forall_forall in Hdots.
    apply (Hdots d). by apply list_elem_of_In.
  - match goal with H : eqb ","%char _ = true |- _ =>
      apply eqb_eq in H as <- end.
    by rewrite Ha1, Ha3, Ha4.
Qed.

Lemma exec_matches r s i m :
  exec r s i = Some m →
  ∃ pre rest y,
    s = pre ++ rest
    ∧ matches r (Cursor (rev pre) rest) [] y (mgroups m).
Proof.
  unfold exec. destruct (length s <? i); [done|].
  intros (skipped & rest & y & Haft & _ & Hm & _)%scan_Some.
  apply matcher_sound in Hm as (y' & c' & Hmatches & [= -> ->]).
  exists (take i s ++ skipped), rest, y. split.
  - by rewrite <- app_assoc, <- Haft, take_drop.
  - by rewrite rev_app_distr.
Qed.

Lemma execAll_elem r s fuel :
  ∀ i ms, execAll r s fuel i = Some ms →
          ∀ m, m ∈ ms → ∃ j, exec r s j = Some m.
Proof.
  induction fuel as [|fuel IH]; intros i ms Hms m Hm; [done|].
  cbn [execAll] in Hms.
  destruct (exec r s i) as [m0|] eqn:Hexec.
  - destruct (execAll r s fuel (mend m0)) as [ms'|] eqn:Hrest; [|done].
    injection Hms as <-.
    apply elem_of_cons in Hm as [->|Hm]; [by exists i|].
    by apply (IH _ _ Hrest).
  - injection Hms as <-. by apply elem_of_nil in Hm.
Qed.

Lemma split_not_nil sep s : split sep s ≠ [].
Proof.
  destruct s as [|a s]; [done|]. cbn [split].
  destruct (eqb a sep); [done|]. by destruct (split sep s).
Qed.

Lemma join_split sep s : join [sep] (split sep s) = s.
Proof.
  induction s as [|a s IH]; [done|]. cbn [split].
  pose proof (split_not_nil sep s) as Hne.
  destruct (eqb a sep) eqn:Ha.
  - apply eqb_eq in Ha as ->.
    destruct (split sep s) as [|w ws]; [done|].
    cbn [join]. cbn [join] in IH. by rewrite IH.
  - destruct (split sep s) as [|w ws]; [done|].
    destruct ws as [|w' ws]; cbn [join] in *; by rewrite <- IH.
Qed.

Lemma split_parts (q : ascii → bool) sep s :
  forallb q s = true →
  Forall (λ w, forallb (λ a, negb (eqb a sep) && q a) w = true)
    (split sep s).
Proof.
  induction s as [|a s IH]; cbn [forallb split].
  { intros _. by apply Forall_cons. }
  intros [Ha Hs]%andb_true_iff. specialize (IH Hs).
  destruct (eqb a sep) eqn:Hsep.
  - by apply Forall_cons.
  - destruct (split sep s) as [|w ws].
    { apply Forall_cons. split; [|done]. cbn [forallb]. by rewrite Hsep, Ha. }
    apply Forall_cons in IH as [Hw Hws].
    apply Forall_cons. split; [|done].
    cbn [forallb]. by rewrite Hsep, Ha, Hw.
Qed.

Lemma fold_insert_Forall {A} (P : jsstring → list jsstring → Prop)
    (f : A → jsstring) (g : A → list jsstring) ms :
  ∀ acc : visitsObject,
    map_Forall P acc →
    (∀ m, m ∈ ms → P (f m) (g m)) →
    map_Forall P (fold_left (λ visits m, <[f m := g m]> visits) ms acc).
Proof.
  induction ms as [|m ms IH]; intros acc Hacc Hms; [done|].
  cbn [fold_left]. apply IH.
  - apply map_Forall_insert_2; [|done]. apply Hms. by left.
  - intros m' Hm'. apply Hms. by right.
Qed.

End UnpackFacts.

(** X26.  [unpackVisits] ends on every string, and every entry of its result
    was read from a whole line of the string: the key is a run of one
    or more digits at the start of a line, followed by a comma and any
    number of spaces; the visits are the rest of the line, which is not
    empty, cut at its commas, so there is at least one visit and no
    visit holds a comma or a line terminator. *)
Theorem unpackVisits_reads_whole_lines :
  ∀ visitsString : jsstring,
    ∃ visits,
      Options.unpackVisits visitsString = Some visits
      ∧ map_Forall
          (λ key arr,
             OptionsSpec.isKey key = true
             ∧ arr ≠ []
             ∧ Forall
                 (λ visit,
                    forallb
                      (λ a, negb (JsString.eqb a ","%char)
                            && negb (JsString.isLineTerminator a))
                      visit = true)
                 arr
             ∧ ∃ pre spaces post,
                 visitsString
                 = pre ++ key ++ js "," ++ spaces
                     ++ JsString.join (js ",") arr ++ post
                 ∧ JsString.join (js ",") arr ≠ []
                 ∧ forallb (JsString.eqb " "%char) spaces = true
                 ∧ match last pre with
                   | Some a => JsString.isLineTerminator a = true
                   | None => True
                   end
                 ∧ match post with
                   | a :: _ => JsString.isLineTerminator a = true
                   | [] => True
                   end)
          visits.
Proof.
  intros s. unfold Options.unpackVisits.
  rewrite RegExpFacts.exec_loop_execAll.
  destruct (RegExpFacts.execAll_total Options.visitsRegexp s
              (S (length s)) 0) as [ms Hms]; [done|lia|lia|].
  rewrite Hms. cbn [fmap option_fmap option_map].
  eexists. split; [done|].
  apply UnpackFacts.fold_insert_Forall; [apply map_Forall_empty|].
  intros m Hm.
  destruct (UnpackFacts.execAll_elem _ _ _ _ _ Hms m Hm) as [j Hj].
  apply UnpackFacts.exec_matches in Hj as (pre & rest & y & Hs & Hmatches).
  apply UnpackFacts.visits_match_inv in Hmatches
    as (key & spaces & joined & Hkey & Hspaces & Hjoined & Hchars & Hafter
        & Hgroups & Hstart & Hend).
  unfold Options.matched. rewrite Hgroups. cbn [RegExp.group Nat.eqb default].
  cbn [RegExp.after] in Hafter.
  split_and!; [done|apply UnpackFacts.split_not_nil| |].
  - eapply Forall_impl; [apply (UnpackFacts.split_parts _ _ _ Hchars)|].
    done.
  - exists pre, spaces, (RegExp.after y).
    change (js ",") with [","%char].
    rewrite UnpackFacts.join_split. split_and!; try done.
    + by rewrite Hs, Hafter.
    + unfold RegExpSemantics.atLineStart in Hstart.
      cbn [RegExp.before] in Hstart. clear Hs.
      destruct pre as [|a pre _] using rev_ind; [done|].
      rewrite last_snoc. by rewrite rev_app_distr in Hstart.
Qed.

(* ===================================================================== *)
(** ** options.js: the watched sections                                   *)
(* ===================================================================== *)

Module WatchedFacts.
Import JsString RegExp RegExpSemantics RegExpFacts Options OptionsSpec
  VisitsFacts VisitsLineFacts VisitsLoopFacts WatchedSections WatchedSpec.

Ltac norm_app := repeat (progress (rewrite <- ?app_assoc; cbn [app])).

Lemma eqb_sym a b : eqb a b = eqb b a.
Proof. unfold eqb. apply Ascii.eqb_sym. Qed.

(** [pageIdPart] on a page identifier followed by a space. *)
Lemma matcher_pageIdPart bef key more :
  isKey key = true →
  matcher pageIdPart (Cursor bef (key ++ " "%char :: more)) [] accept
  = Some (Cursor (" "%char :: rev key ++ bef) more, [(1, key)]).
Proof.
  intros Hkey. destruct key as [|d key]; [done|]. simpl in Hkey.
  apply andb_true_iff in Hkey as [Hd Hkey].
  unfold pageIdPart, plus, lit.
  rewrite matcher_Cat, matcher_Capture, matcher_Cat.
  simpl app. rewrite matcher_Char, Hd, matcher_Star_greedy.
  apply greedy_run; [done|done|simpl; rewrite ?length_app; simpl; lia|].
  rewrite between_cons, matcher_Char, eqb_refl.
  unfold accept. simpl. by rewrite <- !app_assoc.
Qed.

Lemma separatorAt_start key more :
  isKey key = true →
  separatorAt (Cursor [] (key ++ " "%char :: more))
  = Some (Cursor (" "%char :: rev key) more, [(1, key)]).
Proof.
  intros Hkey. unfold separatorAt.
  rewrite matcher_Cat. cbn [matcher before].
  rewrite (matcher_pageIdPart [] key more Hkey). by rewrite app_nil_r.
Qed.

Lemma separatorAt_boundary b bef key more :
  isKey key = true →
  separatorAt
    (Cursor (b :: bef) (Page.LF :: " "%char :: key ++ " "%char :: more))
  = Some (Cursor (" "%char :: rev key ++ " "%char :: Page.LF :: b :: bef) more,
          [(1, key)]).
Proof.
  intros Hkey. unfold separatorAt.
  rewrite matcher_Cat. cbn [matcher before].
  unfold literal, lit. cbn [fold_right].
  rewrite !matcher_Cat, matcher_Char, eqb_refl.
  rewrite !matcher_Cat, matcher_Char, eqb_refl.
  cbn [matcher].
  by rewrite (matcher_pageIdPart _ key more Hkey).
Qed.

Lemma separatorAt_none b bef a rest :
  eqb a Page.LF
  && match rest with c :: _ => eqb c " "%char | [] => false end = false →
  separatorAt (Cursor (b :: bef) (a :: rest)) = None.
Proof.
  intros H. unfold separatorAt.
  rewrite matcher_Cat. cbn [matcher before].
  unfold literal, lit. cbn [fold_right].
  rewrite !matcher_Cat, matcher_Char, (eqb_sym Page.LF a).
  destruct (eqb a Page.LF); [|done]. cbn [andb] in H.
  destruct rest as [|c rest]; [done|].
  rewrite !matcher_Cat, matcher_Char, (eqb_sym " "%char c).
  by rewrite H.
Qed.

(** The loop of [split] passes over a text that holds no separator. *)
Lemma splitLoop_through w :
  ∀ fuel piece b bef rest,
    separatorFree w = true →
    length w ≤ fuel →
    splitLoop fuel piece (Cursor (b :: bef) (w ++ rest))
    = splitLoop (fuel - length w) (piece ++ w)
        (Cursor (rev w ++ b :: bef) rest).
Proof.
  induction w as [|a w IH]; intros fuel piece b bef rest Hfree Hfuel.
  { cbn [app length rev]. by rewrite Nat.sub_0_r, app_nil_r. }
  destruct fuel as [|fuel]; [cbn in Hfuel; lia|].
  cbn [separatorFree] in Hfree.
  apply andb_true_iff in Hfree as [Ha Hfree]. apply negb_true_iff in Ha.
  cbn [app splitLoop after before].
  rewrite separatorAt_none.
  2:{ destruct (eqb a Page.LF); [|done]. cbn [andb] in *.
      destruct w as [|c w]; [done|]. done. }
  rewrite IH; [|done|cbn in Hfuel; lia].
  cbn [length Nat.sub rev]. by rewrite <- !app_assoc.
Qed.

Lemma isSection_parts s :
  isSection s = true →
  forallb (λ a, negb (eqb a Page.LF)) s = true
  ∧ (∃ a s', s = a :: s' ∧ eqb a " "%char = false)
  ∧ (∃ z, last s = Some z ∧ isWhiteSpace z = false).
Proof.
  unfold isSection. intros [[H1 H2]%andb_true_iff H3]%andb_true_iff.
  split_and!; [done| |].
  - destruct s as [|a s']; [done|]. exists a, s'.
    by apply negb_true_iff in H2.
  - destruct (last s) as [z|]; [|done]. exists z.
    by apply negb_true_iff in H3.
Qed.

Lemma separatorFree_plain s rest :
  forallb (λ a, negb (eqb a Page.LF)) s = true →
  separatorFree rest = true →
  separatorFree (s ++ rest) = true.
Proof.
  induction s as [|a s IH]; [done|]. cbn [forallb app separatorFree].
  intros [Ha Hs]%andb_true_iff Hrest. apply negb_true_iff in Ha.
  rewrite Ha. cbn [andb negb]. by apply IH.
Qed.

Lemma separatorFree_block arr :
  Forall (λ s, isSection s = true) arr → separatorFree (block arr) = true.
Proof.
  induction 1 as [|s arr Hs Harr IH]; [done|].
  apply isSection_parts in Hs as (Hplain & (a & s' & -> & Ha) & _).
  unfold block in *. destruct arr as [|s2 arr].
  { cbn [join]. rewrite <- (app_nil_r (a :: s')).
    by apply separatorFree_plain. }
  change (join [Page.LF] ((a :: s') :: s2 :: arr))
    with ((a :: s') ++ Page.LF :: join [Page.LF] (s2 :: arr)).
  apply separatorFree_plain; [done|].
  cbn [separatorFree]. rewrite IH, andb_true_r.
  apply Forall_cons in Harr as [Hs2 _].
  apply isSection_parts in Hs2 as (_ & (c & s2' & -> & Hc) & _).
  destruct arr; cbn [join app]; by rewrite eqb_refl, Hc.
Qed.

Lemma laterEntries_cons e es :
  laterEntries (e :: es)
  = Page.LF :: " "%char :: e.1 ++ " "%char :: block e.2 ++ laterEntries es.
Proof.
  unfold laterEntries. cbn [map concat app]. by rewrite <- !app_assoc.
Qed.

Lemma splitLoop_entries es :
  ∀ fuel w piece b bef,
    Forall goodEntry es →
    separatorFree w = true →
    length (w ++ laterEntries es) < fuel →
    splitLoop fuel piece (Cursor (b :: bef) (w ++ laterEntries es))
    = Some ((piece ++ w) :: laterPages es).
Proof.
  induction es as [|e es IH]; intros fuel w piece b bef Hgood Hfree Hfuel.
  - cbn [laterEntries laterPages map concat]. cbn [laterEntries map concat]
      in Hfuel. rewrite app_nil_r in Hfuel.
    rewrite splitLoop_through by (done || lia).
    destruct (fuel - length w) as [|fuel'] eqn:Hf; [lia|]. done.
  - apply Forall_cons in Hgood as [(Hkey & Hne & Hsections) Hgood].
    rewrite length_app in Hfuel.
    rewrite splitLoop_through by (done || lia).
    destruct (fuel - length w) as [|fuel'] eqn:Hf; [lia|].
    rewrite laterEntries_cons in *.
    cbn [splitLoop after].
    destruct (rev w ++ b :: bef) as [|b' bef'] eqn:Hbef.
    { by destruct (rev w). }
    rewrite separatorAt_boundary by done. cbn [before].
    rewrite (proj2 (Nat.eqb_neq _ _)).
    2:{ unfold index. cbn [before length]. rewrite length_app, length_rev.
        cbn [length]. lia. }
    cbn [group Nat.eqb default].
    rewrite (IH fuel' (block e.2) []); [done|done| |].
    + by apply separatorFree_block.
    + cbn [length] in Hfuel. rewrite !length_app in Hfuel.
      cbn [length] in Hfuel. rewrite !length_app in Hfuel.
      rewrite length_app. lia.
Qed.

Lemma splitBySeparator_entries e es :
  Forall goodEntry (e :: es) →
  splitBySeparator (packedEntries e es)
  = Some ([] :: laterPages (e :: es)).
Proof.
  intros [(Hkey & Hne & Hsections) Hgood]%Forall_cons.
  unfold packedEntries, splitBySeparator.
  destruct e as [key arr]. cbn [fst snd] in *.
  destruct (isKey_first _ Hkey) as (d & key' & -> & Hd).
  cbn [app].
  change (d :: key' ++ " "%char :: block arr ++ laterEntries es)
    with ((d :: key') ++ " "%char :: block arr ++ laterEntries es).
  set (text := (d :: key') ++ " "%char :: block arr ++ laterEntries es).
  cbn [splitLoop after]. subst text. cbn [app].
  change (d :: key' ++ " "%char :: block arr ++ laterEntries es)
    with ((d :: key') ++ " "%char :: block arr ++ laterEntries es).
  rewrite separatorAt_start by done.
  rewrite (proj2 (Nat.eqb_neq _ _)) by (unfold index; cbn; lia).
  cbn [group Nat.eqb default].
  rewrite (splitLoop_entries es _ (block arr) []); [done|done| |].
  - by apply separatorFree_block.
  - rewrite !length_app. cbn [length]. rewrite !length_app. lia.
Qed.

Lemma split_join_sep sep arr :
  arr ≠ [] →
  Forall (λ w, forallb (λ a, negb (eqb a sep)) w = true) arr →
  split sep (join [sep] arr) = arr.
Proof.
  intros Hne Harr. induction Harr as [|w arr Hw Harr IH]; [done|].
  clear Hne. destruct arr as [|w2 arr].
  - cbn [join]. clear IH Harr.
    induction w as [|a w IHw]; [done|]. cbn [forallb] in Hw.
    apply andb_true_iff in Hw as [Ha Hw]. apply negb_true_iff in Ha.
    cbn [split]. by rewrite Ha, IHw.
  - change (join [sep] (w :: w2 :: arr))
      with (w ++ sep :: join [sep] (w2 :: arr)).
    specialize (IH ltac:(done)).
    induction w as [|a w IHw].
    + cbn [app split]. by rewrite eqb_refl, IH.
    + cbn [forallb] in Hw.
      apply andb_true_iff in Hw as [Ha Hw]. apply negb_true_iff in Ha.
      cbn [app split]. by rewrite Ha, IHw.
Qed.

Lemma assignPages_entries es :
  ∀ pageId acc,
    assignPages (laterPages es) true pageId acc
    = fold_left (λ m (e : entry), <[e.1 := split Page.LF (block e.2)]> m)
        es acc.
Proof.
  induction es as [|e es IH]; intros pageId acc; [done|].
  unfold laterPages. cbn [map concat app assignPages default fold_left].
  apply IH.
Qed.

Lemma block_last arr :
  arr ≠ [] →
  Forall (λ s, isSection s = true) arr →
  ∃ z, last (block arr) = Some z ∧ isWhiteSpace z = false.
Proof.
  intros Hne Harr. induction Harr as [|w arr Hw Harr IH]; [done|].
  clear Hne. unfold block in *. destruct arr as [|w2 arr].
  - cbn [join]. by apply isSection_parts in Hw as (_ & _ & Hz).
  - change (join [Page.LF] (w :: w2 :: arr))
      with (w ++ Page.LF :: join [Page.LF] (w2 :: arr)).
    destruct (IH ltac:(done)) as (z & Hz & Hws). exists z.
    by rewrite last_app, last_cons, Hz.
Qed.

Lemma laterEntries_last es :
  Forall goodEntry es → es ≠ [] →
  ∃ z, last (laterEntries es) = Some z ∧ isWhiteSpace z = false.
Proof.
  intros Hgood. induction Hgood as [|e es He Hes IH]; [done|]. intros _.
  rewrite laterEntries_cons.
  destruct He as (Hkey & Hne & Hsections).
  destruct es as [|e2 es].
  - destruct (block_last e.2 Hne Hsections) as (z & Hz & Hws). exists z.
    cbn [laterEntries map concat]. rewrite app_nil_r.
    rewrite !last_cons, last_app, last_cons, Hz. done.
  - destruct (IH ltac:(done)) as (z & Hz & Hws). exists z.
    rewrite !last_cons, last_app, last_cons, last_app, Hz. done.
Qed.

Lemma packedEntries_last e es :
  Forall goodEntry (e :: es) →
  ∃ z, last (packedEntries e es) = Some z ∧ isWhiteSpace z = false.
Proof.
  intros [(Hkey & Hne & Hsections) Hgood]%Forall_cons.
  unfold packedEntries. destruct es as [|e2 es].
  - destruct (block_last e.2 Hne Hsections) as (z & Hz & Hws). exists z.
    cbn [laterEntries map concat]. rewrite app_nil_r.
    by rewrite last_app, last_cons, Hz.
  - destruct (laterEntries_last (e2 :: es) Hgood ltac:(done))
      as (z & Hz & Hws). exists z.
    by rewrite last_app, last_cons, last_app, Hz.
Qed.

(** The lines [packWatchedSections] writes, trimmed. *)
Lemma packed_text e es :
  Forall goodEntry (e :: es) →
  trim
    (concat
       (map (λ e : entry,
               js " " ++ e.1 ++ js " " ++ block e.2 ++ [Page.LF])
          (e :: es)))
  = packedEntries e es.
Proof.
  intros Hgood.
  assert (concat
            (map (λ e : entry,
                    js " " ++ e.1 ++ js " " ++ block e.2 ++ [Page.LF])
               (e :: es))
          = (" "%char :: packedEntries e es) ++ [Page.LF]) as ->.
  { clear Hgood. revert e. induction es as [|e' es IH]; intros e.
    - unfold packedEntries, laterEntries. cbn [map concat js
        list_ascii_of_string]. norm_app. done.
    - change (concat (map ?f (e :: e' :: es)))
        with (f e ++ concat (map f (e' :: es))).
      rewrite IH. unfold packedEntries. rewrite laterEntries_cons.
      cbn [js list_ascii_of_string]. norm_app. done. }
  destruct (packedEntries_last e es Hgood) as (z & Hz & Hws).
  change (trim ((" "%char :: packedEntries e es) ++ [Page.LF]))
    with (trim (packedEntries e es ++ [Page.LF])).
  apply trim_app_LF.
  - apply Forall_cons in Hgood as [(Hkey & _) _].
    destruct (isKey_first _ Hkey) as (d & key' & Hk & Hd).
    unfold packedEntries. rewrite Hk. cbn [app].
    by apply digit_not_whitespace.
  - by rewrite Hz.
Qed.

End WatchedFacts.

Module WatchedRoundTrip.
Import JsString RegExp Options OptionsSpec WatchedSections WatchedSpec
  WatchedFacts.

Lemma fold_split_block es :
  Forall goodEntry es →
  ∀ acc : watchedObject,
    fold_left (λ m (e : entry), <[e.1 := split Page.LF (block e.2)]> m) es acc
    = fold_left (λ m (e : entry), <[e.1 := e.2]> m) es acc.
Proof.
  induction 1 as [|e es (Hkey & Hne & Hsections) Hes IH]; intros acc; [done|].
  cbn [fold_left]. unfold block at 1. rewrite split_join_sep; [apply IH|done|].
  eapply Forall_impl; [exact Hsections|]. cbn.
  by intros s (Hplain & _)%isSection_parts.
Qed.

(** [unpackWatchedSections] on the packed text of good entries. *)
Lemma unpack_entries es :
  Forall goodEntry es →
  unpackWatchedSections
    (trim
       (concat
          (map (λ e : entry,
                  js " " ++ e.1 ++ js " " ++ block e.2 ++ [Page.LF])
             es)))
  = Some (fold_left (λ m (e : entry), <[e.1 := e.2]> m) es ∅).
Proof.
  intros Hgood. destruct es as [|e es].
  - vm_compute. reflexivity.
  - rewrite packed_text by done. unfold unpackWatchedSections.
    rewrite splitBySeparator_entries by done.
    cbn [mbind option_bind drop]. rewrite drop_0.
    by rewrite assignPages_entries, fold_split_block.
Qed.

End WatchedRoundTrip.

(** X27.  Unpacking the packed watched sections gives the watched sections
    back, without the pages that have no section, in whatever order
    [Object.keys] lists the keys: this holds when the keys are
    non-empty strings of digits and the section names are not empty,
    hold no line feed, do not start with a space and do not end with
    whitespace. *)
Theorem unpackWatchedSections_packWatchedSections :
  ∀ (Object_keys : WatchedSections.watchedObject → list jsstring)
    (watchedSections : WatchedSections.watchedObject),
    Object_keys watchedSections ≡ₚ (map_to_list watchedSections).*1 →
    WatchedSpec.packableSections watchedSections →
    WatchedSections.unpackWatchedSections
      (WatchedSections.packWatchedSections Object_keys watchedSections)
    = Some (filter (λ kv, kv.2 ≠ []) watchedSections).
Proof.
  intros Object_keys ws Hkeys Hpackable.
  set (f := λ key : jsstring, default [] (ws !! key)).
  set (keys := filter (λ pageId, length (f pageId) ≠ 0) (Object_keys ws)).
  assert (WatchedSections.packWatchedSections Object_keys ws
          = JsString.trim
              (concat
                 (map (λ e : OptionsSpec.entry,
                         js " " ++ e.1 ++ js " " ++ WatchedSpec.block e.2
                           ++ [Page.LF])
                    (map (λ key, (key, f key)) keys)))) as ->.
  { unfold WatchedSections.packWatchedSections. f_equal. f_equal.
    by rewrite map_map. }
  assert (∀ key, key ∈ Object_keys ws ↔ is_Some (ws !! key)) as Hin.
  { intros key. rewrite Hkeys. apply VisitsTextFacts.elem_of_keys. }
  assert (∀ key, key ∈ keys ↔ ∃ arr, ws !! key = Some arr ∧ arr ≠ [])
    as Hkept.
  { intros key. subst keys. rewrite list_elem_of_filter, Hin. subst f.
    cbn beta. split.
    - intros [Hlen [arr Harr]]. exists arr. split; [done|].
      rewrite Harr in Hlen. by destruct arr.
    - intros (arr & Harr & Hne). rewrite Harr. split; [|by eexists].
      by destruct arr. }
  rewrite WatchedRoundTrip.unpack_entries.
  - f_equal. apply map_eq. intros i.
    rewrite VisitsTextFacts.lookup_fold_insert, lookup_empty.
    apply option_eq. intros arr. rewrite map_lookup_filter_Some. cbn [snd].
    destruct (decide (i ∈ keys)) as [Hi|Hi].
    + apply Hkept in Hi as (arr' & Harr' & Hne). subst f. cbn beta.
      rewrite Harr'. cbn [default]. split.
      * by intros [= <-].
      * intros [[= <-] _]. done.
    + split; [done|]. intros [Harr Hne]. destruct Hi. apply Hkept.
      by exists arr.
  - apply Forall_forall. intros e He.
    apply list_elem_of_fmap in He as (key & -> & Hkey).
    apply Hkept in Hkey as (arr & Harr & Hne).
    unfold WatchedSpec.goodEntry. subst f. cbn [fst snd]. rewrite Harr.
    cbn [default]. destruct (Hpackable key arr Harr) as [H1 H2].
    by split_and!.
Qed.

Lemma unpackWatchedSections_packWatchedSections_witness :
  let watchedSections : WatchedSections.watchedObject :=
    <[js "12" := [js "Plans"; js "Old news"]]>
      (<[js "7" := []]> (<[js "30" := [js "2 b"]]> ∅)) in
  WatchedSections.unpackWatchedSections
    (WatchedSections.packWatchedSections (λ m, (map_to_list m).*1)
       watchedSections)
  = Some (filter (λ kv, kv.2 ≠ []) watchedSections).
Proof.
  intros watchedSections.
  apply (unpackWatchedSections_packWatchedSections
           (λ m, (map_to_list m).*1) watchedSections).
  - reflexivity.
  - subst watchedSections.
    repeat (apply map_Forall_insert_2;
            [split; [reflexivity|repeat constructor]|]).
    apply map_Forall_empty.
Defined.

(* ===================================================================== *)
(** ** options.js: the kept data, and Autocomplete.js: the caret          *)
(* ===================================================================== *)

Module KeptFacts.
Import JsString Autocomplete WatchedSections.

Lemma removeFirst_elem (x y : jsstring) l :
  y ∈ removeFirst x l → y ∈ l.
Proof.
  induction l as [|z l IH]; [done|]. cbn [removeFirst].
  case_bool_decide as Hz; [by right|].
  intros [->|Hin]%elem_of_cons; [by left|]. right. by apply IH.
Qed.

Lemma removeFirst_other (x y : jsstring) l :
  y ≠ x → y ∈ l → y ∈ removeFirst x l.
Proof.
  intros Hne. induction l as [|z l IH]; [done|]. cbn [removeFirst].
  case_bool_decide as Hz.
  - subst z. by intros [?|?]%elem_of_cons.
  - intros [->|Hin]%elem_of_cons; [by left|]. right. by apply IH.
Qed.

Lemma removeFirst_NoDup (x : jsstring) l :
  NoDup l → NoDup (removeFirst x l) ∧ x ∉ removeFirst x l.
Proof.
  induction 1 as [|z l Hz Hl [IH1 IH2]]; cbn [removeFirst].
  { split; [constructor|apply not_elem_of_nil]. }
  case_bool_decide as Hzx.
  - subst z. done.
  - split.
    + apply NoDup_cons. split; [|done].
      intros H. by apply removeFirst_elem in H.
    + apply not_elem_of_cons. split; [congruence|done].
Qed.

Lemma NoDup_snoc (x : jsstring) l : NoDup l → x ∉ l → NoDup (l ++ [x]).
Proof.
  intros Hl Hx. apply NoDup_app. split_and!; [done| |apply NoDup_singleton].
  intros y Hy [->|H]%elem_of_cons; [done|]. by apply elem_of_nil in H.
Qed.

(** What the kept data does to the section names of the page. *)
Lemma applyKeptData_spec kept sections :
  NoDup sections →
  let after := applyKeptData kept sections in
  NoDup after
  ∧ (∀ s, truthy (justUnwatchedSection kept) = Some s → s ∉ after)
  ∧ (∀ s, s ∈ after
          ↔ (s ∈ sections ∨ truthy (justWatchedSection kept) = Some s)
            ∧ truthy (justUnwatchedSection kept) ≠ Some s).
Proof.
  intros Hnodup. unfold applyKeptData.
  set (pushed :=
         match truthy (justWatchedSection kept) with
         | Some section =>
             if bool_decide (section ∈ sections) then sections
             else sections ++ [section]
         | None => sections
         end).
  assert (NoDup pushed
          ∧ ∀ s, s ∈ pushed
                 ↔ s ∈ sections ∨ truthy (justWatchedSection kept) = Some s)
    as [Hpushed Hin].
  { subst pushed. destruct (truthy (justWatchedSection kept)) as [w|].
    - case_bool_decide as Hw.
      + split; [done|]. intros s. split; [by left|].
        intros [? | [= <-] ]; done.
      + split; [by apply NoDup_snoc|]. intros s.
        rewrite elem_of_app, list_elem_of_singleton. split.
        * intros [? | ->]; [by left|by right].
        * intros [? | [= <-] ]; [by left|by right].
    - split; [done|]. intros s. split; [by left|]. by intros [?|?]. }
  clearbody pushed. cbv zeta.
  destruct (truthy (justUnwatchedSection kept)) as [u|].
  - case_bool_decide as Hu.
    + destruct (removeFirst_NoDup u pushed Hpushed) as [H1 H2].
      split_and!; [done|by intros s [= <-]|].
      intros s. split.
      * intros Hs. split.
        -- apply Hin. by apply removeFirst_elem in Hs.
        -- intros [= ->]. done.
      * intros [Hs Hne]. apply removeFirst_other; [congruence|].
        by apply Hin.
    + split_and!; [done|by intros s [= <-]|].
      intros s. rewrite Hin. split; [|by intros [? _]].
      intros Hs. split; [done|]. intros [= ->]. by apply Hin in Hs.
  - split_and!; [done|done|]. intros s. rewrite Hin.
    split; [by intros ?|by intros [? _]].
Qed.

End KeptFacts.

(** X28.  The kept data is applied to the watched sections of the current
    page, and only to them: a section just watched is among them and a
    section just unwatched is not (when it is both, it is not), every
    other section stays, and no name comes to stand twice.  The same
    list is what the object holds under the page. *)
Theorem getWatchedSections_applies_kept_data :
  ∀ (articleId : jsstring) (kept : WatchedSections.keptData)
    (watchedSections : WatchedSections.watchedObject),
    NoDup (default [] (watchedSections !! articleId)) →
    let r := WatchedSections.getWatchedSections (Some articleId) kept
               watchedSections in
    ∃ sections,
      r.2 = Some sections
      ∧ r.1 !! articleId = Some sections
      ∧ (∀ key, key ≠ articleId → r.1 !! key = watchedSections !! key)
      ∧ NoDup sections
      ∧ (∀ s, WatchedSections.truthy
                (WatchedSections.justUnwatchedSection kept) = Some s →
              s ∉ sections)
      ∧ (∀ s, s ∈ sections
              ↔ (s ∈ default [] (watchedSections !! articleId)
                 ∨ WatchedSections.truthy
                     (WatchedSections.justWatchedSection kept) = Some s)
                ∧ WatchedSections.truthy
                    (WatchedSections.justUnwatchedSection kept) ≠ Some s).
Proof.
  intros articleId kept ws Hnodup r. subst r.
  cbn [WatchedSections.getWatchedSections fst snd].
  eexists. split_and!; [done|apply lookup_insert_eq| |..].
  - intros key Hkey. by rewrite lookup_insert_ne.
  - by apply KeptFacts.applyKeptData_spec.
  - by apply KeptFacts.applyKeptData_spec.
  - by apply KeptFacts.applyKeptData_spec.
Qed.

Lemma getWatchedSections_applies_kept_data_witness :
  let watchedSections : WatchedSections.watchedObject :=
    <[js "7" := [js "Plans"; js "Old news"]]> ∅ in
  let kept := WatchedSections.KeptData (Some (js "Votes"))
                (Some (js "Plans")) in
  (WatchedSections.getWatchedSections (Some (js "7")) kept watchedSections).2
  = Some [js "Old news"; js "Votes"].
Proof.
  intros watchedSections kept.
  destruct (getWatchedSections_applies_kept_data (js "7") kept
              watchedSections) as (sections & Hsections & _).
  - vm_compute. apply NoDup_cons. split; [|apply NoDup_singleton].
    intros Hin%list_elem_of_singleton. discriminate.
  - rewrite Hsections. vm_compute in Hsections. by injection Hsections as <-.
Defined.

Module CaretFacts.
Import JsString Caret.

Lemma onReplaced_after_insertion pre inserted c post endOffset :
  onReplaced (pre ++ inserted ++ c :: post)
    (Z.of_nat (length pre + length inserted + 1)) endOffset
  = (pre ++ inserted ++ post,
     (Z.of_nat (length pre + length inserted) - endOffset)%Z).
Proof.
  unfold onReplaced. f_equal; [|lia].
  replace (Z.of_nat (length pre + length inserted + 1) - 1)%Z
    with (Z.of_nat (length (pre ++ inserted)))
    by (rewrite length_app; lia).
  rewrite PageFacts.slice_to_nat, PageFacts.sliceFrom_nat.
  rewrite (app_assoc pre inserted), take_app_length.
  replace (length pre + length inserted + 1)
    with (length ((pre ++ inserted) ++ [c]))
    by (rewrite !length_app; cbn; lia).
  rewrite (cons_middle c (pre ++ inserted) post), app_assoc, drop_app_length.
  by rewrite <- app_assoc.
Qed.

End CaretFacts.

(** X29.  After a tag has been inserted, followed by the space the menu
    adds, with the caret behind that space, the listener takes the
    space out and puts the caret inside the inserted text: between the
    opening and the closing tag, or where the text to insert had its
    first [+]. *)
Theorem caret_after_tag_insertion :
  ∀ (i : Tags.item) (pre post : jsstring) (space : ascii),
    let inserted := Tags.transform i in
    let r := Caret.onReplaced (pre ++ inserted ++ space :: post)
               (Z.of_nat (length pre + length inserted + 1))
               (Tags.getEndOffset i) in
    ∃ before after,
      inserted = before ++ after
      ∧ r = (pre ++ before ++ after ++ post,
             Z.of_nat (length (pre ++ before)))
      ∧ match i with
        | Tags.Tag name =>
            before = js "<" ++ name ++ js ">"
            ∧ after = js "</" ++ name ++ js ">"
        | Tags.Pair _ insert =>
            if JsString.includes insert (js "+")
            then insert = before ++ js "+" ++ after ∧ "+"%char ∉ before
            else before = insert ∧ after = []
        end.
Proof.
  intros i pre post space inserted r. subst r inserted.
  destruct (TagsFacts.transform_parts i) as (before & after & Ht & Hoff & Hi).
  exists before, after. split_and!; [done| |done].
  rewrite CaretFacts.onReplaced_after_insertion, Ht, Hoff.
  rewrite <- app_assoc. f_equal. rewrite !length_app. lia.
Qed.

(* ===================================================================== *)
(** ** options.js: [setSettings]                                          *)
(* ===================================================================== *)

Module SettingsFacts.
Import JsString Settings.

Section WithValues.
Context {V : Type}.
Variable localSettingNames : list jsstring.
Variable settings : gmap jsstring V.

Local Abbreviation assign := (assignSetting localSettingNames settings).

Lemma assign_local (parts : gmap jsstring V * gmap jsstring V) k key :
  (assign parts k).1 !! key
  = if bool_decide (key = k ∧ key ∈ localSettingNames)
    then match settings !! key with
         | Some v => Some v
         | None => parts.1 !! key
         end
    else parts.1 !! key.
Proof using Type.
  unfold assignSetting.
  destruct (decide (key = k ∧ key ∈ localSettingNames)) as [Hk|Hk].
  - rewrite (bool_decide_eq_true_2 _ Hk). destruct Hk as [-> Hlocal].
    destruct (settings !! k); [|done].
    rewrite bool_decide_eq_true_2 by done. apply lookup_insert_eq.
  - rewrite (bool_decide_eq_false_2 _ Hk).
    destruct (settings !! k) as [v|] eqn:Hv; [|done].
    case_bool_decide as Hlocal; [|done]. cbn [fst].
    apply lookup_insert_ne. intros <-. by destruct Hk.
Qed.

Lemma assign_global (parts : gmap jsstring V * gmap jsstring V) k key :
  (assign parts k).2 !! key
  = if bool_decide (key = k ∧ key ∉ localSettingNames)
    then match settings !! key with
         | Some v => Some v
         | None => parts.2 !! key
         end
    else parts.2 !! key.
Proof using Type.
  unfold assignSetting.
  destruct (decide (key = k ∧ key ∉ localSettingNames)) as [Hk|Hk].
  - rewrite (bool_decide_eq_true_2 _ Hk). destruct Hk as [-> Hlocal].
    destruct (settings !! k); [|done].
    rewrite bool_decide_eq_false_2 by done. apply lookup_insert_eq.
  - rewrite (bool_decide_eq_false_2 _ Hk).
    destruct (settings !! k) as [v|] eqn:Hv; [|done].
    case_bool_decide as Hlocal; [done|]. cbn [snd].
    apply lookup_insert_ne. intros <-. by destruct Hk.
Qed.

(** The two parts after the keys [keys] have been gone through. *)
Lemma fold_assign_local keys :
  ∀ (parts : gmap jsstring V * gmap jsstring V) key,
    (fold_left assign keys parts).1 !! key
    = if bool_decide (key ∈ keys ∧ key ∈ localSettingNames)
      then match settings !! key with
           | Some v => Some v
           | None => parts.1 !! key
           end
      else parts.1 !! key.
Proof using Type.
  induction keys as [|k keys IH]; intros parts key; cbn [fold_left].
  { rewrite bool_decide_eq_false_2; [done|]. by intros [?%elem_of_nil _]. }
  rewrite IH, assign_local.
  destruct (settings !! key);
    repeat case_bool_decide; try done; exfalso;
    rewrite ?elem_of_cons in *; tauto.
Qed.

Lemma fold_assign_global keys :
  ∀ (parts : gmap jsstring V * gmap jsstring V) key,
    (fold_left assign keys parts).2 !! key
    = if bool_decide (key ∈ keys ∧ key ∉ localSettingNames)
      then match settings !! key with
           | Some v => Some v
           | None => parts.2 !! key
           end
      else parts.2 !! key.
Proof using Type.
  induction keys as [|k keys IH]; intros parts key; cbn [fold_left].
  { rewrite bool_decide_eq_false_2; [done|]. by intros [?%elem_of_nil _]. }
  rewrite IH, assign_global.
  destruct (settings !! key);
    repeat case_bool_decide; try done; exfalso;
    rewrite ?elem_of_cons in *; tauto.
Qed.

End WithValues.

End SettingsFacts.

Module SettingsKeys.

Lemma own_keys {V} (m : gmap jsstring V) key :
  key ∈ (map_to_list m).*1 ↔ is_Some (m !! key).
Proof.
  rewrite list_elem_of_fmap. split.
  - intros ([k v] & -> & Hin). apply elem_of_map_to_list in Hin.
    by exists v.
  - intros [v Hv]. exists (key, v). split; [done|].
    by apply elem_of_map_to_list.
Qed.

End SettingsKeys.

(** X30.  [setSettings] writes every setting exactly once in its two
    requests: the settings named in [cd.localSettingNames] to the
    local option and all the others to the global option, with their
    values; without an argument it takes [cd.settings].  When the
    requests fail with the code [badvalue] the global part is written
    again, to the local option of the same name, and nothing is
    thrown; nothing else is written in any other case. *)
Theorem setSettings_writes_each_setting_once :
  ∀ (V : Type) (Object_keys : gmap jsstring V → list jsstring)
    (localSettingNames : list jsstring) (cdSettings : gmap jsstring V)
    (settings : option (gmap jsstring V)) (saved : option Page.caught),
    let taken := default cdSettings settings in
    let r := Settings.setSettings Object_keys localSettingNames cdSettings
               settings saved in
    (∀ key, key ∈ Object_keys taken ↔ is_Some (taken !! key)) →
    ∃ localSettings globalSettings rest,
      r.1 = Settings.SetLocalOption Settings.LocalSettingsOption localSettings
            :: Settings.SetGlobalOption Settings.SettingsOption globalSettings
            :: rest
      ∧ (∀ key, localSettings !! key
                = if bool_decide (key ∈ localSettingNames)
                  then taken !! key else None)
      ∧ (∀ key, globalSettings !! key
                = if bool_decide (key ∈ localSettingNames)
                  then None else taken !! key)
      ∧ rest
        = match saved with
          | Some (Page.CdError _ (Some (Page.ApiData (Some error) _))) =>
              if bool_decide (Page.errorCode error = js "badvalue")
              then [Settings.SetLocalOption Settings.SettingsOption
                      globalSettings]
              else []
          | _ => []
          end
      ∧ (r.2 = Settings.Returned ↔ saved = None ∨ rest ≠ []).
Proof.
  intros V Object_keys names cdSettings settings saved taken r Hown.
  subst r. unfold Settings.setSettings. fold taken.
  pose proof (SettingsFacts.fold_assign_local names taken
                (Object_keys taken) (∅, ∅)) as Hlocal.
  pose proof (SettingsFacts.fold_assign_global names taken
                (Object_keys taken) (∅, ∅)) as Hglobal.
  unfold Settings.splitSettings.
  destruct (fold_left _ (Object_keys taken) (∅, ∅)) as [l g].
  cbn [fst snd] in Hlocal, Hglobal.
  assert (∀ key, l !! key
                 = if bool_decide (key ∈ names) then taken !! key else None)
    as Hl.
  { intros key. rewrite Hlocal, lookup_empty.
    destruct (taken !! key) as [v|] eqn:Hv.
    - assert (key ∈ Object_keys taken) by (apply Hown; by eexists).
      repeat case_bool_decide; try done; tauto.
    - by repeat case_bool_decide. }
  assert (∀ key, g !! key
                 = if bool_decide (key ∈ names) then None else taken !! key)
    as Hg.
  { intros key. rewrite Hglobal, lookup_empty.
    destruct (taken !! key) as [v|] eqn:Hv.
    - assert (key ∈ Object_keys taken) by (apply Hown; by eexists).
      repeat case_bool_decide; try done; tauto.
    - by repeat case_bool_decide. }
  destruct saved as [[type [[[error|] other]|]|]|].
  - case_bool_decide as Hcode.
    + eexists l, g, _. cbn [fst snd app]. split_and!; try done.
      split; [intros _; by right|done].
    + eexists l, g, _. cbn [fst snd app]. split_and!; try done.
      split; [done|]. by intros [?|?].
  - eexists l, g, _. cbn [fst snd]. split_and!; try done.
    split; [done|]. by intros [?|?].
  - eexists l, g, _. cbn [fst snd]. split_and!; try done.
    split; [done|]. by intros [?|?].
  - eexists l, g, _. cbn [fst snd]. split_and!; try done.
    split; [done|]. by intros [?|?].
  - eexists l, g, _. cbn [fst snd]. split_and!; try done.
    split; [intros _; by left|done].
Qed.

Lemma setSettings_writes_each_setting_once_witness :
  let settings : gmap jsstring jsstring :=
    <[js "showToolbar" := js "true"]> (<[js "signaturePrefix" := js " "]> ∅) in
  let refused :=
    Page.CdError (js "api")
      (Some (Page.ApiData
               (Some (Page.ApiError (js "badvalue") None None None)) [])) in
  let r := Settings.setSettings (λ m, (map_to_list m).*1)
             [js "signaturePrefix"] ∅ (Some settings) (Some refused) in
  ∃ localSettings globalSettings rest,
    r.1 = Settings.SetLocalOption Settings.LocalSettingsOption localSettings
          :: Settings.SetGlobalOption Settings.SettingsOption globalSettings
          :: rest
    ∧ (∀ key, localSettings !! key
              = if bool_decide (key ∈ [js "signaturePrefix"])
                then settings !! key else None)
    ∧ (∀ key, globalSettings !! key
              = if bool_decide (key ∈ [js "signaturePrefix"])
                then None else settings !! key)
    ∧ rest
      = [Settings.SetLocalOption Settings.SettingsOption globalSettings]
    ∧ (r.2 = Settings.Returned ↔ Some refused = None ∨ rest ≠ []).
Proof.
  intros settings refused r.
  apply (setSettings_writes_each_setting_once jsstring
           (λ m, (map_to_list m).*1) [js "signaturePrefix"] ∅
           (Some settings) (Some refused)).
  intros key. apply SettingsKeys.own_keys.
Defined.
